(** * Distributed dense matrix multiplication (matrix-mult.c)

    A shallow embedding of [examples/slurm-jobs/matrix-multiply/matrix-mult.c]:
    the local multiply kernel [multiply_matrices] over an explicit heap of
    malloc'ed blocks, the MPI collectives the program calls (scatter,
    broadcast, gather, barrier) over a group of processes with private
    heaps, and [main] as the SPMD program every rank runs.

    Conventions.
    - A C [int] is a [Z]; signed overflow is undefined in C, so every
      [int] product or sum the source computes goes through [int_mul] /
      [int_add], which fail ([None]) outside [INT_MIN .. INT_MAX].  The
      theorems about runs that allocate therefore carry the hypothesis
      [n * n <= INT_MAX]; [oversized_problem_undefined] shows what is left
      without it.
    - A [double] is an element of an arbitrary type [D] with the constant
      [0.0] and the two operations [+] and [*] the kernel uses, each
      rounded on its own as in the C abstract machine; no algebraic law is
      assumed, so every statement holds for IEEE-754 binary64 (module
      [Binary64] instantiates [D] with Stdlib's [spec_float] at precision
      53) and records the exact order of the floating-point operations.
    - Memory is a heap of blocks, one per successful [malloc], each a list
      of [double]s; a pointer is NULL or the base of a block.
    - The MPI collectives and [atoi] belong to libraries, not to the
      program; they are modelled from the MPI and C standards.
    - [None] stands for undefined behaviour (overflow, access outside a
      block, use of NULL, a collective called with mismatched arguments).

    The development has two parts.  The first proves the properties the
    specification states (C1 to C10).  The second, "Beyond the
    specification", covers what those leave out of the file:
    [initialize_matrix] and [print_matrix], the edge cases and the exact
    safety condition of the kernel, the whole of what a run does and
    prints, and the runs in which an allocation fails (X1 onwards). *)

From Stdlib Require Import ZArith List Lia Ascii String SpecFloat.
From Stdlib Require PrimFloat FloatOps.
From stdpp Require Import base option list gmap strings.

Local Open Scope Z_scope.

(** ** C integers *)

Definition INT_MAX : Z := 2147483647.
Definition INT_MIN : Z := -2147483648.

Definition in_int (z : Z) : bool := (INT_MIN <=? z) && (z <=? INT_MAX).

Definition int_chk (z : Z) : option Z := if in_int z then Some z else None.
Definition int_mul (x y : Z) : option Z := int_chk (x * y).
Definition int_add (x y : Z) : option Z := int_chk (x + y).

(** ** [for (int i = lo; i < hi; i++) body] over a state [S] *)

Fixpoint for_iter {S : Type} (k : nat) (i : Z) (body : Z → S → option S) (s : S)
  : option S :=
  match k with
  | O => Some s
  | Datatypes.S k' => s' ← body i s; for_iter k' (i + 1) body s'
  end.

Definition for_loop {S : Type} (lo hi : Z) (body : Z → S → option S) (s : S)
  : option S :=
  for_iter (Z.to_nat (hi - lo)) lo body s.

(** ** Pointers and the heap *)

(** A pointer returned by [malloc]: NULL or the base of a block.  The
    program never does pointer arithmetic other than indexing. *)
Inductive ptr := NULL | Ptr (b : nat).

Global Instance ptr_eq_dec : EqDecision ptr.
Proof. solve_decision. Defined.

(** ** The C library's [atoi] *)

(** [isspace] in the C locale. *)
Definition isspace (c : ascii) : bool :=
  let k := nat_of_ascii c in ((k =? 32) || ((9 <=? k) && (k <=? 13)))%nat.

Definition digit_of (c : ascii) : option Z :=
  let k := Z.of_nat (nat_of_ascii c) in
  if (48 <=? k) && (k <=? 57) then Some (k - 48) else None.

Fixpoint skip_spaces (s : string) : string :=
  match s with
  | String c s' => if isspace c then skip_spaces s' else s
  | EmptyString => s
  end.

(** The value of the longest prefix of decimal digits, accumulated from [acc]. *)
Fixpoint digits_value (s : string) (acc : Z) : Z :=
  match s with
  | String c s' =>
      match digit_of c with
      | Some d => digits_value s' (10 * acc + d)
      | None => acc
      end
  | EmptyString => acc
  end.

(** [atoi]: optional white space, an optional sign, then decimal digits; a
    string with no digits there gives 0; a value that does not fit an [int]
    is undefined. *)
Definition atoi (s : string) : option Z :=
  match skip_spaces s with
  | String "-" s' => int_chk (- digits_value s' 0)
  | String "+" s' => int_chk (digits_value s' 0)
  | s' => int_chk (digits_value s' 0)
  end.

(** Lines 76-80: [argv[0]] is the program name. *)
Definition parse_n (argv : list string) : option Z :=
  match argv with
  | _ :: a :: _ => atoi a
  | _ => Some 100
  end.

(** ** Decimal constants

    The decimal literals of the source and of its comments, as the
    compiler reads them: each is the binary64 value nearest to the number
    written. *)

Module Decimal.
Import PrimFloat.

(** 0.0, 0.1, ..., 9.9: the values the comment of line 29 announces. *)
#[warnings="-inexact-float"]
Definition tenths : list float :=
  [0.0; 0.1; 0.2; 0.3; 0.4; 0.5; 0.6; 0.7; 0.8; 0.9;
   1.0; 1.1; 1.2; 1.3; 1.4; 1.5; 1.6; 1.7; 1.8; 1.9;
   2.0; 2.1; 2.2; 2.3; 2.4; 2.5; 2.6; 2.7; 2.8; 2.9;
   3.0; 3.1; 3.2; 3.3; 3.4; 3.5; 3.6; 3.7; 3.8; 3.9;
   4.0; 4.1; 4.2; 4.3; 4.4; 4.5; 4.6; 4.7; 4.8; 4.9;
   5.0; 5.1; 5.2; 5.3; 5.4; 5.5; 5.6; 5.7; 5.8; 5.9;
   6.0; 6.1; 6.2; 6.3; 6.4; 6.5; 6.6; 6.7; 6.8; 6.9;
   7.0; 7.1; 7.2; 7.3; 7.4; 7.5; 7.6; 7.7; 7.8; 7.9;
   8.0; 8.1; 8.2; 8.3; 8.4; 8.5; 8.6; 8.7; 8.8; 8.9;
   9.0; 9.1; 9.2; 9.3; 9.4; 9.5; 9.6; 9.7; 9.8; 9.9]%float.

#[warnings="-inexact-float"]
Definition nine_point_nine : float := 9.9%float.

End Decimal.

(** ** IEEE-754 binary64, the [double] of the program *)

Module Binary64.

Definition prec : Z := 53.
Definition emax : Z := 1024.

Definition double : Type := spec_float.
Definition add : double → double → double := SFadd prec emax.
Definition mul : double → double → double := SFmul prec emax.
Definition div : double → double → double := SFdiv prec emax.

(** The [double] nearest to an integer. *)
Definition of_Z (z : Z) : double := binary_normalize prec emax z 0 false.

Definition zero : double := S754_zero false.
Definition one : double := Eval vm_compute in of_Z 1.
Definition inf : double := S754_infinity false.

(** Line 29: [(double)(rand() % 100) / 10.0] for a value [r] of [rand()],
    which is never negative. *)
Definition rand_value (r : Z) : double := div (of_Z (Z.rem r 100)) (of_Z 10).

(** The doubles written 0.0, 0.1, ..., 9.9 in decimal, [k / 10] at index
    [k]: each literal of [Decimal.tenths] as the binary64 value nearest to
    it. *)
Definition rand_values : list double :=
  Eval vm_compute in FloatOps.Prim2SF <$> Decimal.tenths.

Definition leb : double → double → bool := SFleb.

(** [x == y] in C. *)
Definition eqb : double → double → bool := SFeqb.

Definition is_finite (x : double) : bool :=
  match x with S754_zero _ | S754_finite _ _ _ => true | _ => false end.

(** A finite [double]: a zero, or a mantissa and an exponent that binary64
    can hold. *)
Definition finite_double (x : double) : bool :=
  is_finite x && valid_binary prec emax x.

(** -0.0. *)
Definition neg_zero : double := S754_zero true.

(** The double written 9.9. *)
Definition max_rand : double :=
  Eval vm_compute in FloatOps.Prim2SF Decimal.nine_point_nine.

(** A finite value between 0.0 and 9.9. *)
Definition in_range (x : double) : bool :=
  is_finite x && leb zero x && leb x max_rand.

Global Instance double_eq_dec : EqDecision double.
Proof. solve_decision. Defined.

(** The matrices of the specification's example, [[1,2],[3,4]] and
    [[5,6],[7,8]], and their product. *)
Definition A2 : list double := of_Z <$> [1; 2; 3; 4].
Definition B2 : list double := of_Z <$> [5; 6; 7; 8].
Definition C2 : list double := of_Z <$> [19; 22; 43; 50].

(** A matrix with an infinite entry and one with a NaN. *)
Definition A_inf : list double := [inf; zero; zero; zero].
Definition A_nan : list double := [S754_nan; zero; zero; zero].

(** An allocator that always succeeds and hands out blocks filled with
    NaN, and one whose second call (the [B_local] of line 120) fails. *)
Definition alloc_ok : nat → nat → option (nat → double) :=
  fun _ _ => Some (fun _ => S754_nan).
Definition alloc_fail_second : nat → nat → option (nat → double) :=
  fun _ k => if (k =? 1)%nat then None else Some (fun _ => S754_nan).

(** An allocator that fails at the fifth call, the B of line 132 on rank 0. *)
Definition alloc_fail_fifth : nat → nat → option (nat → double) :=
  fun _ k => if (k =? 4)%nat then None else Some (fun _ => S754_nan).

(** A heap with a 1 x 2 slice [[1,2]] in block 0, the matrix [B2] in block
    1 and an output block 2 of three elements, one more than the kernel is
    to write. *)
Definition heap_in : gmap nat (list double) :=
  <[2%nat := [S754_nan; S754_nan; one]]>
    (<[1%nat := B2]> (<[0%nat := of_Z <$> [1; 2]]> ∅)).
Definition heap_out : gmap nat (list double) :=
  <[2%nat := [of_Z 19; of_Z 22; one]]> heap_in.

(** The same with an output block of exactly two elements. *)
Definition heap_in2 : gmap nat (list double) :=
  <[2%nat := [S754_nan; S754_nan]]>
    (<[1%nat := B2]> (<[0%nat := of_Z <$> [1; 2]]> ∅)).

(** A heap with [A2] in block 0 and [B2] in block 1, for a call of the
    kernel whose output buffer is one of its inputs. *)
Definition heap_AB : gmap nat (list double) :=
  <[1%nat := B2]> (<[0%nat := A2]> ∅).

(** A matrix with the entries -0.0, 2.5 (as 5/2), -3 and 0.0. *)
Definition A_zeros : list double :=
  [neg_zero; div (of_Z 5) (of_Z 2); of_Z (-3); zero].

(** A heap whose block 0 holds the 2 x 11 matrix with entries 0, 1, ..., 21. *)
Definition heap_matrix : gmap nat (list double) :=
  {[0%nat := of_Z <$> seqZ 0 22]}.

End Binary64.

(** ** Counting floating-point operations

    The kernel is written over an arbitrary type of values.  Run on
    counts, a value being the pair of the number of additions and the
    number of multiplications that produced it, it leaves in a cell the
    operations that cell has cost. *)

Module Flops.

(** Additions, multiplications. *)
Definition count : Type := Z * Z.

(** An input: no operation produced it. *)
Definition none : count := (0, 0).

(** [x + y] costs what [x] and [y] cost and one addition. *)
Definition add (x y : count) : count := (x.1 + y.1 + 1, x.2 + y.2).

(** [x * y] costs what [x] and [y] cost and one multiplication. *)
Definition mul (x y : count) : count := (x.1 + y.1, x.2 + y.2 + 1).

(** The operations behind all the values of a buffer. *)
Definition total (l : list count) : count :=
  foldr (fun x acc => (x.1 + acc.1, x.2 + acc.2)) (0, 0) l.

End Flops.

Section Engine.
Context {D : Type}.
Variable d0 : D.                 (* 0.0 *)
Variables dadd dmul : D → D → D. (* double + and * *)

(** A heap maps the live block identifiers to their contents, one list
    element per [double]. *)
Local Abbreviation mem := (gmap nat (list D)).

Definition buffer (h : mem) (p : ptr) : option (list D) :=
  match p with NULL => None | Ptr b => h !! b end.

(** [p[i]] as an rvalue. *)
Definition load (h : mem) (p : ptr) (i : Z) : option D :=
  if decide (0 ≤ i) then l ← buffer h p; l !! Z.to_nat i else None.

(** [p[i] = v]. *)
Definition store (h : mem) (p : ptr) (i : Z) (v : D) : option mem :=
  match p with
  | NULL => None
  | Ptr b =>
      l ← h !! b;
      if decide (0 ≤ i < Z.of_nat (length l))
      then Some (<[b := <[Z.to_nat i := v]> l]> h) else None
  end.

(** [i * n + j] as the source computes it, in [int]. *)
Definition idx (i n j : Z) : option Z := in_ ← int_mul i n; int_add in_ j.

(** *** The kernel, lines 50-60 *)

Definition mm_k_body (A_local B C_local : ptr) (n i j : Z) (k : Z) (h : mem)
  : option mem :=
  ij ← idx i n j;
  ik ← idx i n k;
  kj ← idx k n j;
  c ← load h C_local ij;
  a ← load h A_local ik;
  b ← load h B kj;
  store h C_local ij (dadd c (dmul a b)).

Definition mm_j_body (A_local B C_local : ptr) (n i : Z) (j : Z) (h : mem)
  : option mem :=
  ij ← idx i n j;
  h1 ← store h C_local ij d0;
  for_loop 0 n (mm_k_body A_local B C_local n i j) h1.

Definition mm_i_body (A_local B C_local : ptr) (n : Z) (i : Z) (h : mem)
  : option mem :=
  for_loop 0 n (mm_j_body A_local B C_local n i) h.

Definition multiply_matrices (A_local B C_local : ptr) (local_rows n : Z)
    (h : mem) : option mem :=
  for_loop 0 local_rows (mm_i_body A_local B C_local n) h.

(** *** What the kernel is meant to compute *)

(** Element [i] of a flat buffer ([0.0] outside it, never used below). *)
Definition elt (l : list D) (i : Z) : D := nth (Z.to_nat i) l d0.

(** [0.0 + A[i][0]*B[0][j] + ... + A[i][k-1]*B[k-1][j]], summed from the
    left in increasing column index of A. *)
Definition dot_prefix (A B : list D) (n i j k : Z) : D :=
  fold_left (fun acc k => dadd acc (dmul (elt A (i * n + k)) (elt B (k * n + j))))
            (seqZ 0 k) d0.

(** The whole sum [Σ_k A[i][k] * B[k][j]] in that order. *)
Definition dot_naive (A B : list D) (n i j : Z) : D := dot_prefix A B n i j n.

(** The row-major matrix with rows [rows] and [n] columns whose entry in
    row [i], column [j] is [f i j]. *)
Definition tabulate (rows : list Z) (n : Z) (f : Z → Z → D) : list D :=
  i ← rows; j ← seqZ 0 n; [f i j].

(** The standard product of a [rows x n] matrix by an [n x n] matrix,
    row-major: [C[i][j] = Σ_k A[i][k] * B[k][j]]. *)
Definition matmul (A B : list D) (rows n : Z) : list D :=
  tabulate (seqZ 0 rows) n (dot_naive A B n).

(** [h'] differs from [h] at most in the elements [0 .. m-1] of the block
    [q] points to. *)
Definition unchanged_outside (q : ptr) (m : Z) (h h' : mem) : Prop :=
  (∀ b, Ptr b ≠ q → h' !! b = h !! b) ∧
  (∀ i, ¬ (0 ≤ i < m) → load h' q i = load h q i) ∧
  (∀ b, length <$> h' !! b = length <$> h !! b).

(** The state of the output block [c] when the kernel, started in [h] with
    [lc] in that block, has computed the cells before flat index [m]: those
    cells hold their sums, the rest of the block and every other block is
    as in [h]. *)
Definition cells_done (c : nat) (la lb : list D) (n : Z) (h : mem) (lc : list D)
    (m : Z) (h' : mem) : Prop :=
  (∀ b', b' ≠ c → h' !! b' = h !! b') ∧
  ∃ lc', h' !! c = Some lc' ∧ length lc' = length lc ∧
    (∀ i j, 0 ≤ i → 0 ≤ j < n → i * n + j < m →
        lc' !! Z.to_nat (i * n + j) = Some (dot_naive la lb n i j)) ∧
    (∀ t, m ≤ t → lc' !! Z.to_nat t = lc !! Z.to_nat t).

(** ** Processes *)

(** What a process prints, one constructor per [printf] of the source. *)
Inductive message :=
| MsgSizeTooSmall (n N : Z)       (* line 85 *)
| MsgNotDivisible (n N : Z)       (* line 94 *)
| MsgConfig (n N local_rows total : Z) (* lines 106-115 *)
| MsgLocalAllocFailed (rank : Z)  (* line 124 *)
| MsgInitializing                 (* line 130 *)
| MsgFullAllocFailed              (* line 136 *)
| MsgMatrixHeader (name : string) (rows cols : Z) (* line 35 *)
| MsgTooLarge                     (* line 37 *)
| MsgValue (v : D)                (* line 43 *)
| MsgNewline                      (* lines 45, 148, 199 *)
| MsgDistributing                 (* line 157 *)
| MsgBroadcasting                 (* line 165 *)
| MsgComputing                    (* line 177 *)
| MsgGathering                    (* line 183 *)
| MsgResults (n : Z).             (* lines 200-210 *)

(** What a process does that its environment can see. *)
Inductive event :=
| EvInit | EvFinalize | EvAbort (code : Z)
| EvPrint (m : message)
| EvMalloc (count : Z) (p : ptr) | EvFree (p : ptr)
| EvBarrier | EvScatter | EvBcast | EvGather | EvReduce
| EvWtime.

(** A process: its private heap, the number of [malloc] calls it has made,
    what it has done so far (latest first), and the locals of [main]. *)
Record proc := mkProc {
  heap : mem;
  brk : nat;
  out : list event;
  world_rank : Z;
  A : ptr; B : ptr; C : ptr;
  A_local : ptr; B_local : ptr; C_local : ptr
}.

Definition set_heap (h : mem) (p : proc) : proc :=
  mkProc h (brk p) (out p) (world_rank p) (A p) (B p) (C p)
         (A_local p) (B_local p) (C_local p).

Definition log (e : event) (p : proc) : proc :=
  mkProc (heap p) (brk p) (e :: out p) (world_rank p) (A p) (B p) (C p)
         (A_local p) (B_local p) (C_local p).

Definition set_local_ptrs (a b c : ptr) (p : proc) : proc :=
  mkProc (heap p) (brk p) (out p) (world_rank p) (A p) (B p) (C p) a b c.

Definition set_full_ptrs (a b c : ptr) (p : proc) : proc :=
  mkProc (heap p) (brk p) (out p) (world_rank p) a b c
         (A_local p) (B_local p) (C_local p).

Definition say (m : message) (p : proc) : proc := log (EvPrint m) p.

(** [if (world_rank == 0) printf(...)]. *)
Definition say0 (m : message) (p : proc) : proc :=
  if decide (world_rank p = 0) then say m p else p.

(** [malloc(count * sizeof(double))].  [env k] is the allocator's answer to
    the process's [k]-th call: [None] for NULL, otherwise the indeterminate
    initial contents of the new block. *)
Definition malloc (env : nat → option (nat → D)) (count : Z) (p : proc)
  : ptr * proc :=
  let k := brk p in
  match env k with
  | Some init =>
      if decide (0 ≤ count) then
        let l := init <$> seq 0 (Z.to_nat count) in
        (Ptr k, mkProc (<[k := l]> (heap p)) (S k) (EvMalloc count (Ptr k) :: out p)
                       (world_rank p) (A p) (B p) (C p)
                       (A_local p) (B_local p) (C_local p))
      else (NULL, mkProc (heap p) (S k) (EvMalloc count NULL :: out p)
                       (world_rank p) (A p) (B p) (C p)
                       (A_local p) (B_local p) (C_local p))
  | None => (NULL, mkProc (heap p) (S k) (EvMalloc count NULL :: out p)
                       (world_rank p) (A p) (B p) (C p)
                       (A_local p) (B_local p) (C_local p))
  end.

(** [free(q)]: nothing for NULL, undefined for a block that is not live. *)
Definition free (q : ptr) (p : proc) : option proc :=
  match q with
  | NULL => Some (log (EvFree NULL) p)
  | Ptr b =>
      match heap p !! b with
      | Some _ => Some (log (EvFree q) (set_heap (delete b (heap p)) p))
      | None => None
      end
  end.

(** The blocks a process still holds. *)
Definition live (p : proc) : gset nat := dom (heap p).

(** Lines 26-31; [vals] are the values [(double)(rand() % 100) / 10.0]
    takes in the successive iterations. *)
Definition initialize_matrix (vals : list D) (matrix : ptr) (rows cols : Z)
    (h : mem) : option mem :=
  rc ← int_mul rows cols;
  for_loop 0 rc (fun i h => store h matrix i (elt vals i)) h.

(** Lines 34-47, with the reassignment of [cols] in the truncated case. *)
Definition print_matrix (matrix : ptr) (rows cols : Z) (name : string) (p : proc)
  : option proc :=
  let p := say (MsgMatrixHeader name rows cols) p in
  let big := bool_decide (10 < rows ∨ 10 < cols) in
  let p := if big then say MsgTooLarge p else p in
  let rows := if big then (if decide (rows < 5) then rows else 5) else rows in
  let cols := if big then (if decide (cols < 5) then cols else 5) else cols in
  for_loop 0 rows (fun i p =>
    p ← for_loop 0 cols (fun j p =>
          ij ← idx i cols j;
          v ← load (heap p) matrix ij;
          Some (say (MsgValue v) p)) p;
    Some (say MsgNewline p)) p.

(** ** The collectives of the MPI library, on a group of processes

    A group is the list of its processes, rank [r] at position [r].  Each
    collective takes the arguments every rank passes (a function of the
    rank's own locals) and is defined when all ranks call it. *)

Definition read_buf (p : proc) (q : ptr) (count : Z) : option (list D) :=
  l ← buffer (heap p) q;
  if decide (0 ≤ count ≤ Z.of_nat (length l)) then Some (take (Z.to_nat count) l)
  else None.

Definition write_buf (p : proc) (q : ptr) (vals : list D) : option proc :=
  match q with
  | NULL => None
  | Ptr b =>
      l ← heap p !! b;
      if decide (length vals ≤ length l)%nat
      then Some (set_heap (<[b := vals ++ drop (length vals) l]> (heap p)) p)
      else None
  end.

(** Block [r] of [count] elements of a send buffer. *)
Definition chunk (count : Z) (r : nat) (l : list D) : list D :=
  take (Z.to_nat count) (drop (r * Z.to_nat count) l).

Definition MPI_Barrier (g : list proc) : option (list proc) :=
  Some (log EvBarrier <$> g).

(** [MPI_Scatter(sendbuf, sendcount, MPI_DOUBLE, recvbuf, recvcount,
    MPI_DOUBLE, root, MPI_COMM_WORLD)]: the root's send buffer is cut into
    [length g] consecutive blocks of [sendcount] elements and block [r] is
    stored at the start of rank [r]'s receive buffer.  The send buffer is
    significant at the root only. *)
Definition MPI_Scatter (sendbuf : proc → ptr) (sendcount : Z)
    (recvbuf : proc → ptr) (recvcount : Z) (root : nat) (g : list proc)
  : option (list proc) :=
  rp ← g !! root;
  if decide (sendcount = recvcount) then
    all ← read_buf rp (sendbuf rp) (Z.of_nat (length g) * sendcount);
    mapM (fun rq : nat * proc =>
            q ← write_buf rq.2 (recvbuf rq.2) (chunk sendcount rq.1 all);
            Some (log EvScatter q))
         (imap pair g)
  else None.

(** [MPI_Bcast(buffer, count, MPI_DOUBLE, root, MPI_COMM_WORLD)]: the first
    [count] elements of the root's buffer are stored at the start of every
    rank's buffer. *)
Definition MPI_Bcast (buffer_ : proc → ptr) (count : Z) (root : nat)
    (g : list proc) : option (list proc) :=
  rp ← g !! root;
  data ← read_buf rp (buffer_ rp) count;
  mapM (fun p => q ← write_buf p (buffer_ p) data; Some (log EvBcast q)) g.

(** [MPI_Gather(sendbuf, sendcount, MPI_DOUBLE, recvbuf, recvcount,
    MPI_DOUBLE, root, MPI_COMM_WORLD)]: the first [sendcount] elements of
    every rank's send buffer are stored, in rank order, at the start of the
    root's receive buffer, which is significant at the root only. *)
Definition MPI_Gather (sendbuf : proc → ptr) (sendcount : Z)
    (recvbuf : proc → ptr) (recvcount : Z) (root : nat) (g : list proc)
  : option (list proc) :=
  if decide (sendcount = recvcount) then
    parts ← mapM (fun p => read_buf p (sendbuf p) sendcount) g;
    rp ← g !! root;
    rp' ← write_buf rp (recvbuf rp) (concat parts);
    Some (log EvGather <$> <[root := rp']> g)
  else None.

(** ** [main], lines 62-227 *)

(** How a process leaves the run. *)
Inductive outcome :=
| Returned (status : Z)   (* [return status] from [main] *)
| Aborted (code : Z)      (* it called [MPI_Abort] *)
| Killed.                 (* another rank's [MPI_Abort] ended it *)

Inductive progress :=
| Stop (o : outcome) (p : proc)
| Continue (p : proc).

Definition proc_init (rank : Z) : proc :=
  mkProc ∅ 0 [EvInit] rank NULL NULL NULL NULL NULL NULL.

(** Lines 128-149, on the rank for which [world_rank == 0]. *)
Definition main_root_setup (env : nat → option (nat → D)) (A0 B0 : list D)
    (n : Z) (p : proc) : option progress :=
  let p := say MsgInitializing p in
  nn ← int_mul n n;
  let '(a, p) := malloc env nn p in
  let '(b, p) := malloc env nn p in
  let '(c, p) := malloc env nn p in
  let p := set_full_ptrs a b c p in
  if decide (a = NULL ∨ b = NULL ∨ c = NULL) then
    Some (Stop (Aborted 1) (log (EvAbort 1) (say MsgFullAllocFailed p)))
  else
    h ← initialize_matrix A0 a n n (heap p);
    h ← initialize_matrix B0 b n n h;
    let p := set_heap h p in
    p ← (if decide (n ≤ 10) then
           p ← print_matrix a n n "Matrix A" p;
           print_matrix b n n "Matrix B" p
         else Some p);
    Some (Continue (say MsgNewline p)).

(** Lines 70-149 on one rank: start-up, validation, allocation and, on
    rank 0, initialisation.  [n] is the parsed matrix size, [N] the size of
    [MPI_COMM_WORLD]. *)
Definition main_start (env : nat → option (nat → D)) (A0 B0 : list D)
    (n N rank : Z) : option progress :=
  let p := proc_init rank in
  if decide (n < N) then
    Some (Stop (Returned 1) (log EvFinalize (say0 (MsgSizeTooSmall n N) p)))
  else if decide (Z.rem n N ≠ 0) then
    Some (Stop (Returned 1) (log EvFinalize (say0 (MsgNotDivisible n N) p)))
  else
    let local_rows := Z.quot n N in
    p ← (if decide (rank = 0) then
           nn ← int_mul n n; Some (say (MsgConfig n N local_rows nn) p)
         else Some p);
    cnt ← int_mul local_rows n;
    nn ← int_mul n n;
    let '(a, p) := malloc env cnt p in
    let '(b, p) := malloc env nn p in
    let '(c, p) := malloc env cnt p in
    let p := set_local_ptrs a b c p in
    if decide (a = NULL ∨ b = NULL ∨ c = NULL) then
      Some (Stop (Aborted 1) (log (EvAbort 1) (say (MsgLocalAllocFailed rank) p)))
    else if decide (rank = 0) then main_root_setup env A0 B0 n p
    else Some (Continue p).

(** *** Lines 151-191: distribute, compute, gather *)

Definition on_each (f : proc → option proc) (g : list proc) : option (list proc) :=
  mapM f g.

(** Lines 152-161. *)
Definition phase_scatter (n local_rows : Z) (g : list proc) : option (list proc) :=
  g ← MPI_Barrier g;
  let g : list proc := log EvWtime <$> g in
  let g : list proc := say0 MsgDistributing <$> g in
  cnt ← int_mul local_rows n;
  MPI_Scatter A cnt A_local cnt 0 g.

(** Lines 167-172: [for (int i = 0; i < n * n; i++) B_local[i] = B[i];]. *)
Definition copy_B (n : Z) (p : proc) : option proc :=
  nn ← int_mul n n;
  h ← for_loop 0 nn (fun i h => v ← load h (B p) i; store h (B_local p) i v) (heap p);
  Some (set_heap h p).

(** Lines 164-173. *)
Definition phase_bcast (n : Z) (g : list proc) : option (list proc) :=
  let g : list proc := say0 MsgBroadcasting <$> g in
  g ← on_each (fun p => if decide (world_rank p = 0) then copy_B n p else Some p) g;
  nn ← int_mul n n;
  MPI_Bcast B_local nn 0 g.

(** Lines 176-179. *)
Definition phase_multiply (n local_rows : Z) (g : list proc) : option (list proc) :=
  let g : list proc := say0 MsgComputing <$> g in
  on_each (fun p =>
             h ← multiply_matrices (A_local p) (B_local p) (C_local p)
                                   local_rows n (heap p);
             Some (set_heap h p)) g.

(** Lines 182-191. *)
Definition phase_gather (n local_rows : Z) (g : list proc) : option (list proc) :=
  let g : list proc := say0 MsgGathering <$> g in
  cnt ← int_mul local_rows n;
  g ← MPI_Gather C_local cnt C cnt 0 g;
  g ← MPI_Barrier g;
  Some (log EvWtime <$> (g : list proc)).

Definition pipeline (n local_rows : Z) (g : list proc) : option (list proc) :=
  g ← phase_scatter n local_rows g;
  g ← phase_bcast n g;
  g ← phase_multiply n local_rows g;
  phase_gather n local_rows g.

(** Lines 193-211 on one rank. *)
Definition main_report (n : Z) (p : proc) : option proc :=
  if decide (world_rank p = 0) then
    p ← (if decide (n ≤ 10) then print_matrix (C p) n n "Result Matrix C" p
         else Some p);
    Some (say (MsgResults n) (say MsgNewline p))
  else Some p.

(** Lines 213-226 on one rank. *)
Definition main_cleanup (p : proc) : option proc :=
  p ← free (A_local p) p;
  p ← free (B_local p) p;
  p ← free (C_local p) p;
  p ← (if decide (world_rank p = 0) then
         p ← free (A p) p; p ← free (B p) p; free (C p) p
       else Some p);
  Some (log EvFinalize p).

(** Lines 193-226 on one rank. *)
Definition main_finish (n : Z) (p : proc) : option proc :=
  p ← main_report n p; main_cleanup p.

(** *** The run of the whole group *)

Definition continuing (s : progress) : option proc :=
  match s with Continue p => Some p | Stop _ _ => None end.

Definition is_abort (s : progress) : bool :=
  match s with Stop (Aborted _) _ => true | _ => false end.

(** After an [MPI_Abort] somewhere, every process is gone: the ranks that
    called it are [Aborted], the others are killed where they stand. *)
Definition after_abort (s : progress) : outcome * proc :=
  match s with
  | Stop (Aborted c) p => (Aborted c, p)
  | Stop _ p | Continue p => (Killed, p)
  end.

Definition stopped (s : progress) : option (outcome * proc) :=
  match s with Stop o p => Some (o, p) | Continue _ => None end.

(** All ranks up to the first collective. *)
Definition start_group (env : nat → nat → option (nat → D)) (A0 B0 : list D)
    (n : Z) (N : nat) : option (list progress) :=
  mapM (fun r => main_start (env r) A0 B0 n (Z.of_nat N) (Z.of_nat r)) (seq 0 N).

(** The run of [N] processes started with the command line [argv].  [env r]
    is the allocator of rank [r]; [A0] and [B0] are the values the two
    [initialize_matrix] calls of rank 0 draw.  The result lists, by rank,
    how each process ended and its final state.  A run in which some ranks
    returned and others wait at a collective has no result. *)
Definition main (env : nat → nat → option (nat → D)) (A0 B0 : list D)
    (argv : list string) (N : nat) : option (list (outcome * proc)) :=
  n ← parse_n argv;
  ss ← start_group env A0 B0 n N;
  if existsb is_abort ss then Some (after_abort <$> ss)
  else match mapM continuing ss with
       | Some g =>
           g ← pipeline n (Z.quot n (Z.of_nat N)) g;
           g ← on_each (main_finish n) g;
           Some (pair (Returned 0) <$> (g : list proc))
       | None => mapM stopped ss
       end.

(** The full result matrix as the coordinator holds it when the gather has
    completed (line 191), for a run that gets there. *)
Definition gathered_C (env : nat → nat → option (nat → D)) (A0 B0 : list D)
    (n : Z) (N : nat) : option (list D) :=
  ss ← start_group env A0 B0 n N;
  g ← mapM continuing ss;
  g ← pipeline n (Z.quot n (Z.of_nat N)) g;
  p0 ← g !! 0%nat;
  buffer (heap p0) (C p0).

(** *** Row ownership *)

(** The rows of A that rank [r] owns: [local_rows = n / N] rows from row
    [r * local_rows], as fixed by line 102 and the block order of the
    scatter at line 159 (block [r] starts at element [r * local_rows * n]). *)
Definition row_block (n N : Z) (r : Z) : list Z :=
  let local_rows := Z.quot n N in seqZ (r * local_rows) local_rows.

(** The rows [rows] of an [n]-column row-major matrix, in that order. *)
Definition rows_of (Amat : list D) (n : Z) (rows : list Z) : list D :=
  tabulate rows n (fun i j => elt Amat (i * n + j)).

(** The [n x n] identity matrix, given the [double] 1.0. *)
Definition identity (d1 : D) (n : Z) : list D :=
  tabulate (seqZ 0 n) n (fun i j => if decide (i = j) then d1 else d0).

(** [p'] has the rank and the pointer variables of [p]. *)
Definition same_locals (p p' : proc) : Prop :=
  world_rank p' = world_rank p ∧
  A p' = A p ∧ B p' = B p ∧ C p' = C p ∧
  A_local p' = A_local p ∧ B_local p' = B_local p ∧ C_local p' = C_local p.

(** [p'] has the locals of [p] and holds the same blocks, whatever their
    contents. *)
Definition kept (p p' : proc) : Prop :=
  same_locals p p' ∧ dom (heap p') = dom (heap p).

(** Rank by rank, [g'] has the locals and the blocks of [g]. *)
Definition group_kept (g g' : list proc) : Prop :=
  length g' = length g ∧
  ∀ r p', g' !! r = Some p' → ∃ p, g !! r = Some p ∧ kept p p'.

(** *** The shape of a running group

    [malloc] numbers the blocks of a process in call order, so in a run in
    which every allocation succeeds the three slices are the blocks 0, 1, 2
    of every rank and the full matrices the blocks 3, 4, 5 of rank 0. *)
Definition locals_ok (r : nat) (p : proc) : Prop :=
  world_rank p = Z.of_nat r ∧
  A_local p = Ptr 0 ∧ B_local p = Ptr 1 ∧ C_local p = Ptr 2 ∧
  (r = 0%nat → A p = Ptr 3 ∧ B p = Ptr 4 ∧ C p = Ptr 5).

(** The group [g] has [N] ranks, rank [r] with the heap [H r]. *)
Definition group_is (g : list proc) (N : nat) (H : nat → mem) : Prop :=
  length g = N ∧ ∀ r p, g !! r = Some p → locals_ok r p ∧ heap p = H r.

(** The blocks rank [r] holds between allocation and clean-up. *)
Definition blocks_of (r : nat) : gset nat :=
  if decide (r = 0%nat) then {[0; 1; 2; 3; 4; 5]}%nat else {[0; 1; 2]}%nat.

(** The heaps of a group that has completed lines 70-149 for the problem
    [(n, N)]: slices of [n / N] rows and a full-size B buffer on every
    rank, and on rank 0 the initialised A and B and a buffer for C. *)
Definition ready_heaps (n : Z) (N : nat) (A0 B0 : list D) (H : nat → mem) : Prop :=
  (∀ r, (r < N)%nat →
     dom (H r) = blocks_of r ∧
     ∃ la lb lc,
       H r !! 0%nat = Some la ∧ length la = Z.to_nat (Z.quot n (Z.of_nat N) * n) ∧
       H r !! 1%nat = Some lb ∧ length lb = Z.to_nat (n * n) ∧
       H r !! 2%nat = Some lc ∧ length lc = Z.to_nat (Z.quot n (Z.of_nat N) * n)) ∧
  H 0%nat !! 3%nat = Some A0 ∧
  H 0%nat !! 4%nat = Some B0 ∧
  ∃ lC, H 0%nat !! 5%nat = Some lC ∧ length lC = Z.to_nat (n * n).

(** An allocator that never returns NULL. *)
Definition never_null (env : nat → nat → option (nat → D)) : Prop :=
  ∀ r k, is_Some (env r k).

(** The heap of rank [r] when the pipeline of lines 151-191 has run from
    the heaps [H]. *)
Definition after_pipeline (n : Z) (N : nat) (A0 B0 : list D) (H : nat → mem)
    (r : nat) : mem :=
  let local_rows := Z.quot n (Z.of_nat N) in
  let slice := chunk (local_rows * n) r A0 in
  let h := <[2%nat := matmul slice B0 local_rows n]>
             (<[1%nat := B0]> (<[0%nat := slice]> (H r))) in
  if decide (r = 0%nat) then <[5%nat := matmul A0 B0 n n]> h else h.

(** *** Reading traces *)

(** The data-movement and synchronisation collectives. *)
Definition is_collective (e : event) : bool :=
  match e with
  | EvBarrier | EvScatter | EvBcast | EvGather | EvReduce => true
  | _ => false
  end.

Definition is_malloc (e : event) : bool :=
  match e with EvMalloc _ _ => true | _ => false end.

(** The diagnostic of lines 83-99 for a rejected [(n, N)]. *)
Definition rejection (n N : Z) : message :=
  if decide (n < N) then MsgSizeTooSmall n N else MsgNotDivisible n N.

(** Everything a process does when its configuration is rejected, in
    order: only rank 0 prints. *)
Definition rejected_trace (n N : Z) (r : nat) : list event :=
  [EvInit] ++ (if decide (r = 0%nat) then [EvPrint (rejection n N)] else [])
           ++ [EvFinalize].

(** The entries of [A] on which multiplying by 1.0 and adding a product
    by 0.0 behave as on finite numbers: [a * 1.0 = a],
    [0.0 + a * 0.0 = 0.0], and [(0.0 + x) + a * 0.0 = 0.0 + x] for every
    entry [x].  An infinity or a NaN is not of this kind. *)
Definition identity_laws (d1 : D) (Amat : list D) : Prop :=
  ∀ a, a ∈ Amat →
    dmul a d1 = a ∧
    dadd d0 (dmul a d0) = d0 ∧
    ∀ x, x ∈ Amat → dadd (dadd d0 x) (dmul a d0) = dadd d0 x.

(** *** Sending a slice back

    The gather of line 185 sends what [C_local] holds.  For a rank to
    send back the slice it has received, unmodified, the first [count]
    elements of [A_local] are copied to [C_local] where line 179 would
    have computed them. *)
Definition return_slice (count : Z) (p : proc) : option proc :=
  la ← read_buf p (A_local p) count;
  write_buf p (C_local p) la.

(** ** What a run shows

    The definitions below describe the observable behaviour of the program,
    for the theorems on [print_matrix], on the trace of a whole run and on
    the runs that end in [MPI_Abort]. *)

(** [log] for a list of events, the oldest first. *)
Definition log_all (tr : list event) (p : proc) : proc :=
  mkProc (heap p) (brk p) (rev tr ++ out p) (world_rank p) (A p) (B p) (C p)
         (A_local p) (B_local p) (C_local p).

(** [rows] lines of [cols] values each, the value in line [i], column [j]
    being element [i * cols + j] of the flat buffer [l]. *)
Definition matrix_rows (l : list D) (rows cols : Z) : list event :=
  i ← seqZ 0 rows;
  ((fun j => EvPrint (MsgValue (elt l (i * cols + j)))) <$> seqZ 0 cols)
    ++ [EvPrint MsgNewline].

(** The number of lines and of values per line [print_matrix] shows for a
    [rows x cols] matrix: all of them, or at most five when either
    dimension exceeds ten. *)
Definition shown (rows cols : Z) : Z * Z :=
  if bool_decide (10 < rows ∨ 10 < cols) then (Z.min rows 5, Z.min cols 5)
  else (rows, cols).

(** Everything [print_matrix(matrix, rows, cols, name)] prints when
    [matrix] holds [l]. *)
Definition matrix_text (name : string) (rows cols : Z) (l : list D) : list event :=
  EvPrint (MsgMatrixHeader name rows cols)
  :: (if bool_decide (10 < rows ∨ 10 < cols) then [EvPrint MsgTooLarge] else [])
  ++ matrix_rows l (shown rows cols).1 (shown rows cols).2.

(** The matrix entries among the events of a trace, in order. *)
Definition printed_values (tr : list event) : list D :=
  omap (fun e => match e with EvPrint (MsgValue v) => Some v | _ => None end) tr.

(** Events of rank 0 alone: [if (world_rank == 0) ...]. *)
Definition on_root (rank : Z) (evs : list event) : list event :=
  if decide (rank = 0) then evs else [].

(** Lines 128-149 on rank 0 when nothing fails: the three full matrices
    are blocks 3, 4 and 5, and A and B are printed when [n <= 10]. *)
Definition setup_trace (n : Z) (A0 B0 : list D) : list event :=
  [EvPrint MsgInitializing;
   EvMalloc (n * n) (Ptr 3); EvMalloc (n * n) (Ptr 4); EvMalloc (n * n) (Ptr 5)]
  ++ (if decide (n ≤ 10)
      then matrix_text "Matrix A" n n A0 ++ matrix_text "Matrix B" n n B0 else [])
  ++ [EvPrint MsgNewline].

(** Lines 70-149 when nothing fails. *)
Definition start_trace (n N : Z) (A0 B0 : list D) (rank : Z) : list event :=
  [EvInit]
  ++ on_root rank [EvPrint (MsgConfig n N (Z.quot n N) (n * n))]
  ++ [EvMalloc (Z.quot n N * n) (Ptr 0); EvMalloc (n * n) (Ptr 1);
      EvMalloc (Z.quot n N * n) (Ptr 2)]
  ++ on_root rank (setup_trace n A0 B0).

(** Lines 151-191. *)
Definition pipeline_trace (rank : Z) : list event :=
  [EvBarrier; EvWtime]
  ++ on_root rank [EvPrint MsgDistributing] ++ [EvScatter]
  ++ on_root rank [EvPrint MsgBroadcasting] ++ [EvBcast]
  ++ on_root rank [EvPrint MsgComputing]
  ++ on_root rank [EvPrint MsgGathering] ++ [EvGather; EvBarrier; EvWtime].

(** Lines 193-211, when rank 0 holds [Cmat] in C. *)
Definition report_trace (n : Z) (Cmat : list D) (rank : Z) : list event :=
  on_root rank ((if decide (n ≤ 10) then matrix_text "Result Matrix C" n n Cmat else [])
                ++ [EvPrint MsgNewline; EvPrint (MsgResults n)]).

(** Lines 213-226 for a process with the locals of [p]. *)
Definition cleanup_trace (p : proc) : list event :=
  [EvFree (A_local p); EvFree (B_local p); EvFree (C_local p)]
  ++ on_root (world_rank p) [EvFree (A p); EvFree (B p); EvFree (C p)]
  ++ [EvFinalize].

(** Everything rank [r] of [N] does, in order, in a run on the [n x n]
    matrices [A0] and [B0] that meets no failure. *)
Definition run_trace (n : Z) (N : nat) (A0 B0 : list D) (r : nat) : list event :=
  start_trace n (Z.of_nat N) A0 B0 (Z.of_nat r)
  ++ pipeline_trace (Z.of_nat r)
  ++ report_trace n (matmul A0 B0 n n) (Z.of_nat r)
  ++ [EvFree (Ptr 0); EvFree (Ptr 1); EvFree (Ptr 2)]
  ++ on_root (Z.of_nat r) [EvFree (Ptr 3); EvFree (Ptr 4); EvFree (Ptr 5)]
  ++ [EvFinalize].

(** [p'] is [p] after the events [evs], the oldest first. *)
Definition emits (evs : list event) (p p' : proc) : Prop :=
  world_rank p' = world_rank p ∧ out p' = rev evs ++ out p.

(** Rank by rank, [g'] is [g] after the events [tr rank]. *)
Definition group_emits (tr : Z → list event) (g g' : list proc) : Prop :=
  length g' = length g ∧
  ∀ r p', g' !! r = Some p' → ∃ p, g !! r = Some p ∧ emits (tr (world_rank p)) p p'.

(** The blocks a trace shows [malloc] to have returned. *)
Definition allocated (tr : list event) : gset nat :=
  list_to_set (omap (fun e => match e with
                              | EvMalloc _ (Ptr b) => Some b
                              | _ => None
                              end) tr).

(** The notice of line 37, printed when a matrix is shown in part. *)
Definition is_notice (e : event) : bool :=
  match e with EvPrint MsgTooLarge => true | _ => false end.

(** The events of lines 70-149 short of [MPI_Finalize]: what a process can
    have done before the first barrier.  The matrices printed there have
    [n <= 10], so the notice of line 37 is not among them. *)
Definition is_startup (e : event) : bool :=
  match e with
  | EvInit | EvMalloc _ _ | EvAbort _ => true
  | EvPrint _ => negb (is_notice e)
  | _ => false
  end.

Definition is_print (e : event) : bool :=
  match e with EvPrint _ => true | _ => false end.

(** The state of a process in a [progress]. *)
Definition proc_of (s : progress) : proc :=
  match s with Stop _ p | Continue p => p end.

(** A process that has not got past line 149 and has not finalized: it
    holds exactly the blocks [malloc] has given it, and has done nothing
    but start up, print, allocate and possibly abort. *)
Definition at_startup (p : proc) : Prop :=
  live p = allocated (out p) ∧ Forall (fun e => is_startup e = true) (out p).

(** The allocator calls a run of [N] ranks on a valid problem makes: the
    calls 0, 1 and 2 of every rank (lines 119-121) and the calls 3, 4 and
    5 of rank 0 (lines 131-133). *)
Definition needed (N r k : nat) : Prop :=
  (r < N)%nat ∧ ((k < 3)%nat ∨ (r = 0%nat ∧ (k < 6)%nat)).
(** ** Loops *)

Lemma for_iter_total {S : Type} (P : Z → S → Prop) (body : Z → S → option S)
    (k : nat) (i : Z) (s : S) :
  P i s →
  (∀ i' s1, i ≤ i' < i + Z.of_nat k → P i' s1 →
     ∃ s2, body i' s1 = Some s2 ∧ P (i' + 1) s2) →
  ∃ s', for_iter k i body s = Some s' ∧ P (i + Z.of_nat k) s'.
Proof.
  revert i s. induction k as [|k IH]; intros i s Hs Hstep.
  - exists s. simpl. rewrite Z.add_0_r. done.
  - destruct (Hstep i s) as (s2 & Hb & Hs2); [lia | done |].
    destruct (IH (i + 1) s2) as (s' & Hrun & Hs'); [done | |].
    + intros i' s1 Hi'. apply Hstep. lia.
    + exists s'. simpl. rewrite Hb. simpl. split; [done|].
      replace (i + Z.of_nat (Datatypes.S k)) with (i + 1 + Z.of_nat k) by lia. done.
Qed.

Lemma for_loop_total {S : Type} (P : Z → S → Prop) (body : Z → S → option S)
    (lo hi : Z) (s : S) :
  lo ≤ hi →
  P lo s →
  (∀ i s1, lo ≤ i < hi → P i s1 → ∃ s2, body i s1 = Some s2 ∧ P (i + 1) s2) →
  ∃ s', for_loop lo hi body s = Some s' ∧ P hi s'.
Proof.
  intros Hle Hs Hstep. unfold for_loop.
  destruct (for_iter_total P body (Z.to_nat (hi - lo)) lo s) as (s' & Hrun & Hs');
    [done | |].
  - intros i s1 Hi. apply Hstep. lia.
  - exists s'. split; [done|].
    assert (hi = lo + Z.of_nat (Z.to_nat (hi - lo))) as Heq by lia.
    rewrite Heq. done.
Qed.

Lemma for_iter_partial {S : Type} (P : S → Prop) (body : Z → S → option S)
    (k : nat) (i : Z) (s s' : S) :
  P s →
  (∀ i' s1 s2, i ≤ i' < i + Z.of_nat k → P s1 → body i' s1 = Some s2 → P s2) →
  for_iter k i body s = Some s' → P s'.
Proof.
  revert i s. induction k as [|k IH]; intros i s Hs Hstep; simpl.
  - congruence.
  - destruct (body i s) as [s1|] eqn:Hb; simpl; [|done].
    apply (IH (i + 1) s1).
    + apply (Hstep i s s1); [lia | done | done].
    + intros i' s2 s3 Hi'. apply Hstep. lia.
Qed.

Lemma for_loop_partial {S : Type} (P : S → Prop) (body : Z → S → option S)
    (lo hi : Z) (s s' : S) :
  P s →
  (∀ i s1 s2, lo ≤ i < hi → P s1 → body i s1 = Some s2 → P s2) →
  for_loop lo hi body s = Some s' → P s'.
Proof.
  intros Hs Hstep. unfold for_loop. apply for_iter_partial; [done|].
  intros i s1 s2 Hi. apply Hstep. lia.
Qed.

(** A loop whose body is undefined at some reachable index is undefined. *)
Lemma for_iter_undefined {S : Type} (body : Z → S → option S) (k : nat) (i j : Z) (s : S) :
  i ≤ j < i + Z.of_nat k → (∀ s1, body j s1 = None) → for_iter k i body s = None.
Proof.
  revert i s. induction k as [|k IH]; intros i s Hj Hnone; simpl; [lia|].
  destruct (decide (i = j)) as [->|Hne]; [by rewrite Hnone|].
  destruct (body i s) as [s1|]; simpl; [|done].
  apply IH; [lia | done].
Qed.

(** ** Checked [int] arithmetic *)

Lemma int_chk_Some (z r : Z) : int_chk z = Some r → r = z ∧ INT_MIN ≤ z ≤ INT_MAX.
Proof.
  unfold int_chk, in_int. destruct (andb _ _) eqn:E; [|done].
  intros [= <-]. apply andb_prop in E. lia.
Qed.

Lemma int_chk_in (z : Z) : INT_MIN ≤ z ≤ INT_MAX → int_chk z = Some z.
Proof.
  intros H. unfold int_chk, in_int.
  replace (INT_MIN <=? z) with true by (symmetry; apply Z.leb_le; lia).
  replace (z <=? INT_MAX) with true by (symmetry; apply Z.leb_le; lia). done.
Qed.

Lemma idx_Some (i n j r : Z) : idx i n j = Some r → r = i * n + j.
Proof.
  unfold idx, int_mul, int_add. destruct (int_chk (i * n)) as [m|] eqn:E; simpl; [|done].
  apply int_chk_Some in E as [-> _]. intros H. by apply int_chk_Some in H as [-> _].
Qed.

Lemma idx_in (i n j : Z) :
  0 ≤ i * n ≤ INT_MAX → 0 ≤ i * n + j ≤ INT_MAX → idx i n j = Some (i * n + j).
Proof.
  intros H1 H2. unfold idx, int_mul, int_add.
  rewrite int_chk_in by (unfold INT_MIN; lia). simpl.
  apply int_chk_in. unfold INT_MIN; lia.
Qed.

(** ** Loads and stores *)

Arguments store : simpl never.
Arguments load : simpl never.
Arguments idx : simpl never.

Lemma store_Some (h h' : mem) (q : ptr) (i : Z) (v : D) :
  store h q i v = Some h' →
  ∃ b l, q = Ptr b ∧ h !! b = Some l ∧ 0 ≤ i < Z.of_nat (length l) ∧
         h' = <[b := <[Z.to_nat i := v]> l]> h.
Proof.
  unfold store. destruct q as [|b]; [done|].
  destruct (h !! b) as [l|] eqn:Hl; simpl; [|done].
  case_decide; [|done]. intros [= <-]. by exists b, l.
Qed.

Lemma store_in (h : mem) (b : nat) (l : list D) (i : Z) (v : D) :
  h !! b = Some l → 0 ≤ i < Z.of_nat (length l) →
  store h (Ptr b) i v = Some (<[b := <[Z.to_nat i := v]> l]> h).
Proof. intros Hl Hi. unfold store. rewrite Hl. simpl. by rewrite decide_True. Qed.

Lemma load_in (h : mem) (b : nat) (l : list D) (i : Z) :
  h !! b = Some l → 0 ≤ i → load h (Ptr b) i = l !! Z.to_nat i.
Proof. intros Hl Hi. unfold load. rewrite decide_True by done. simpl. by rewrite Hl. Qed.

Lemma load_insert_eq (h : mem) (b : nat) (l : list D) (i : Z) :
  0 ≤ i → load (<[b := l]> h) (Ptr b) i = l !! Z.to_nat i.
Proof. intros Hi. apply load_in; [apply lookup_insert_eq|done]. Qed.

Lemma load_insert_ne (h : mem) (b b' : nat) (l l' : list D) (i : Z) :
  b ≠ b' → h !! b' = Some l' → 0 ≤ i →
  load (<[b := l]> h) (Ptr b') i = l' !! Z.to_nat i.
Proof. intros Hne Hl Hi. apply load_in; [by rewrite lookup_insert_ne|done]. Qed.

Lemma elt_lookup (l : list D) (i : Z) (x : D) : l !! Z.to_nat i = Some x → elt l i = x.
Proof. intros H. unfold elt. by apply nth_lookup_Some. Qed.

Lemma lookup_elt (l : list D) (i : Z) :
  0 ≤ i < Z.of_nat (length l) → l !! Z.to_nat i = Some (elt l i).
Proof.
  intros H. unfold elt. destruct (nth_lookup_or_length l (Z.to_nat i) d0) as [E|E]; [done|lia].
Qed.

(** ** The frame of a store and of the kernel *)

Lemma unchanged_refl (q : ptr) (m : Z) (h : mem) : unchanged_outside q m h h.
Proof. by repeat split. Qed.

Lemma unchanged_trans (q : ptr) (m : Z) (h1 h2 h3 : mem) :
  unchanged_outside q m h1 h2 → unchanged_outside q m h2 h3 →
  unchanged_outside q m h1 h3.
Proof.
  intros (Ha & Hb & Hc) (Ha' & Hb' & Hc'). repeat split.
  - intros b Hb0. rewrite Ha' by done. by apply Ha.
  - intros i Hi. rewrite Hb' by done. by apply Hb.
  - intros b. by rewrite Hc'.
Qed.

Lemma store_unchanged (q : ptr) (m : Z) (h h' : mem) (i : Z) (v : D) :
  0 ≤ i < m → store h q i v = Some h' → unchanged_outside q m h h'.
Proof.
  intros Hi Hst. apply store_Some in Hst as (b & l & -> & Hl & Hil & ->).
  repeat split.
  - intros b' Hb'. apply lookup_insert_ne. congruence.
  - intros i' Hi'. unfold load. case_decide; [|done]. simpl.
    rewrite lookup_insert_eq, Hl. simpl. apply list_lookup_insert_ne. lia.
  - intros b'. destruct (decide (b = b')) as [<-|Hne].
    + rewrite lookup_insert_eq, Hl. simpl. by rewrite length_insert.
    + by rewrite lookup_insert_ne.
Qed.

Lemma mm_k_body_unchanged (pa pb pc : ptr) (local_rows n i j k : Z) (h h' : mem) :
  0 ≤ i < local_rows → 0 ≤ j < n →
  mm_k_body pa pb pc n i j k h = Some h' → unchanged_outside pc (local_rows * n) h h'.
Proof.
  intros Hi Hj. unfold mm_k_body. intros H.
  destruct (idx i n j) as [ij|] eqn:Hij; simpl in H; [|done].
  apply idx_Some in Hij as ->.
  destruct (idx i n k); simpl in H; [|done].
  destruct (idx k n j); simpl in H; [|done].
  destruct (load h pc _); simpl in H; [|done].
  destruct (load h pa _); simpl in H; [|done].
  destruct (load h pb _); simpl in H; [|done].
  eapply store_unchanged; [|done]. nia.
Qed.

Lemma mm_j_body_unchanged (pa pb pc : ptr) (local_rows n i j : Z) (h h' : mem) :
  0 ≤ i < local_rows → 0 ≤ j < n →
  mm_j_body pa pb pc n i j h = Some h' → unchanged_outside pc (local_rows * n) h h'.
Proof.
  intros Hi Hj. unfold mm_j_body. intros H.
  destruct (idx i n j) as [ij|] eqn:Hij; simpl in H; [|done].
  apply idx_Some in Hij as ->.
  destruct (store h pc _ d0) as [h1|] eqn:Hst; simpl in H; [|done].
  apply (unchanged_trans _ _ _ h1); [eapply store_unchanged; [|done]; nia|].
  revert H. apply for_loop_partial; [apply unchanged_refl|].
  intros k s1 s2 _ Hs1 Hb. apply (unchanged_trans _ _ _ s1); [done|].
  by eapply mm_k_body_unchanged.
Qed.

Lemma multiply_matrices_unchanged (pa pb pc : ptr) (local_rows n : Z) (h h' : mem) :
  multiply_matrices pa pb pc local_rows n h = Some h' →
  unchanged_outside pc (local_rows * n) h h'.
Proof.
  unfold multiply_matrices. apply for_loop_partial; [apply unchanged_refl|].
  intros i s1 s2 Hi Hs1 Hb. apply (unchanged_trans _ _ _ s1); [done|].
  revert Hb. unfold mm_i_body. apply for_loop_partial; [apply unchanged_refl|].
  intros j t1 t2 Hj Ht1 Hb. apply (unchanged_trans _ _ _ t1); [done|].
  by eapply mm_j_body_unchanged.
Qed.

(** The kernel creates and releases no block. *)
Lemma multiply_matrices_dom (pa pb pc : ptr) (local_rows n : Z) (h h' : mem) :
  multiply_matrices pa pb pc local_rows n h = Some h' → dom h' = dom h.
Proof.
  intros H. apply multiply_matrices_unchanged in H as (_ & _ & Hc).
  apply set_eq. intros b. rewrite !elem_of_dom.
  specialize (Hc b). destruct (h' !! b), (h !! b); simpl in Hc; try done;
    split; intros [? ?]; done.
Qed.

(** C7 (as the code has it): when it returns, the kernel has left every
    block other than the one [C_local] points to untouched, so the
    buffers [A_local] and [B] when they are not that block, and in that
    block it has modified nothing outside the first [local_rows * n]
    elements; no block is created, released or resized. *)
Theorem multiply_matrices_frame (pa pb pc : ptr) (local_rows n : Z) (h h' : mem) :
  multiply_matrices pa pb pc local_rows n h = Some h' →
  (pa ≠ pc → buffer h' pa = buffer h pa) ∧
  (pb ≠ pc → buffer h' pb = buffer h pb) ∧
  (∀ q, q ≠ pc → buffer h' q = buffer h q) ∧
  (∀ i, ¬ (0 ≤ i < local_rows * n) → load h' pc i = load h pc i) ∧
  (∀ q, length <$> buffer h' q = length <$> buffer h q) ∧
  dom h' = dom h.
Proof.
  intros H. apply multiply_matrices_unchanged in H as (Ha & Hb & Hc).
  assert (∀ q, q ≠ pc → buffer h' q = buffer h q) as Hq.
  { intros [|b] Hne; [done|]. simpl. by apply Ha. }
  repeat split; auto.
  - intros [|b]; [done|]. apply Hc.
  - apply set_eq. intros b. rewrite !elem_of_dom.
    specialize (Hc b). destruct (h' !! b), (h !! b); simpl in Hc; try done;
      split; intros [? ?]; done.
Qed.

(** ** Row-major tables *)

Lemma bind_singleton_fmap {X Y : Type} (f : X → Y) (l : list X) :
  (x ← l; [f x]) = f <$> l.
Proof. induction l as [|x l IH]; [done|]. rewrite bind_cons, IH. done. Qed.

Lemma length_tabulate (rows : list Z) (n : Z) (f : Z → Z → D) :
  length (tabulate rows n f) = (length rows * Z.to_nat n)%nat.
Proof.
  unfold tabulate. induction rows as [|i rows IH]; [done|].
  rewrite bind_cons, length_app, IH, bind_singleton_fmap, length_fmap, length_seqZ.
  simpl. lia.
Qed.

Lemma lookup_tabulate (rows : list Z) (n : Z) (f : Z → Z → D) (k : nat) (i j : Z) :
  rows !! k = Some i → 0 ≤ j < n →
  tabulate rows n f !! (k * Z.to_nat n + Z.to_nat j)%nat = Some (f i j).
Proof.
  unfold tabulate. revert k. induction rows as [|i0 rows IH]; intros k Hk Hj; [done|].
  rewrite bind_cons, bind_singleton_fmap. destruct k as [|k]; simpl in Hk.
  - injection Hk as ->. rewrite lookup_app_l by (rewrite length_fmap, length_seqZ; lia).
    simpl. rewrite list_lookup_fmap, lookup_seqZ_lt by lia. simpl. f_equal. f_equal. lia.
  - rewrite lookup_app_r by (rewrite length_fmap, length_seqZ; lia).
    rewrite length_fmap, length_seqZ.
    replace (Datatypes.S k * Z.to_nat n + Z.to_nat j - Z.to_nat n)%nat
      with (k * Z.to_nat n + Z.to_nat j)%nat by lia.
    by apply IH.
Qed.

Lemma lookup_tabulate_seqZ (rows n : Z) (f : Z → Z → D) (i j : Z) :
  0 ≤ i < rows → 0 ≤ j < n →
  tabulate (seqZ 0 rows) n f !! Z.to_nat (i * n + j) = Some (f i j).
Proof.
  intros Hi Hj.
  replace (Z.to_nat (i * n + j)) with (Z.to_nat i * Z.to_nat n + Z.to_nat j)%nat by nia.
  apply lookup_tabulate; [|done]. rewrite lookup_seqZ_lt by lia. f_equal. lia.
Qed.

(** A list of [rows * n] elements is the table of its cells. *)
Lemma tabulate_ext (l : list D) (rows n : Z) (f : Z → Z → D) :
  0 ≤ rows → 0 ≤ n →
  length l = Z.to_nat (rows * n) →
  (∀ i j, 0 ≤ i < rows → 0 ≤ j < n → l !! Z.to_nat (i * n + j) = Some (f i j)) →
  l = tabulate (seqZ 0 rows) n f.
Proof.
  intros Hrows Hn Hlen Hcell. apply list_eq. intros t.
  destruct (decide (t < length l)%nat) as [Hlt|Hge].
  - assert (0 < n) as Hn0 by nia.
    pose proof (Z.div_mod (Z.of_nat t) n ltac:(lia)) as Hdm.
    pose proof (Z.mod_pos_bound (Z.of_nat t) n Hn0) as Hmod.
    assert (0 ≤ Z.of_nat t / n < rows) as Hdiv.
    { split; [apply Z.div_pos; lia|]. apply Z.div_lt_upper_bound; nia. }
    replace t with (Z.to_nat (Z.of_nat t / n * n + Z.of_nat t mod n)) by lia.
    rewrite Hcell, lookup_tabulate_seqZ by done. done.
  - rewrite !lookup_ge_None_2; [done| |lia].
    rewrite length_tabulate, length_seqZ. nia.
Qed.

(** ** The kernel computes the naive sums *)

Lemma dot_prefix_0 (la lb : list D) (n i j : Z) : dot_prefix la lb n i j 0 = d0.
Proof. done. Qed.

Lemma dot_prefix_succ (la lb : list D) (n i j k : Z) :
  0 ≤ k →
  dot_prefix la lb n i j (k + 1)
  = dadd (dot_prefix la lb n i j k) (dmul (elt la (i * n + k)) (elt lb (k * n + j))).
Proof.
  intros Hk. unfold dot_prefix. rewrite seqZ_app by lia.
  rewrite fold_left_app. simpl. by rewrite Z.add_0_l.
Qed.

Section Kernel.
Variables (a b c : nat) (la lb : list D) (local_rows n : Z).
Hypothesis Hca : c ≠ a.
Hypothesis Hcb : c ≠ b.
Hypothesis Hrows : 0 ≤ local_rows.
Hypothesis Hn : 0 ≤ n.
Hypothesis Hint_rows : local_rows * n ≤ INT_MAX.
Hypothesis Hint_n : n * n ≤ INT_MAX.
Hypothesis Hla : local_rows * n ≤ Z.of_nat (length la).
Hypothesis Hlb : n * n ≤ Z.of_nat (length lb).

Lemma mm_j_body_exact (h : mem) (lc : list D) (i j : Z) :
  h !! a = Some la → h !! b = Some lb → h !! c = Some lc →
  local_rows * n ≤ Z.of_nat (length lc) →
  0 ≤ i < local_rows → 0 ≤ j < n →
  mm_j_body (Ptr a) (Ptr b) (Ptr c) n i j h
  = Some (<[c := <[Z.to_nat (i * n + j) := dot_naive la lb n i j]> lc]> h).
Proof.
  intros Ha Hb Hc Hlc Hi Hj. unfold mm_j_body.
  assert (0 ≤ i * n + j < local_rows * n) as Hij by nia.
  rewrite (idx_in i n j) by nia. simpl.
  rewrite (store_in h c lc) by (done || lia). simpl.
  set (ij := Z.to_nat (i * n + j)).
  destruct (for_loop_total
    (fun k h' => h' = <[c := <[ij := dot_prefix la lb n i j k]> lc]> h)
    (mm_k_body (Ptr a) (Ptr b) (Ptr c) n i j) 0 n
    (<[c := <[ij := d0]> lc]> h)) as (h' & Hrun & Hh'); [done|done| |by rewrite Hrun, Hh'].
  intros k s1 Hk ->. eexists. split; [|reflexivity].
  unfold mm_k_body.
  rewrite (idx_in i n j) by nia. simpl.
  rewrite (idx_in i n k) by nia. simpl.
  rewrite (idx_in k n j) by nia. simpl.
  rewrite load_insert_eq by lia.
  fold ij. rewrite list_lookup_insert_eq by lia. simpl.
  rewrite (load_insert_ne h c a _ la) by (done || nia).
  rewrite lookup_elt by nia. simpl.
  rewrite (load_insert_ne h c b _ lb) by (done || nia).
  rewrite lookup_elt by nia. simpl.
  erewrite store_in; [|apply lookup_insert_eq|rewrite length_insert; lia].
  fold ij. rewrite insert_insert_eq, list_insert_insert_eq.
  by rewrite dot_prefix_succ by lia.
Qed.

Lemma mm_j_body_step (h : mem) (lc : list D) (i j : Z) (h1 : mem) :
  h !! a = Some la → h !! b = Some lb →
  local_rows * n ≤ Z.of_nat (length lc) →
  0 ≤ i < local_rows → 0 ≤ j < n →
  cells_done c la lb n h lc (i * n + j) h1 →
  ∃ h2, mm_j_body (Ptr a) (Ptr b) (Ptr c) n i j h1 = Some h2 ∧
        cells_done c la lb n h lc (i * n + (j + 1)) h2.
Proof.
  intros Ha Hb Hlc Hi Hj (Hother & lc' & Hc' & Hlen & Hdone & Hrest).
  eexists. split.
  - apply (mm_j_body_exact h1 lc'); try done.
    + by rewrite Hother.
    + by rewrite Hother.
    + lia.
  - split; [intros b' Hb'; by rewrite lookup_insert_ne, Hother by done|].
    eexists. split; [apply lookup_insert_eq|].
    split; [by rewrite length_insert|]. split.
    + intros i' j' Hi' Hj' Hlt.
      destruct (decide (i' * n + j' = i * n + j)) as [Heq|Hne].
      * assert (i' = i) as -> by nia. assert (j' = j) as -> by lia.
        apply list_lookup_insert_eq. nia.
      * rewrite list_lookup_insert_ne by nia. apply Hdone; [done|done|lia].
    + intros t Ht. rewrite list_lookup_insert_ne by nia. apply Hrest. lia.
Qed.

Lemma multiply_matrices_cells (h : mem) (lc : list D) :
  h !! a = Some la → h !! b = Some lb → h !! c = Some lc →
  local_rows * n ≤ Z.of_nat (length lc) →
  ∃ h', multiply_matrices (Ptr a) (Ptr b) (Ptr c) local_rows n h = Some h' ∧
        cells_done c la lb n h lc (local_rows * n) h'.
Proof.
  intros Ha Hb Hc Hlc. unfold multiply_matrices.
  apply (for_loop_total (fun i h' => cells_done c la lb n h lc (i * n) h')); [done| |].
  - split; [done|]. exists lc. split; [done|]. split; [done|]. split; [intros; lia|done].
  - intros i h1 Hi Hinv. unfold mm_i_body.
    destruct (for_loop_total (fun j h' => cells_done c la lb n h lc (i * n + j) h')
                (mm_j_body (Ptr a) (Ptr b) (Ptr c) n i) 0 n h1)
      as (h2 & Hrun & Hh2); [done|by rewrite Z.add_0_r| |].
    + intros j s1 Hj Hs1. by apply mm_j_body_step.
    + exists h2. split; [done|]. by replace ((i + 1) * n) with (i * n + n) by lia.
Qed.

Lemma multiply_matrices_exact (h : mem) (lc : list D) :
  h !! a = Some la → h !! b = Some lb → h !! c = Some lc →
  local_rows * n ≤ Z.of_nat (length lc) →
  multiply_matrices (Ptr a) (Ptr b) (Ptr c) local_rows n h
  = Some (<[c := matmul la lb local_rows n ++ drop (Z.to_nat (local_rows * n)) lc]> h).
Proof.
  intros Ha Hb Hc Hlc.
  destruct (multiply_matrices_cells h lc) as (h' & -> & Hother & lc' & Hc' & Hlen & Hdone & Hrest);
    try done.
  f_equal. apply map_eq. intros b'. destruct (decide (b' = c)) as [->|Hne].
  - rewrite lookup_insert_eq, Hc'. f_equal.
    rewrite <- (take_drop (Z.to_nat (local_rows * n)) lc'). f_equal.
    + apply tabulate_ext; [done|done|rewrite length_take; lia|].
      intros i j Hi Hj. rewrite lookup_take_lt by nia. apply Hdone; [lia|done|nia].
    + apply list_eq. intros t. rewrite !lookup_drop.
      replace (Z.to_nat (local_rows * n) + t)%nat
        with (Z.to_nat (local_rows * n + Z.of_nat t)) by nia.
      apply Hrest. lia.
  - rewrite lookup_insert_ne by done. by apply Hother.
Qed.

End Kernel.

(** C2 (as the code has it): on a [local_rows x n] slice and a full
    [n x n] matrix held in blocks other than the output block, the kernel
    returns, and afterwards
    [C_local[i*n+j]] is the sum [Σ_k A_local[i*n+k] * B[k*n+j]] of the
    values the two inputs had on entry, accumulated from 0.0 in increasing
    [k].  The sizes are C ints, so [local_rows * n] and [n * n] are within
    [INT_MAX]. *)
Theorem multiply_matrices_correct (pa pb pc : ptr) (local_rows n : Z)
    (h : mem) (la lb lc : list D) :
  0 ≤ local_rows → 0 ≤ n →
  local_rows * n ≤ INT_MAX → n * n ≤ INT_MAX →
  buffer h pa = Some la → length la = Z.to_nat (local_rows * n) →
  buffer h pb = Some lb → length lb = Z.to_nat (n * n) →
  buffer h pc = Some lc → length lc = Z.to_nat (local_rows * n) →
  pa ≠ pc → pb ≠ pc →
  ∃ h', multiply_matrices pa pb pc local_rows n h = Some h' ∧
        ∀ i j, 0 ≤ i < local_rows → 0 ≤ j < n →
          load h' pc (i * n + j)
          = Some (fold_left (fun acc k => dadd acc (dmul (elt la (i * n + k))
                                                         (elt lb (k * n + j))))
                            (seqZ 0 n) d0).
Proof.
  intros Hrows Hn Hir Hin Ha Hla Hb Hlb Hc Hlc Hac Hbc.
  destruct pa as [|a]; [done|]. destruct pb as [|b]; [done|]. destruct pc as [|c]; [done|].
  simpl in Ha, Hb, Hc. eexists. split.
  - apply (multiply_matrices_exact a b c la lb local_rows n); try done; try lia; congruence.
  - intros i j Hi Hj. erewrite load_in; [|apply lookup_insert_eq|nia].
    rewrite lookup_app_l by (unfold matmul; rewrite length_tabulate, length_seqZ; nia).
    unfold matmul. by rewrite lookup_tabulate_seqZ.
Qed.

(** ** Lists *)

Lemma mapM_indexed {X Y : Type} (f : X → option Y) (Q : nat → X → Y → Prop)
    (l : list X) :
  (∀ i x, l !! i = Some x → ∃ y, f x = Some y ∧ Q i x y) →
  ∃ k, mapM f l = Some k ∧ length k = length l ∧
       ∀ i x, l !! i = Some x → ∃ y, k !! i = Some y ∧ Q i x y.
Proof.
  revert Q. induction l as [|x l IH]; intros Q HQ.
  - exists []. by repeat split.
  - destruct (HQ 0%nat x eq_refl) as (y & Hy & HQy).
    destruct (IH (fun i => Q (Datatypes.S i))) as (k & Hk & Hlen & Hall).
    { intros i x' Hi. by apply (HQ (Datatypes.S i)). }
    exists (y :: k). simpl. rewrite Hy. simpl. rewrite Hk. simpl.
    split; [done|]. split; [by rewrite Hlen|].
    intros [|i] x' Hi; simpl in *.
    + injection Hi as <-. by exists y.
    + by apply Hall.
Qed.

Lemma elt_seqZ_id (l : list D) (m : Z) :
  0 ≤ m → length l = Z.to_nat m → elt l <$> seqZ 0 m = l.
Proof.
  intros Hm Hlen. apply list_eq. intros t. rewrite list_lookup_fmap.
  destruct (decide (t < length l)%nat) as [Hlt|Hge].
  - rewrite lookup_seqZ_lt by lia. simpl. rewrite Z.add_0_l.
    rewrite <- (Nat2Z.id t) at 2. rewrite lookup_elt by lia. done.
  - rewrite lookup_seqZ_ge by lia. simpl. symmetry. apply lookup_ge_None_2. lia.
Qed.

Lemma fill_step (f : Z → D) (i : Z) (l : list D) :
  0 ≤ i < Z.of_nat (length l) →
  <[Z.to_nat i := f i]> ((f <$> seqZ 0 i) ++ drop (Z.to_nat i) l)
  = (f <$> seqZ 0 (i + 1)) ++ drop (Z.to_nat (i + 1)) l.
Proof.
  intros Hi. rewrite seqZ_app by lia. rewrite fmap_app, <- app_assoc.
  assert (length (f <$> seqZ 0 i) = Z.to_nat i) as Hlen
    by (by rewrite length_fmap, length_seqZ).
  rewrite insert_app_r_alt by lia. rewrite Hlen, Nat.sub_diag.
  destruct (lookup_lt_is_Some_2 l (Z.to_nat i)) as [x Hx]; [lia|].
  rewrite (drop_S l x (Z.to_nat i)) by done. simpl.
  replace (Z.to_nat (i + 1)) with (Datatypes.S (Z.to_nat i)) by lia.
  by rewrite Z.add_0_l.
Qed.

(** A loop that stores [f i] at [q[i]] for [i = 0 .. m-1]. *)
Lemma fill_loop (body : Z → mem → option mem) (b : nat) (l : list D) (m : Z)
    (f : Z → D) (h : mem) :
  h !! b = Some l → 0 ≤ m ≤ Z.of_nat (length l) →
  (∀ i l', 0 ≤ i < m → length l' = length l →
     body i (<[b := l']> h) = store (<[b := l']> h) (Ptr b) i (f i)) →
  for_loop 0 m body h
  = Some (<[b := (f <$> seqZ 0 m) ++ drop (Z.to_nat m) l]> h).
Proof.
  intros Hl Hm Hbody.
  destruct (for_loop_total
    (fun i h' => h' = <[b := (f <$> seqZ 0 i) ++ drop (Z.to_nat i) l]> h)
    body 0 m h) as (h' & Hrun & ->); [lia| | |done].
  - simpl. by rewrite insert_id.
  - intros i s1 Hi ->. eexists. split; [|reflexivity].
    assert (length ((f <$> seqZ 0 i) ++ drop (Z.to_nat i) l) = length l) as Hlen.
    { rewrite length_app, length_fmap, length_seqZ, length_drop. lia. }
    rewrite Hbody by done.
    erewrite store_in; [|apply lookup_insert_eq|lia].
    by rewrite insert_insert_eq, fill_step by lia.
Qed.

(** ** One process *)

Lemma same_locals_refl (p : proc) : same_locals p p.
Proof. by repeat split. Qed.

Lemma locals_ok_same (r : nat) (p p' : proc) :
  same_locals p p' → locals_ok r p → locals_ok r p'.
Proof.
  intros (H1 & H2 & H3 & H4 & H5 & H6 & H7) (L1 & L2 & L3 & L4 & L5).
  unfold locals_ok. rewrite H1, H2, H3, H4, H5, H6, H7. done.
Qed.

Lemma locals_ok_log (r : nat) (e : event) (p : proc) : locals_ok r p → locals_ok r (log e p).
Proof. done. Qed.

Lemma locals_ok_say0 (r : nat) (m : message) (p : proc) :
  locals_ok r p → locals_ok r (say0 m p).
Proof. unfold say0. by case_decide. Qed.

Lemma heap_say0 (m : message) (p : proc) : heap (say0 m p) = heap p.
Proof. unfold say0. by case_decide. Qed.

Lemma locals_ok_set_heap (r : nat) (h : mem) (p : proc) :
  locals_ok r p → locals_ok r (set_heap h p).
Proof. done. Qed.

Lemma write_buf_in (p : proc) (b : nat) (l vals : list D) :
  heap p !! b = Some l → (length vals ≤ length l)%nat →
  write_buf p (Ptr b) vals
  = Some (set_heap (<[b := vals ++ drop (length vals) l]> (heap p)) p).
Proof. intros Hl Hlen. unfold write_buf. rewrite Hl. simpl. by rewrite decide_True. Qed.

Lemma write_buf_whole (p : proc) (b : nat) (l vals : list D) :
  heap p !! b = Some l → length vals = length l →
  write_buf p (Ptr b) vals = Some (set_heap (<[b := vals]> (heap p)) p).
Proof.
  intros Hl Hlen. rewrite (write_buf_in p b l) by (done || lia).
  by rewrite Hlen, drop_all, app_nil_r.
Qed.

Lemma read_buf_in (p : proc) (b : nat) (l : list D) (count : Z) :
  heap p !! b = Some l → 0 ≤ count ≤ Z.of_nat (length l) →
  read_buf p (Ptr b) count = Some (take (Z.to_nat count) l).
Proof. intros Hl Hc. unfold read_buf. simpl. rewrite Hl. simpl. by rewrite decide_True. Qed.

Lemma read_buf_whole (p : proc) (b : nat) (l : list D) (count : Z) :
  heap p !! b = Some l → length l = Z.to_nat count → 0 ≤ count →
  read_buf p (Ptr b) count = Some l.
Proof.
  intros Hl Hlen Hc. rewrite (read_buf_in p b l) by (done || lia).
  rewrite take_ge by lia. done.
Qed.

(** ** Groups *)

Lemma group_is_fmap (f : proc → proc) (g : list proc) (N : nat) (H : nat → mem) :
  (∀ r p, locals_ok r p → locals_ok r (f p)) → (∀ p, heap (f p) = heap p) →
  group_is g N H → group_is (f <$> g) N H.
Proof.
  intros Hloc Hheap (Hlen & Hall). split; [by rewrite length_fmap|].
  intros r p'. rewrite list_lookup_fmap.
  destruct (g !! r) as [p|] eqn:Hp; simpl; [|done]. intros [= <-].
  destruct (Hall r p Hp) as (Hl & Hh). split; [by apply Hloc|]. by rewrite Hheap.
Qed.

Lemma group_is_mapM (f : proc → option proc) (g : list proc) (N : nat)
    (H H' : nat → mem) :
  group_is g N H →
  (∀ r p, (r < N)%nat → locals_ok r p → heap p = H r →
     ∃ p', f p = Some p' ∧ locals_ok r p' ∧ heap p' = H' r) →
  ∃ g', mapM f g = Some g' ∧ group_is g' N H'.
Proof.
  intros (Hlen & Hall) Hf.
  destruct (mapM_indexed f (fun r _ p' => locals_ok r p' ∧ heap p' = H' r) g)
    as (g' & Hg' & Hlen' & Hall').
  { intros r p Hp. destruct (Hall r p Hp) as (Hl & Hh).
    apply Hf; [|done|done]. apply lookup_lt_Some in Hp. lia. }
  exists g'. split; [done|]. split; [lia|].
  intros r p' Hp'. destruct (lookup_lt_is_Some_2 g r) as [p Hp].
  { apply lookup_lt_Some in Hp'. lia. }
  destruct (Hall' r p Hp) as (y & Hy & HQ). congruence.
Qed.

Lemma group_is_imapM (f : nat → proc → option proc) (g : list proc) (N : nat)
    (H H' : nat → mem) :
  group_is g N H →
  (∀ r p, (r < N)%nat → locals_ok r p → heap p = H r →
     ∃ p', f r p = Some p' ∧ locals_ok r p' ∧ heap p' = H' r) →
  ∃ g', mapM (fun rq : nat * proc => f rq.1 rq.2) (imap pair g) = Some g' ∧
        group_is g' N H'.
Proof.
  intros (Hlen & Hall) Hf.
  destruct (mapM_indexed (fun rq : nat * proc => f rq.1 rq.2)
              (fun r _ p' => locals_ok r p' ∧ heap p' = H' r) (imap pair g))
    as (g' & Hg' & Hlen' & Hall').
  { intros r [r' p]. rewrite list_lookup_imap.
    destruct (g !! r) as [p0|] eqn:Hp; simpl; [|done]. intros [= <- <-]. simpl.
    destruct (Hall r p0 Hp) as (Hl & Hh).
    apply Hf; [|done|done]. apply lookup_lt_Some in Hp. lia. }
  rewrite length_imap in Hlen'.
  exists g'. split; [done|]. split; [lia|].
  intros r p' Hp'. destruct (lookup_lt_is_Some_2 g r) as [p Hp].
  { apply lookup_lt_Some in Hp'. lia. }
  destruct (Hall' r (r, p)) as (y & Hy & HQ); [by rewrite list_lookup_imap, Hp|].
  congruence.
Qed.

(** ** The phases of the pipeline *)

Lemma length_chunk (count : Z) (r : nat) (l : list D) :
  0 ≤ count → (Z.of_nat r + 1) * count ≤ Z.of_nat (length l) →
  length (chunk count r l) = Z.to_nat count.
Proof.
  intros Hc Hl. unfold chunk. rewrite length_take, length_drop. nia.
Qed.

Lemma lookup_chunk (count : Z) (r : nat) (l : list D) (t : Z) :
  0 ≤ t < count →
  chunk count r l !! Z.to_nat t = l !! Z.to_nat (Z.of_nat r * count + t).
Proof.
  intros Ht. unfold chunk. rewrite lookup_take_lt by lia. rewrite lookup_drop.
  f_equal. nia.
Qed.

Lemma group_lookup (g : list proc) (N : nat) (H : nat → mem) (r : nat) :
  group_is g N H → (r < N)%nat →
  ∃ p, g !! r = Some p ∧ locals_ok r p ∧ heap p = H r.
Proof.
  intros (Hlen & Hall) Hr. destruct (lookup_lt_is_Some_2 g r) as [p Hp]; [lia|].
  exists p. split; [done|]. by apply Hall.
Qed.

Section Pipeline.
Variables (n : Z) (N : nat).
Let local_rows : Z := Z.quot n (Z.of_nat N).
Let cnt : Z := local_rows * n.
Hypothesis HN : (0 < N)%nat.
Hypothesis HnN : Z.of_nat N ≤ n.
Hypothesis Hdiv : Z.rem n (Z.of_nat N) = 0.
Hypothesis Hint : n * n ≤ INT_MAX.

Lemma rows_split : n = Z.of_nat N * local_rows.
Proof using HN HnN Hdiv.
  clear Hint.
  pose proof (Z.quot_rem' n (Z.of_nat N)) as H. rewrite Hdiv in H. unfold local_rows. lia.
Qed.

Lemma local_rows_pos : 0 < local_rows.
Proof using HN HnN Hdiv. pose proof rows_split. nia. Qed.

Lemma cnt_total : Z.of_nat N * cnt = n * n.
Proof using HN HnN Hdiv. unfold cnt. pose proof rows_split. nia. Qed.

Lemma cnt_bounds : 0 < cnt ≤ n * n.
Proof using HN HnN Hdiv. pose proof cnt_total. pose proof local_rows_pos. unfold cnt in *. nia. Qed.

Lemma int_mul_cnt : int_mul local_rows n = Some cnt.
Proof.
  unfold int_mul. apply int_chk_in. pose proof cnt_bounds. unfold cnt, INT_MIN in *. lia.
Qed.

Lemma int_mul_nn : int_mul n n = Some (n * n).
Proof. unfold int_mul. apply int_chk_in. unfold INT_MIN. nia. Qed.

(** The scatter of lines 159-161: rank [r] receives block [r] of the
    root's A. *)
Lemma MPI_Scatter_ok (g : list proc) (H : nat → mem) (A0 : list D) :
  group_is g N H →
  length A0 = Z.to_nat (n * n) →
  H 0%nat !! 3%nat = Some A0 →
  (∀ r, (r < N)%nat → ∃ la, H r !! 0%nat = Some la ∧ length la = Z.to_nat cnt) →
  ∃ g', MPI_Scatter A cnt A_local cnt 0 g = Some g' ∧
        group_is g' N (fun r => <[0%nat := chunk cnt r A0]> (H r)).
Proof using HN HnN Hdiv.
  clear Hint.
  intros Hg HA0 H3 H0.
  destruct (group_lookup g N H 0 Hg HN) as (rp & Hrp & Hloc & Hheap).
  unfold MPI_Scatter. rewrite Hrp. simpl. rewrite decide_True by done.
  destruct Hloc as (_ & _ & _ & _ & Hroot). destruct (Hroot eq_refl) as (-> & _ & _).
  pose proof cnt_total as Htot. pose proof cnt_bounds as Hcb.
  rewrite (read_buf_whole rp 3 A0); [|by rewrite Hheap|destruct Hg as [-> _]; lia|
                                      destruct Hg as [-> _]; lia].
  simpl.
  apply (group_is_imapM
           (fun r p => q ← write_buf p (A_local p) (chunk cnt r A0); Some (log EvScatter q))
           g N H); [done|].
  intros r p Hr Hloc Hh. destruct (H0 r Hr) as (la & Hla & Hlen).
  destruct Hloc as (Hrank & HAl & Hrest). rewrite HAl.
  rewrite (write_buf_whole p 0 la); [|by rewrite Hh|rewrite length_chunk; nia].
  simpl. eexists. split; [done|]. split; [|by rewrite Hh].
  split; [done|]. split; [done|]. done.
Qed.

(** Lines 152-161. *)
Lemma phase_scatter_ok (g : list proc) (H : nat → mem) (A0 : list D) :
  group_is g N H →
  length A0 = Z.to_nat (n * n) →
  H 0%nat !! 3%nat = Some A0 →
  (∀ r, (r < N)%nat → ∃ la, H r !! 0%nat = Some la ∧ length la = Z.to_nat cnt) →
  ∃ g', phase_scatter n local_rows g = Some g' ∧
        group_is g' N (fun r => <[0%nat := chunk cnt r A0]> (H r)).
Proof using HN HnN Hdiv Hint d0.
  intros Hg HA0 H3 H0. unfold phase_scatter, MPI_Barrier. simpl.
  rewrite int_mul_cnt. simpl. fold cnt.
  apply MPI_Scatter_ok; try done.
  apply group_is_fmap; [intros; by apply locals_ok_say0|apply heap_say0|].
  apply group_is_fmap; [done|done|]. by apply group_is_fmap.
Qed.

(** Lines 167-172 on rank 0. *)
Lemma copy_B_ok (p : proc) (b1 b4 : nat) (B0 l1 : list D) :
  B p = Ptr b4 → B_local p = Ptr b1 → b1 ≠ b4 →
  heap p !! b4 = Some B0 → length B0 = Z.to_nat (n * n) →
  heap p !! b1 = Some l1 → length l1 = Z.to_nat (n * n) →
  copy_B n p = Some (set_heap (<[b1 := B0]> (heap p)) p).
Proof using HN HnN Hdiv Hint d0.
  intros HB HBl Hne H4 HlB H1 Hl1. unfold copy_B. rewrite int_mul_nn. simpl.
  assert (0 ≤ n * n) as Hnn by nia.
  rewrite HB, HBl.
  rewrite (fill_loop _ b1 l1 (n * n) (elt B0)); [| done | lia |].
  - simpl. rewrite elt_seqZ_id by (lia || done).
    rewrite drop_ge by lia. by rewrite app_nil_r.
  - intros i l' Hi Hl'.
    rewrite (load_insert_ne (heap p) b1 b4 l' B0) by (done || lia).
    rewrite lookup_elt by lia. done.
Qed.

(** Lines 164-173: every rank ends with the root's B in its [B_local]. *)
Lemma phase_bcast_ok (g : list proc) (H : nat → mem) (B0 : list D) :
  group_is g N H →
  length B0 = Z.to_nat (n * n) →
  H 0%nat !! 4%nat = Some B0 →
  (∀ r, (r < N)%nat → ∃ lb, H r !! 1%nat = Some lb ∧ length lb = Z.to_nat (n * n)) →
  ∃ g', phase_bcast n g = Some g' ∧
        group_is g' N (fun r => <[1%nat := B0]> (H r)).
Proof using HN HnN Hdiv Hint d0.
  intros Hg HB0 H4 H1. unfold phase_bcast, on_each.
  set (g1 := say0 MsgBroadcasting <$> g).
  assert (group_is g1 N H) as Hg1
    by (apply group_is_fmap; [intros; by apply locals_ok_say0|apply heap_say0|done]).
  destruct (group_is_mapM
              (fun p => if decide (world_rank p = 0) then copy_B n p else Some p)
              g1 N H (fun r => if decide (r = 0%nat) then <[1%nat := B0]> (H r) else H r) Hg1)
    as (g2 & -> & Hg2).
  { intros r p Hr Hloc Hh. destruct (H1 r Hr) as (lb & Hlb & Hlen).
    pose proof Hloc as (Hrank & HAl & HBl & HCl & Hroot).
    destruct (decide (r = 0%nat)) as [->|Hr0].
    - rewrite decide_True by (rewrite Hrank; lia).
      destruct (Hroot eq_refl) as (HA & HB & HC).
      rewrite (copy_B_ok p 1 4 B0 lb); try done; try (by rewrite Hh).
      eexists. split; [done|]. split; [done|]. simpl. by rewrite Hh.
    - rewrite decide_False by (rewrite Hrank; lia).
      eexists. split; [done|]. done. }
  simpl. rewrite int_mul_nn. simpl.
  destruct (group_lookup g2 N _ 0 Hg2 HN) as (rp & Hrp & Hloc & Hheap).
  unfold MPI_Bcast. rewrite Hrp. simpl.
  pose proof Hloc as (_ & _ & -> & _ & _).
  rewrite decide_True in Hheap by done.
  rewrite (read_buf_whole rp 1 B0);
    [|by rewrite Hheap, lookup_insert_eq|done|nia].
  simpl.
  apply (group_is_mapM _ g2 N _ _ Hg2).
  intros r p Hr Hlocp Hh. destruct (H1 r Hr) as (lb & Hlb & Hlen).
  pose proof Hlocp as (_ & _ & -> & _ & _).
  destruct (decide (r = 0%nat)) as [->|Hr0].
  - rewrite (write_buf_whole p 1 B0); [|by rewrite Hh, lookup_insert_eq|done].
    simpl. eexists. split; [done|]. split; [done|]. simpl.
    by rewrite Hh, insert_insert_eq.
  - rewrite (write_buf_whole p 1 lb); [|by rewrite Hh|lia].
    simpl. eexists. split; [done|]. split; [done|]. simpl. by rewrite Hh.
Qed.

(** Lines 176-179: every rank multiplies its slice by its copy of B. *)
Lemma phase_multiply_ok (g : list proc) (H : nat → mem) (la : nat → list D) (lb : list D) :
  group_is g N H →
  length lb = Z.to_nat (n * n) →
  (∀ r, (r < N)%nat →
     H r !! 0%nat = Some (la r) ∧ length (la r) = Z.to_nat cnt ∧
     H r !! 1%nat = Some lb ∧
     ∃ lc, H r !! 2%nat = Some lc ∧ length lc = Z.to_nat cnt) →
  ∃ g', phase_multiply n local_rows g = Some g' ∧
        group_is g' N (fun r => <[2%nat := matmul (la r) lb local_rows n]> (H r)).
Proof using HN HnN Hdiv Hint d0.
  intros Hg Hlb Hr. unfold phase_multiply, on_each.
  set (g1 := say0 MsgComputing <$> g).
  assert (group_is g1 N H) as Hg1
    by (apply group_is_fmap; [intros; by apply locals_ok_say0|apply heap_say0|done]).
  apply (group_is_mapM _ g1 N H _ Hg1).
  intros r p Hrn Hloc Hh. destruct (Hr r Hrn) as (Hla & Hlen & Hb & lc & Hc & Hlc).
  pose proof Hloc as (_ & -> & -> & -> & _).
  pose proof cnt_bounds as Hcb. pose proof local_rows_pos as Hlr.
  rewrite (multiply_matrices_exact 0 1 2 (la r) lb local_rows n) with (lc := lc);
    try done; try lia; try (by rewrite Hh); try (fold cnt; lia).
  simpl. eexists. split; [done|]. split; [done|]. simpl.
  fold cnt. rewrite drop_ge by lia. by rewrite app_nil_r, Hh.
Qed.

(** A gather into the root's C of the slices every rank holds in its block
    [b] (0 for [A_local], 2 for [C_local]). *)
Lemma MPI_Gather_ok (sendbuf : proc → ptr) (b : nat) (g : list proc) (H : nat → mem)
    (lc : nat → list D) :
  (∀ r p, locals_ok r p → sendbuf p = Ptr b) → b ≠ 5%nat →
  group_is g N H →
  (∀ r, (r < N)%nat → H r !! b = Some (lc r) ∧ length (lc r) = Z.to_nat cnt) →
  (∃ lC, H 0%nat !! 5%nat = Some lC ∧ length lC = Z.to_nat (n * n)) →
  ∃ g', MPI_Gather sendbuf cnt C cnt 0 g = Some g' ∧
        group_is g' N (fun r => if decide (r = 0%nat)
                                then <[5%nat := concat (lc <$> seq 0 N)]> (H r)
                                else H r).
Proof using HN HnN Hdiv.
  clear Hint.
  intros Hsb Hb5 Hg Hr (lC & H5 & HlC). unfold MPI_Gather.
  rewrite decide_True by done.
  pose proof cnt_bounds as Hcb. pose proof cnt_total as Htot.
  destruct (mapM_indexed (fun p => read_buf p (sendbuf p) cnt)
              (fun r _ l => l = lc r) g) as (parts & -> & Hlen & Hparts).
  { intros r p Hp. destruct Hg as (Hlen1 & Hall). destruct (Hall r p Hp) as (Hloc & Hh).
    apply lookup_lt_Some in Hp. destruct (Hr r) as (Hc & Hlc); [lia|].
    rewrite (Hsb r p Hloc). exists (lc r). split; [|done].
    apply read_buf_whole; [by rewrite Hh|done|lia]. }
  assert (parts = lc <$> seq 0 N) as ->.
  { destruct Hg as (Hlen1 & _). apply list_eq. intros r. rewrite list_lookup_fmap.
    destruct (decide (r < N)%nat) as [Hlt|Hge].
    - rewrite lookup_seq_lt by done. simpl.
      destruct (lookup_lt_is_Some_2 g r) as [p Hp]; [lia|].
      destruct (Hparts r p Hp) as (y & -> & ->). done.
    - rewrite lookup_seq_ge by lia. simpl. apply lookup_ge_None_2. lia. }
  simpl. destruct (group_lookup g N H 0 Hg HN) as (rp & Hrp & Hloc & Hheap).
  rewrite Hrp. simpl.
  pose proof Hloc as (Hrank & HAl & HBl & HCl & Hroot).
  destruct (Hroot eq_refl) as (HA & HB & HC). rewrite HC.
  assert (length (concat (lc <$> seq 0 N)) = length lC) as Hcat.
  { rewrite HlC. rewrite <- Htot.
    assert (∀ k, (k ≤ N)%nat → length (concat (lc <$> seq 0 k)) = (k * Z.to_nat cnt)%nat) as Hk.
    { induction k as [|k IH]; intros Hle; [done|].
      rewrite seq_S, fmap_app, concat_app, length_app, IH by lia. simpl.
      rewrite length_app. simpl. destruct (Hr k) as (_ & ->); lia. }
    rewrite Hk by lia. nia. }
  rewrite (write_buf_whole rp 5 lC); [|by rewrite Hheap|done].
  simpl. eexists. split; [done|].
  destruct Hg as (HgN & Hall).
  split; [by rewrite !length_fmap, length_insert|].
  intros r p'. rewrite list_lookup_fmap.
  destruct (decide (r = 0%nat)) as [->|Hr0].
  - rewrite list_lookup_insert_eq by (by apply lookup_lt_Some in Hrp). simpl.
    intros [= <-]. split; [done|]. simpl. by rewrite Hheap.
  - rewrite list_lookup_insert_ne by done.
    destruct (g !! r) as [p|] eqn:Hp; simpl; [|done]. intros [= <-].
    destruct (Hall r p Hp) as (Hl & Hh). done.
Qed.

(** Lines 182-191: the root's C receives the slices in rank order. *)
Lemma phase_gather_ok (g : list proc) (H : nat → mem) (lc : nat → list D) :
  group_is g N H →
  (∀ r, (r < N)%nat → H r !! 2%nat = Some (lc r) ∧ length (lc r) = Z.to_nat cnt) →
  (∃ lC, H 0%nat !! 5%nat = Some lC ∧ length lC = Z.to_nat (n * n)) →
  ∃ g', phase_gather n local_rows g = Some g' ∧
        group_is g' N (fun r => if decide (r = 0%nat)
                                then <[5%nat := concat (lc <$> seq 0 N)]> (H r)
                                else H r).
Proof using HN HnN Hdiv Hint d0.
  intros Hg Hr H5. unfold phase_gather.
  rewrite int_mul_cnt. simpl. fold cnt.
  destruct (MPI_Gather_ok C_local 2 (say0 MsgGathering <$> g) H lc) as (g1 & -> & Hg1);
    try done.
  { by intros r p (_ & _ & _ & -> & _). }
  { apply group_is_fmap; [intros; by apply locals_ok_say0|apply heap_say0|done]. }
  simpl. unfold MPI_Barrier. simpl. eexists. split; [done|].
  apply group_is_fmap; [done|done|]. by apply group_is_fmap.
Qed.

(** ** Start-up, lines 70-149 *)

Lemma initialize_matrix_ok (vals : list D) (b : nat) (l : list D) (h : mem) :
  h !! b = Some l → length l = Z.to_nat (n * n) → length vals = Z.to_nat (n * n) →
  initialize_matrix vals (Ptr b) n n h = Some (<[b := vals]> h).
Proof.
  intros Hl Hlen Hvals. unfold initialize_matrix. rewrite int_mul_nn. simpl.
  assert (0 ≤ n * n) as Hnn by nia.
  rewrite (fill_loop _ b l (n * n) (elt vals)); [|done|lia|done].
  rewrite elt_seqZ_id by (lia || done). rewrite drop_ge by lia. by rewrite app_nil_r.
Qed.

(** [print_matrix] on a matrix small enough to be shown in full only
    prints. *)
Lemma print_matrix_ok (b : nat) (l : list D) (name : string) (p : proc) :
  n ≤ 10 → heap p !! b = Some l → length l = Z.to_nat (n * n) →
  ∃ p', print_matrix (Ptr b) n n name p = Some p' ∧
        heap p' = heap p ∧ same_locals p p'.
Proof.
  intros Hsmall Hl Hlen. unfold print_matrix.
  rewrite bool_decide_eq_false_2 by lia.
  assert (0 ≤ n) as Hn0 by lia.
  apply (for_loop_total (fun _ q => heap q = heap p ∧ same_locals p q)); [done|done|].
  intros i q Hi (Hq & Hsame).
  destruct (for_loop_total (fun _ q' => heap q' = heap p ∧ same_locals p q')
              (fun j p0 => ij ← idx i n j; v ← load (heap p0) (Ptr b) ij;
                           Some (say (MsgValue v) p0)) 0 n q)
    as (q' & Hrun & Hq' & Hsame'); [done|done| |].
  - intros j q1 Hj (Hq1 & Hs1). rewrite (idx_in i n j) by (unfold INT_MAX; nia). simpl.
    rewrite (load_in _ b l) by (rewrite ?Hq1; done || nia).
    rewrite lookup_elt by nia. simpl. eexists. split; [done|]. done.
  - rewrite Hrun. simpl. eexists. split; [done|]. done.
Qed.

Lemma main_root_setup_ok (env : nat → option (nat → D)) (A0 B0 : list D) (p : proc) :
  (∀ k, is_Some (env k)) →
  length A0 = Z.to_nat (n * n) → length B0 = Z.to_nat (n * n) →
  brk p = 3%nat →
  ∃ p', main_root_setup env A0 B0 n p = Some (Continue p') ∧
        world_rank p' = world_rank p ∧
        A_local p' = A_local p ∧ B_local p' = B_local p ∧ C_local p' = C_local p ∧
        A p' = Ptr 3 ∧ B p' = Ptr 4 ∧ C p' = Ptr 5 ∧
        (∀ b, (b < 3)%nat → heap p' !! b = heap p !! b) ∧
        dom (heap p') = {[3; 4; 5]}%nat ∪ dom (heap p) ∧
        heap p' !! 3%nat = Some A0 ∧ heap p' !! 4%nat = Some B0 ∧
        ∃ lC, heap p' !! 5%nat = Some lC ∧ length lC = Z.to_nat (n * n).
Proof.
  intros Henv HA HB Hbrk. unfold main_root_setup. rewrite int_mul_nn. simpl.
  assert (0 ≤ n * n) as Hnn by nia.
  destruct (Henv 3%nat) as [i3 E3]. destruct (Henv 4%nat) as [i4 E4].
  destruct (Henv 5%nat) as [i5 E5].
  unfold malloc. simpl. rewrite Hbrk, E3. rewrite decide_True by done. simpl.
  rewrite E4. rewrite decide_True by done. simpl.
  rewrite E5. rewrite decide_True by done. simpl.
  try rewrite decide_False by (intros [|[|]]; done).
  set (l3 := i3 <$> seq 0 (Z.to_nat (n * n))).
  set (l4 := i4 <$> seq 0 (Z.to_nat (n * n))).
  set (l5 := i5 <$> seq 0 (Z.to_nat (n * n))).
  set (h0 := <[5%nat := l5]> (<[4%nat := l4]> (<[3%nat := l3]> (heap p)))).
  assert (length l3 = Z.to_nat (n * n)) as Hl3 by (unfold l3; by rewrite length_fmap, length_seq).
  assert (length l4 = Z.to_nat (n * n)) as Hl4 by (unfold l4; by rewrite length_fmap, length_seq).
  assert (length l5 = Z.to_nat (n * n)) as Hl5 by (unfold l5; by rewrite length_fmap, length_seq).
  rewrite (initialize_matrix_ok A0 3 l3 h0); [|by unfold h0; simplify_map_eq|done|done].
  simpl.
  rewrite (initialize_matrix_ok B0 4 l4); [|by unfold h0; simplify_map_eq|done|done].
  simpl.
  set (h1 := <[4%nat := B0]> (<[3%nat := A0]> h0)).
  assert (h1 !! 3%nat = Some A0) as H13 by (unfold h1; by simplify_map_eq).
  assert (h1 !! 4%nat = Some B0) as H14 by (unfold h1; by simplify_map_eq).
  assert (h1 !! 5%nat = Some l5) as H15 by (unfold h1, h0; by simplify_map_eq).
  assert (∀ b, (b < 3)%nat → h1 !! b = heap p !! b) as Hlow.
  { intros b Hb. unfold h1, h0. rewrite !lookup_insert_ne by lia. done. }
  assert (dom h1 = {[3; 4; 5]}%nat ∪ dom (heap p)) as Hdom.
  { unfold h1, h0. rewrite !dom_insert_L. apply set_eq. intros x.
    rewrite !elem_of_union, !elem_of_singleton. tauto. }
  destruct (decide (n ≤ 10)) as [Hsmall|Hbig].
  - match goal with |- context [print_matrix (Ptr 3) n n ?nm ?q] =>
      destruct (print_matrix_ok 3 A0 nm q Hsmall) as (q1 & -> & Hq1 & Hs1); [done|done|]
    end.
    simpl.
    destruct (print_matrix_ok 4 B0 "Matrix B" q1 Hsmall) as (q2 & -> & Hq2 & Hs2);
      [by rewrite Hq1|done|].
    simpl. eexists. split; [done|]. simpl.
    destruct Hs1 as (S1 & S2 & S3 & S4 & S5 & S6 & S7).
    destruct Hs2 as (T1 & T2 & T3 & T4 & T5 & T6 & T7).
    rewrite Hq2, Hq1, T1, T2, T3, T4, T5, T6, T7, S1, S2, S3, S4, S5, S6, S7. simpl.
    repeat (split; [done|]). by exists l5.
  - simpl. eexists. split; [done|]. simpl.
    repeat (split; [done|]). by exists l5.
Qed.

Lemma main_start_ok (env : nat → option (nat → D)) (A0 B0 : list D) (r : nat) :
  (∀ k, is_Some (env k)) →
  length A0 = Z.to_nat (n * n) → length B0 = Z.to_nat (n * n) →
  ∃ p, main_start env A0 B0 n (Z.of_nat N) (Z.of_nat r) = Some (Continue p) ∧
       locals_ok r p ∧ dom (heap p) = blocks_of r ∧
       (∃ la lb lc,
          heap p !! 0%nat = Some la ∧ length la = Z.to_nat cnt ∧
          heap p !! 1%nat = Some lb ∧ length lb = Z.to_nat (n * n) ∧
          heap p !! 2%nat = Some lc ∧ length lc = Z.to_nat cnt) ∧
       (r = 0%nat →
          heap p !! 3%nat = Some A0 ∧ heap p !! 4%nat = Some B0 ∧
          ∃ lC, heap p !! 5%nat = Some lC ∧ length lC = Z.to_nat (n * n)).
Proof.
  intros Henv HA HB. unfold main_start.
  rewrite decide_False by lia. rewrite decide_False by (intros ?; done).
  fold local_rows. rewrite int_mul_cnt, int_mul_nn.
  pose proof cnt_bounds as Hcb. assert (0 ≤ n * n) as Hnn by nia.
  destruct (Henv 0%nat) as [i0 E0]. destruct (Henv 1%nat) as [i1 E1].
  destruct (Henv 2%nat) as [i2 E2].
  set (l0 := i0 <$> seq 0 (Z.to_nat cnt)).
  set (l1 := i1 <$> seq 0 (Z.to_nat (n * n))).
  set (l2 := i2 <$> seq 0 (Z.to_nat cnt)).
  assert (length l0 = Z.to_nat cnt) as Hl0 by (unfold l0; by rewrite length_fmap, length_seq).
  assert (length l1 = Z.to_nat (n * n)) as Hl1 by (unfold l1; by rewrite length_fmap, length_seq).
  assert (length l2 = Z.to_nat cnt) as Hl2 by (unfold l2; by rewrite length_fmap, length_seq).
  destruct (decide (r = 0%nat)) as [->|Hr0].
  - simpl. unfold malloc. simpl. rewrite E0. rewrite decide_True by lia. simpl.
    rewrite E1. rewrite decide_True by done. simpl.
    rewrite E2. rewrite decide_True by lia. simpl.
    try rewrite decide_False by (intros [|[|]]; done).
    fold l0 l1 l2.
    match goal with |- context [main_root_setup env A0 B0 n ?q] =>
      destruct (main_root_setup_ok env A0 B0 q Henv HA HB eq_refl)
        as (p' & -> & Hrank & HAl & HBl & HCl & HA' & HB' & HC' & Hlow & Hdom & H3 & H4 & H5)
    end.
    simpl in *. exists p'. split; [done|].
    split; [by repeat split|].
    split; [rewrite Hdom, !dom_insert_L, dom_empty_L; unfold blocks_of; simpl;
            apply set_eq; intros x;
            rewrite !elem_of_union, !elem_of_singleton, elem_of_empty; tauto|].
    split; [|done].
    exists l0, l1, l2.
    rewrite !Hlow by lia. by simplify_map_eq.
  - rewrite decide_False by lia. simpl.
    unfold malloc. simpl. rewrite E0. rewrite decide_True by lia. simpl.
    rewrite E1. rewrite decide_True by done. simpl.
    rewrite E2. rewrite decide_True by lia. simpl.
    try rewrite decide_False by (intros [|[|]]; done).
    rewrite decide_False by lia.
    eexists. split; [done|]. simpl. fold l0 l1 l2.
    split; [by repeat split|].
    split; [rewrite !dom_insert_L, dom_empty_L; unfold blocks_of;
            rewrite decide_False by done; apply set_eq; intros x;
            rewrite !elem_of_union, !elem_of_singleton, elem_of_empty; tauto|].
    split; [|done].
    exists l0, l1, l2. by simplify_map_eq.
Qed.

(** With an allocator that never fails, every rank reaches the first
    collective, holding its three slices and, on rank 0, A and B. *)
Lemma start_group_ok (env : nat → nat → option (nat → D)) (A0 B0 : list D) :
  never_null env →
  length A0 = Z.to_nat (n * n) → length B0 = Z.to_nat (n * n) →
  ∃ g H, start_group env A0 B0 n N = Some (Continue <$> g) ∧
         group_is g N H ∧ ready_heaps n N A0 B0 H.
Proof.
  intros Henv HA HB. unfold start_group.
  destruct (mapM_indexed
    (fun r => main_start (env r) A0 B0 n (Z.of_nat N) (Z.of_nat r))
    (fun _ r s => ∃ p, s = Continue p ∧ locals_ok r p ∧ dom (heap p) = blocks_of r ∧
       (∃ la lb lc,
          heap p !! 0%nat = Some la ∧ length la = Z.to_nat cnt ∧
          heap p !! 1%nat = Some lb ∧ length lb = Z.to_nat (n * n) ∧
          heap p !! 2%nat = Some lc ∧ length lc = Z.to_nat cnt) ∧
       (r = 0%nat →
          heap p !! 3%nat = Some A0 ∧ heap p !! 4%nat = Some B0 ∧
          ∃ lC, heap p !! 5%nat = Some lC ∧ length lC = Z.to_nat (n * n)))
    (seq 0 N)) as (ss & Hss & Hlen & Hall).
  { intros i r Hi. destruct (main_start_ok (env r) A0 B0 r) as (p & Hp & Hrest);
      [intros k; apply Henv|done|done|].
    exists (Continue p). split; [done|]. by exists p. }
  rewrite length_seq in Hlen.
  assert (∀ r, (r < N)%nat → ∃ p, ss !! r = Some (Continue p) ∧ locals_ok r p ∧ dom (heap p) = blocks_of r ∧
       (∃ la lb lc,
          heap p !! 0%nat = Some la ∧ length la = Z.to_nat cnt ∧
          heap p !! 1%nat = Some lb ∧ length lb = Z.to_nat (n * n) ∧
          heap p !! 2%nat = Some lc ∧ length lc = Z.to_nat cnt) ∧
       (r = 0%nat →
          heap p !! 3%nat = Some A0 ∧ heap p !! 4%nat = Some B0 ∧
          ∃ lC, heap p !! 5%nat = Some lC ∧ length lC = Z.to_nat (n * n))) as Hr.
  { intros r Hlt. destruct (Hall r r) as (s & Hs & p & -> & Hrest);
      [by rewrite lookup_seq_lt|]. by exists p. }
  destruct (mapM_indexed continuing (fun _ s p => s = Continue p) ss)
    as (g & Hg & Hglen & Hgall).
  { intros r s Hs. destruct (Hr r) as (p & Hp & _); [apply lookup_lt_Some in Hs; lia|].
    exists p. split; [|congruence]. assert (s = Continue p) as -> by congruence. done. }
  assert (ss = Continue <$> g) as ->.
  { apply list_eq. intros r. rewrite list_lookup_fmap.
    destruct (ss !! r) as [s|] eqn:Hs.
    - destruct (Hgall r s Hs) as (p & -> & ->). done.
    - rewrite lookup_ge_None_2; [done|]. apply lookup_ge_None_1 in Hs. lia. }
  exists g, (fun r => default ∅ (heap <$> g !! r)).
  split; [done|].
  assert (∀ r p, g !! r = Some p → Continue <$> g !! r = Some (Continue p)) as Hup
    by (intros r p ->; done).
  split; [split; [lia|]|split].
  - intros r p Hp. rewrite Hp. simpl. split; [|done].
    destruct (Hr r) as (p' & Hp' & Hloc & _); [apply lookup_lt_Some in Hp; lia|].
    rewrite list_lookup_fmap, Hp in Hp'. simpl in Hp'. by injection Hp' as <-.
  - intros r Hlt. destruct (Hr r Hlt) as (p & Hp & _ & Hdom & Hblocks & _).
    rewrite list_lookup_fmap in Hp. destruct (g !! r) as [p'|]; simpl in *; [|done].
    by injection Hp as <-.
  - destruct (Hr 0%nat HN) as (p & Hp & _ & _ & _ & Hroot).
    rewrite list_lookup_fmap in Hp. destruct (g !! 0%nat) as [p'|]; simpl in *; [|done].
    injection Hp as <-. destruct (Hroot eq_refl) as (H3 & H4 & H5). done.
Qed.

(** ** Row blocks and products *)

Lemma tabulate_app (rows1 rows2 : list Z) (m : Z) (f : Z → Z → D) :
  tabulate (rows1 ++ rows2) m f = tabulate rows1 m f ++ tabulate rows2 m f.
Proof. unfold tabulate. apply bind_app. Qed.

Lemma tabulate_fmap (s : Z → Z) (rows : list Z) (m : Z) (f : Z → Z → D) :
  tabulate (s <$> rows) m f = tabulate rows m (fun i => f (s i)).
Proof.
  unfold tabulate. induction rows as [|i rows IH]; [done|].
  rewrite fmap_cons, !bind_cons, IH. done.
Qed.

Lemma tabulate_ext_in (rows : list Z) (m : Z) (f f' : Z → Z → D) :
  (∀ i j, i ∈ rows → 0 ≤ j < m → f i j = f' i j) →
  tabulate rows m f = tabulate rows m f'.
Proof.
  unfold tabulate. induction rows as [|i rows IH]; intros Hf; [done|].
  rewrite !bind_cons, IH by (intros; apply Hf; [by right|done]).
  f_equal. rewrite !bind_singleton_fmap. apply list_fmap_ext.
  intros k j Hj. apply lookup_seqZ in Hj. apply Hf; [by left|lia].
Qed.

Lemma fold_left_ext_in {X Y : Type} (f f' : X → Y → X) (l : list Y) (x : X) :
  (∀ acc y, y ∈ l → f acc y = f' acc y) → fold_left f l x = fold_left f' l x.
Proof.
  revert x. induction l as [|y l IH]; intros x Hf; [done|]. simpl.
  rewrite Hf by (by left). apply IH. intros acc y' Hy'. apply Hf. by right.
Qed.

Lemma elt_chunk (A0 : list D) (r : nat) (t : Z) :
  0 ≤ t < cnt → elt (chunk cnt r A0) t = elt A0 (Z.of_nat r * cnt + t).
Proof.
  clear Hint.
  intros Ht. unfold elt. rewrite !nth_lookup. by rewrite lookup_chunk.
Qed.

Lemma dot_naive_chunk (A0 B0 : list D) (r : nat) (i j : Z) :
  0 ≤ i < local_rows →
  dot_naive (chunk cnt r A0) B0 n i j
  = dot_naive A0 B0 n (Z.of_nat r * local_rows + i) j.
Proof.
  clear Hint.
  intros Hi. unfold dot_naive, dot_prefix. apply fold_left_ext_in.
  intros acc k Hk. apply elem_of_seqZ in Hk.
  rewrite elt_chunk by (unfold cnt; nia). do 3 f_equal. unfold cnt. lia.
Qed.

Lemma matmul_chunk (A0 B0 : list D) (r : nat) :
  matmul (chunk cnt r A0) B0 local_rows n
  = tabulate (seqZ (Z.of_nat r * local_rows) local_rows) n (dot_naive A0 B0 n).
Proof.
  clear Hint.
  unfold matmul.
  rewrite (tabulate_ext_in _ _ _
             (fun i => dot_naive A0 B0 n (Z.of_nat r * local_rows + i))).
  - rewrite <- (tabulate_fmap (Z.add (Z.of_nat r * local_rows))).
    by rewrite fmap_add_seqZ, Z.add_0_r.
  - intros i j Hi Hj. apply elem_of_seqZ in Hi. apply dot_naive_chunk. lia.
Qed.

Lemma concat_row_blocks (f : Z → Z → D) (k : nat) :
  concat ((fun r => tabulate (seqZ (Z.of_nat r * local_rows) local_rows) n f) <$> seq 0 k)
  = tabulate (seqZ 0 (Z.of_nat k * local_rows)) n f.
Proof using HN HnN Hdiv.
  clear Hint.
  pose proof local_rows_pos as Hlr.
  induction k as [|k IH]; [done|].
  rewrite seq_S, fmap_app, concat_app, IH. simpl. rewrite app_nil_r.
  rewrite <- tabulate_app. f_equal.
  replace (Z.of_nat (Datatypes.S k) * local_rows)
    with (Z.of_nat k * local_rows + local_rows) by lia.
  rewrite seqZ_app by nia. by rewrite Z.add_0_l.
Qed.

(** The slices of the product, in rank order, make up the product. *)
Lemma gathered_product (A0 B0 : list D) :
  concat ((fun r => matmul (chunk cnt r A0) B0 local_rows n) <$> seq 0 N)
  = matmul A0 B0 n n.
Proof using HN HnN Hdiv.
  clear Hint.
  rewrite (list_fmap_ext _
             (fun r => tabulate (seqZ (Z.of_nat r * local_rows) local_rows) n
                                (dot_naive A0 B0 n)) (seq 0 N))
    by (intros; apply matmul_chunk).
  rewrite concat_row_blocks. unfold matmul. by rewrite <- rows_split.
Qed.

(** The blocks of a buffer, in rank order, make up the buffer. *)
Lemma concat_chunks (A0 : list D) :
  length A0 = Z.to_nat (n * n) →
  concat ((fun r => chunk cnt r A0) <$> seq 0 N) = A0.
Proof using HN HnN Hdiv.
  clear Hint.
  intros HA. pose proof cnt_total as Htot. pose proof cnt_bounds as Hcb.
  assert (∀ k, concat ((fun r => chunk cnt r A0) <$> seq 0 k)
               = take (k * Z.to_nat cnt) A0) as Hk.
  { induction k as [|k IH]; [done|].
    rewrite seq_S, fmap_app, concat_app, IH. simpl. rewrite app_nil_r.
    unfold chunk. rewrite take_take_drop. f_equal. lia. }
  rewrite Hk. apply take_ge. nia.
Qed.

(** Block [r] of A is the rows [row_block n N r] of A. *)
Lemma chunk_rows (A0 : list D) (r : nat) :
  (r < N)%nat → length A0 = Z.to_nat (n * n) →
  chunk cnt r A0 = rows_of A0 n (row_block n (Z.of_nat N) (Z.of_nat r)).
Proof using HN HnN Hdiv.
  clear Hint.
  intros Hr HA. pose proof cnt_total as Htot. pose proof cnt_bounds as Hcb.
  pose proof local_rows_pos as Hlr.
  unfold rows_of, row_block. fold local_rows.
  rewrite <- (Z.add_0_r (Z.of_nat r * local_rows)).
  rewrite <- fmap_add_seqZ, tabulate_fmap.
  assert (length (chunk cnt r A0) = Z.to_nat (local_rows * n)) as Hlen
    by (apply length_chunk; nia).
  rewrite (tabulate_ext (chunk cnt r A0) local_rows n
             (fun i j => elt (chunk cnt r A0) (i * n + j))); [|lia|lia|done|].
  - apply tabulate_ext_in. intros i j Hi Hj. apply elem_of_seqZ in Hi.
    rewrite elt_chunk by (unfold cnt; nia). f_equal. unfold cnt. lia.
  - intros i j Hi Hj. apply lookup_elt. nia.
Qed.

Lemma row_blocks_cover :
  concat ((fun r => row_block n (Z.of_nat N) (Z.of_nat r)) <$> seq 0 N) = seqZ 0 n.
Proof using HN HnN Hdiv.
  clear Hint.
  pose proof local_rows_pos as Hlr.
  assert (∀ k, concat ((fun r => row_block n (Z.of_nat N) (Z.of_nat r)) <$> seq 0 k)
               = seqZ 0 (Z.of_nat k * local_rows)) as Hk.
  { induction k as [|k IH]; [done|].
    rewrite seq_S, fmap_app, concat_app, IH. simpl. rewrite app_nil_r.
    unfold row_block. fold local_rows.
    replace (Z.of_nat (Datatypes.S k) * local_rows)
      with (Z.of_nat k * local_rows + local_rows) by lia.
    rewrite seqZ_app by nia. by rewrite Z.add_0_l. }
  rewrite Hk. by rewrite <- rows_split.
Qed.

(** ** The whole pipeline and the whole run *)

Lemma length_matmul (la lb : list D) (rows m : Z) :
  0 ≤ rows → 0 ≤ m → length (matmul la lb rows m) = Z.to_nat (rows * m).
Proof.
  intros Hrows Hm. unfold matmul. rewrite length_tabulate, length_seqZ. nia.
Qed.

Lemma pipeline_ok (g : list proc) (H : nat → mem) (A0 B0 : list D) :
  group_is g N H → ready_heaps n N A0 B0 H →
  length A0 = Z.to_nat (n * n) → length B0 = Z.to_nat (n * n) →
  ∃ g', pipeline n local_rows g = Some g' ∧
        group_is g' N (after_pipeline n N A0 B0 H).
Proof.
  intros Hg (Hr & H3 & H4 & H5) HA HB. unfold pipeline.
  pose proof cnt_bounds as Hcb. pose proof cnt_total as Htot.
  destruct (phase_scatter_ok g H A0) as (g1 & -> & Hg1); try done.
  { intros r Hlt. destruct (Hr r Hlt) as (_ & la & lb & lc & Hla & Hlen & _). by exists la. }
  simpl.
  destruct (phase_bcast_ok g1 _ B0 Hg1) as (g2 & -> & Hg2); try done.
  { by rewrite lookup_insert_ne. }
  { intros r Hlt. destruct (Hr r Hlt) as (_ & la & lb & lc & _ & _ & Hlb & Hlen & _).
    exists lb. by rewrite lookup_insert_ne. }
  simpl.
  destruct (phase_multiply_ok g2 _ (fun r => chunk cnt r A0) B0 Hg2) as (g3 & -> & Hg3);
    try done.
  { intros r Hlt. destruct (Hr r Hlt) as (_ & la & lb & lc & _ & _ & _ & _ & Hlc & Hlen).
    split; [by rewrite lookup_insert_ne, lookup_insert_eq|].
    split; [apply length_chunk; nia|].
    split; [by rewrite lookup_insert_eq|].
    exists lc. by rewrite !lookup_insert_ne. }
  simpl.
  destruct (phase_gather_ok g3 _ (fun r => matmul (chunk cnt r A0) B0 local_rows n) Hg3)
    as (g4 & -> & Hg4).
  { intros r Hlt. split; [by rewrite lookup_insert_eq|].
    pose proof local_rows_pos. rewrite length_matmul by lia. done. }
  { destruct H5 as (lC & HlC & Hlen). exists lC. by rewrite !lookup_insert_ne. }
  eexists. split; [done|]. rewrite gathered_product in Hg4.
  destruct Hg4 as (Hlen & Hall). split; [done|].
  intros r p Hp. destruct (Hall r p Hp) as (Hloc & Hh). split; [done|].
  rewrite Hh. unfold after_pipeline. fold local_rows. fold cnt. done.
Qed.

Lemma free_ok (r b : nat) (p : proc) :
  locals_ok r p → b ∈ dom (heap p) →
  ∃ p', free (Ptr b) p = Some p' ∧ locals_ok r p' ∧ heap p' = delete b (heap p).
Proof.
  intros Hloc Hb. apply elem_of_dom in Hb as [l Hl]. unfold free. rewrite Hl.
  eexists. split; [done|]. done.
Qed.

(** Lines 213-226: a rank that holds exactly its buffers releases them
    all. *)
Lemma main_cleanup_ok (r : nat) (p1 : proc) :
  locals_ok r p1 → dom (heap p1) = blocks_of r →
  ∃ p', main_cleanup p1 = Some p' ∧ locals_ok r p' ∧ heap p' = ∅.
Proof using Type.
  clear. intros Hloc1 Hdom. unfold main_cleanup.
  pose proof Hloc1 as (Hrank & HAl & HBl & HCl & Hroot). rewrite HAl.
  assert (∀ x, x ∈ dom (heap p1) ↔ x ∈ blocks_of r) as Hin by (by rewrite Hdom).
  assert (0%nat ∈ blocks_of r ∧ 1%nat ∈ blocks_of r ∧ 2%nat ∈ blocks_of r) as (I0 & I1 & I2).
  { unfold blocks_of. case_decide; rewrite !elem_of_union, !elem_of_singleton; tauto. }
  destruct (free_ok r 0 p1 Hloc1) as (p2 & -> & Hloc2 & Hh2); [by apply Hin|]. simpl.
  pose proof Hloc2 as (_ & _ & -> & _ & _).
  destruct (free_ok r 1 p2 Hloc2) as (p3 & -> & Hloc3 & Hh3).
  { rewrite Hh2, dom_delete_L, elem_of_difference, elem_of_singleton. split; [by apply Hin|done]. }
  simpl. pose proof Hloc3 as (Hrank3 & _ & _ & -> & Hroot3).
  destruct (free_ok r 2 p3 Hloc3) as (p4 & -> & Hloc4 & Hh4).
  { rewrite Hh3, Hh2, !dom_delete_L, !elem_of_difference, !elem_of_singleton.
    split; [split; [by apply Hin|done]|done]. }
  simpl. pose proof Hloc4 as (Hrank4 & _ & _ & _ & Hroot4).
  destruct (decide (r = 0%nat)) as [->|Hr0].
  - rewrite decide_True by (rewrite Hrank4; lia).
    destruct (Hroot4 eq_refl) as (-> & _ & _).
    assert (3%nat ∈ blocks_of 0 ∧ 4%nat ∈ blocks_of 0 ∧ 5%nat ∈ blocks_of 0) as (I3 & I4 & I5).
    { unfold blocks_of. simpl. rewrite !elem_of_union, !elem_of_singleton. tauto. }
    destruct (free_ok 0 3 p4 Hloc4) as (p5 & -> & Hloc5 & Hh5).
    { rewrite Hh4, Hh3, Hh2, !dom_delete_L, !elem_of_difference, !elem_of_singleton.
      repeat split; try done. by apply Hin. }
    simpl. pose proof Hloc5 as (_ & _ & _ & _ & Hroot5).
    destruct (Hroot5 eq_refl) as (_ & -> & _).
    destruct (free_ok 0 4 p5 Hloc5) as (p6 & -> & Hloc6 & Hh6).
    { rewrite Hh5, Hh4, Hh3, Hh2, !dom_delete_L, !elem_of_difference, !elem_of_singleton.
      repeat split; try done. by apply Hin. }
    simpl. pose proof Hloc6 as (_ & _ & _ & _ & Hroot6).
    destruct (Hroot6 eq_refl) as (_ & _ & ->).
    destruct (free_ok 0 5 p6 Hloc6) as (p7 & -> & Hloc7 & Hh7).
    { rewrite Hh6, Hh5, Hh4, Hh3, Hh2, !dom_delete_L, !elem_of_difference, !elem_of_singleton.
      repeat split; try done. by apply Hin. }
    simpl. eexists. split; [done|]. split; [done|]. simpl.
    apply dom_empty_inv_L. apply set_eq. intros x.
    rewrite Hh7, Hh6, Hh5, Hh4, Hh3, Hh2, !dom_delete_L, !elem_of_difference,
      !elem_of_singleton, Hin, elem_of_empty.
    unfold blocks_of. simpl. rewrite !elem_of_union, !elem_of_singleton. lia.
  - rewrite decide_False by (rewrite Hrank4; lia). simpl.
    eexists. split; [done|]. split; [done|]. simpl.
    apply dom_empty_inv_L. apply set_eq. intros x.
    rewrite Hh4, Hh3, Hh2, !dom_delete_L, !elem_of_difference,
      !elem_of_singleton, Hin, elem_of_empty.
    unfold blocks_of. rewrite decide_False by done.
    rewrite !elem_of_union, !elem_of_singleton. lia.
Qed.

(** Lines 193-226 after a complete pipeline. *)
Lemma main_finish_ok (r : nat) (p : proc) :
  locals_ok r p → dom (heap p) = blocks_of r →
  (r = 0%nat → ∃ lC, heap p !! 5%nat = Some lC ∧ length lC = Z.to_nat (n * n)) →
  ∃ p', main_finish n p = Some p' ∧ locals_ok r p' ∧ heap p' = ∅.
Proof.
  intros Hloc Hdom HC. unfold main_finish.
  assert (∃ p1, main_report n p = Some p1 ∧ locals_ok r p1 ∧ heap p1 = heap p)
    as (p1 & -> & Hloc1 & Hh1).
  { unfold main_report. pose proof Hloc as (Hrank & _ & _ & _ & Hroot).
    destruct (decide (r = 0%nat)) as [->|Hr0].
    - rewrite decide_True by (rewrite Hrank; lia).
      destruct (Hroot eq_refl) as (_ & _ & ->). destruct (HC eq_refl) as (lC & HlC & Hlen).
      destruct (decide (n ≤ 10)) as [Hsmall|Hbig].
      + destruct (print_matrix_ok 5 lC "Result Matrix C" p Hsmall) as (q & -> & Hq & Hs);
          [done|done|].
        simpl. eexists. split; [done|]. split; [|done].
        apply (locals_ok_same 0 p); [|done].
        destruct Hs as (S1 & S2 & S3 & S4 & S5 & S6 & S7). by repeat split.
      + simpl. eexists. split; [done|]. done.
    - rewrite decide_False by (rewrite Hrank; lia). by exists p. }
  simpl. apply main_cleanup_ok; [done|]. by rewrite Hh1.
Qed.

Lemma existsb_is_abort_continue (g : list proc) :
  existsb is_abort (Continue <$> g) = false.
Proof. induction g as [|p g IH]; [done|]. simpl. done. Qed.

Lemma mapM_continuing (g : list proc) : mapM continuing (Continue <$> g) = Some g.
Proof. apply mapM_fmap_Some. induction g; constructor; done. Qed.

Lemma gathered_C_ok (env : nat → nat → option (nat → D)) (A0 B0 : list D) :
  never_null env →
  length A0 = Z.to_nat (n * n) → length B0 = Z.to_nat (n * n) →
  gathered_C env A0 B0 n N = Some (matmul A0 B0 n n).
Proof.
  intros Henv HA HB. unfold gathered_C.
  destruct (start_group_ok env A0 B0 Henv HA HB) as (g & H & -> & Hg & Hready).
  simpl. rewrite mapM_continuing. simpl.
  destruct (pipeline_ok g H A0 B0 Hg Hready HA HB) as (g' & Hrun & Hg').
  fold local_rows. rewrite Hrun. simpl.
  destruct (group_lookup g' N _ 0 Hg' HN) as (p0 & -> & Hloc & Hh). simpl.
  destruct Hloc as (_ & _ & _ & _ & Hroot). destruct (Hroot eq_refl) as (_ & _ & ->).
  simpl. rewrite Hh. unfold after_pipeline. simpl. by rewrite lookup_insert_eq.
Qed.

(** A run on a valid problem in which no allocation fails: every rank
    returns 0 and holds no block any more. *)
Lemma main_ok (env : nat → nat → option (nat → D)) (A0 B0 : list D)
    (argv : list string) :
  parse_n argv = Some n → never_null env →
  length A0 = Z.to_nat (n * n) → length B0 = Z.to_nat (n * n) →
  ∃ res, main env A0 B0 argv N = Some res ∧ length res = N ∧
         ∀ r o p, res !! r = Some (o, p) → o = Returned 0 ∧ heap p = ∅.
Proof.
  intros Hparse Henv HA HB. unfold main. rewrite Hparse. simpl.
  destruct (start_group_ok env A0 B0 Henv HA HB) as (g & H & -> & Hg & Hready).
  simpl. rewrite existsb_is_abort_continue, mapM_continuing.
  destruct (pipeline_ok g H A0 B0 Hg Hready HA HB) as (g' & Hrun & Hg').
  fold local_rows. rewrite Hrun. simpl.
  destruct (group_is_mapM (main_finish n) g' N _ (fun _ => ∅) Hg') as (g'' & Hfin & Hg'').
  { intros r p Hr Hloc Hh. apply main_finish_ok; [done| |].
    - rewrite Hh. unfold after_pipeline. destruct Hready as (Hrd & _).
      destruct (Hrd r Hr) as (Hdom & la & lb & lc & H0 & _ & H1 & _ & H2 & _).
      assert (dom (<[2%nat := matmul (chunk (Z.quot n (Z.of_nat N) * n) r A0) B0
                                     (Z.quot n (Z.of_nat N)) n]>
                     (<[1%nat := B0]> (<[0%nat := chunk (Z.quot n (Z.of_nat N) * n) r A0]> (H r))))
              = blocks_of r) as Hd.
      { rewrite !dom_insert_L, Hdom. apply set_eq. intros x.
        rewrite !elem_of_union, !elem_of_singleton. unfold blocks_of.
        case_decide; rewrite !elem_of_union, !elem_of_singleton; tauto. }
      simpl. destruct (decide (r = 0%nat)) as [->|Hr0]; [|done].
      rewrite dom_insert_L, Hd. apply set_eq. intros x.
      rewrite !elem_of_union, !elem_of_singleton. unfold blocks_of. simpl.
      rewrite !elem_of_union, !elem_of_singleton. tauto.
    - intros ->. rewrite Hh. unfold after_pipeline. simpl.
      eexists. split; [apply lookup_insert_eq|]. rewrite length_matmul by lia. done. }
  unfold on_each. rewrite Hfin. simpl. eexists. split; [done|].
  destruct Hg'' as (Hlen & Hall). split; [by rewrite length_fmap|].
  intros r o p. rewrite list_lookup_fmap.
  destruct (g'' !! r) as [q|] eqn:Hq; simpl; [|done]. intros [= <- <-].
  split; [done|]. by destruct (Hall r q Hq).
Qed.

End Pipeline.

(** ** What every defined run preserves

    The lemmas above follow a run in which nothing fails.  These follow any
    run that is defined: whatever the allocator answers and whatever the
    sizes, a process keeps its locals and holds the same blocks from the
    end of start-up to the clean-up. *)

Lemma kept_refl (p : proc) : kept p p.
Proof. split; [apply same_locals_refl|done]. Qed.

Lemma kept_trans (p1 p2 p3 : proc) : kept p1 p2 → kept p2 p3 → kept p1 p3.
Proof.
  intros ((A1 & A2 & A3 & A4 & A5 & A6 & A7) & Hd1)
         ((B1 & B2 & B3 & B4 & B5 & B6 & B7) & Hd2).
  split; [|congruence]. repeat split; congruence.
Qed.

Lemma kept_log (e : event) (p : proc) : kept p (log e p).
Proof. split; [by repeat split|done]. Qed.

Lemma kept_say0 (m : message) (p : proc) : kept p (say0 m p).
Proof. unfold say0. case_decide; [apply kept_log|apply kept_refl]. Qed.

Lemma kept_set_heap (h : mem) (p : proc) : dom h = dom (heap p) → kept p (set_heap h p).
Proof. intros Hd. split; [by repeat split|done]. Qed.

Lemma locals_ok_kept (r : nat) (p p' : proc) : kept p p' → locals_ok r p → locals_ok r p'.
Proof. intros [Hs _]. by apply locals_ok_same. Qed.

Lemma dom_insert_present (h : mem) (b : nat) (l l' : list D) :
  h !! b = Some l → dom (<[b := l']> h) = dom h.
Proof.
  intros Hl. rewrite dom_insert_L. apply set_eq. intros x.
  rewrite elem_of_union, elem_of_singleton, !elem_of_dom.
  split; [intros [->|?]; [by eexists|done]|by right].
Qed.

Lemma store_dom (h h' : mem) (q : ptr) (i : Z) (v : D) :
  store h q i v = Some h' → dom h' = dom h.
Proof.
  intros H. apply store_Some in H as (b & l & -> & Hl & _ & ->).
  by eapply dom_insert_present.
Qed.

Lemma write_buf_kept (p p' : proc) (q : ptr) (vals : list D) :
  write_buf p q vals = Some p' → kept p p'.
Proof.
  unfold write_buf. destruct q as [|b]; [done|].
  destruct (heap p !! b) as [l|] eqn:Hl; simpl; [|done].
  case_decide; [|done]. intros [= <-].
  apply kept_set_heap. by eapply dom_insert_present.
Qed.

Lemma group_kept_refl (g : list proc) : group_kept g g.
Proof. split; [done|]. intros r p Hp. exists p. split; [done|apply kept_refl]. Qed.

Lemma group_kept_trans (g1 g2 g3 : list proc) :
  group_kept g1 g2 → group_kept g2 g3 → group_kept g1 g3.
Proof.
  intros (L1 & H1) (L2 & H2). split; [congruence|].
  intros r p3 Hp3. destruct (H2 r p3 Hp3) as (p2 & Hp2 & K2).
  destruct (H1 r p2 Hp2) as (p1 & Hp1 & K1).
  exists p1. split; [done|]. by eapply kept_trans.
Qed.

Lemma group_kept_fmap (f : proc → proc) (g : list proc) :
  (∀ p, kept p (f p)) → group_kept g (f <$> g).
Proof.
  intros Hf. split; [by rewrite length_fmap|].
  intros r p'. rewrite list_lookup_fmap.
  destruct (g !! r) as [p|]; simpl; [|done]. intros [= <-]. by exists p.
Qed.

Lemma group_kept_mapM (f : proc → option proc) (g g' : list proc) :
  (∀ p p', f p = Some p' → kept p p') → mapM f g = Some g' → group_kept g g'.
Proof.
  intros Hf Hm. apply mapM_Some_1 in Hm. split; [symmetry; by eapply Forall2_length|].
  intros r p' Hp'. destruct (Forall2_lookup_r _ _ _ _ _ Hm Hp') as (p & Hp & Hfp).
  exists p. split; [done|]. by apply Hf.
Qed.

Lemma group_kept_imapM (f : nat → proc → option proc) (g g' : list proc) :
  (∀ r p p', f r p = Some p' → kept p p') →
  mapM (fun rq : nat * proc => f rq.1 rq.2) (imap pair g) = Some g' →
  group_kept g g'.
Proof.
  intros Hf Hm. apply mapM_Some_1 in Hm.
  split; [pose proof (Forall2_length _ _ _ Hm) as Hl; by rewrite length_imap in Hl|].
  intros r p' Hp'. destruct (Forall2_lookup_r _ _ _ _ _ Hm Hp') as ([r0 p] & Hp & Hfp).
  rewrite list_lookup_imap in Hp. destruct (g !! r) as [p0|]; simpl in Hp; [|done].
  inversion Hp; subst. exists p. split; [done|]. by eapply Hf.
Qed.

Lemma MPI_Scatter_kept (sb rb : proc → ptr) (sc rc : Z) (root : nat) (g g' : list proc) :
  MPI_Scatter sb sc rb rc root g = Some g' → group_kept g g'.
Proof.
  unfold MPI_Scatter. destruct (g !! root) as [rp|]; simpl; [|done].
  case_decide; [|done]. destruct (read_buf rp _ _) as [all|]; simpl; [|done].
  apply (group_kept_imapM
           (fun r p => q ← write_buf p (rb p) (chunk sc r all); Some (log EvScatter q))).
  intros r p p' Hp. destruct (write_buf p _ _) as [q|] eqn:Hq; simpl in Hp; [|done].
  injection Hp as <-. eapply kept_trans; [by eapply write_buf_kept|apply kept_log].
Qed.

Lemma MPI_Bcast_kept (buf : proc → ptr) (count : Z) (root : nat) (g g' : list proc) :
  MPI_Bcast buf count root g = Some g' → group_kept g g'.
Proof.
  unfold MPI_Bcast. destruct (g !! root) as [rp|]; simpl; [|done].
  destruct (read_buf rp _ _) as [data|]; simpl; [|done].
  apply group_kept_mapM. intros p p' Hp.
  destruct (write_buf p _ _) as [q|] eqn:Hq; simpl in Hp; [|done].
  injection Hp as <-. eapply kept_trans; [by eapply write_buf_kept|apply kept_log].
Qed.

Lemma MPI_Gather_kept (sb rb : proc → ptr) (sc rc : Z) (root : nat) (g g' : list proc) :
  MPI_Gather sb sc rb rc root g = Some g' → group_kept g g'.
Proof.
  unfold MPI_Gather. case_decide; [|done].
  destruct (mapM _ g) as [parts|]; simpl; [|done].
  destruct (g !! root) as [rp|] eqn:Hrp; simpl; [|done].
  destruct (write_buf rp _ _) as [rp'|] eqn:Hw; simpl; [|done].
  intros [= <-]. apply write_buf_kept in Hw.
  apply (group_kept_trans _ (<[root := rp']> g)); [|apply group_kept_fmap, kept_log].
  split; [by rewrite length_insert|].
  intros r p' Hp'. destruct (decide (r = root)) as [->|Hne].
  - rewrite list_lookup_insert_eq in Hp' by (by eapply lookup_lt_Some).
    injection Hp' as <-. by exists rp.
  - rewrite list_lookup_insert_ne in Hp' by done. exists p'. split; [done|apply kept_refl].
Qed.

Lemma copy_B_kept (n : Z) (p p' : proc) : copy_B n p = Some p' → kept p p'.
Proof.
  unfold copy_B. destruct (int_mul n n) as [nn|]; simpl; [|done].
  destruct (for_loop _ _ _ _) as [h|] eqn:Hloop; simpl; [|done]. intros [= <-].
  apply kept_set_heap. revert Hloop.
  apply (for_loop_partial (fun h' => dom h' = dom (heap p))); [done|].
  intros i s1 s2 _ Hs1 Hb. destruct (load s1 _ _); simpl in Hb; [|done].
  apply store_dom in Hb. congruence.
Qed.

Lemma pipeline_kept (n local_rows : Z) (g g' : list proc) :
  pipeline n local_rows g = Some g' → group_kept g g'.
Proof.
  unfold pipeline. intros H.
  destruct (phase_scatter n local_rows g) as [g1|] eqn:H1; simpl in H; [|done].
  destruct (phase_bcast n g1) as [g2|] eqn:H2; simpl in H; [|done].
  destruct (phase_multiply n local_rows g2) as [g3|] eqn:H3; simpl in H; [|done].
  assert (group_kept g g1) as K1.
  { revert H1. unfold phase_scatter, MPI_Barrier. simpl.
    destruct (int_mul local_rows n) as [cnt|]; simpl; [|done]. intros H1.
    apply MPI_Scatter_kept in H1. eapply group_kept_trans; [|exact H1].
    eapply group_kept_trans; [eapply group_kept_trans|];
      apply group_kept_fmap; intros; (apply kept_log || apply kept_say0). }
  assert (group_kept g1 g2) as K2.
  { revert H2. unfold phase_bcast, on_each.
    destruct (mapM _ (say0 MsgBroadcasting <$> g1)) as [g1'|] eqn:Hc; simpl; [|done].
    destruct (int_mul n n) as [nn|]; simpl; [|done]. intros H2.
    apply MPI_Bcast_kept in H2. eapply group_kept_trans; [|exact H2].
    eapply group_kept_trans; [apply group_kept_fmap, kept_say0|].
    eapply group_kept_mapM; [|exact Hc].
    intros p p' Hp. simpl in Hp.
    destruct (decide (world_rank p = 0)); [by eapply copy_B_kept|].
    injection Hp as <-. apply kept_refl. }
  assert (group_kept g2 g3) as K3.
  { revert H3. unfold phase_multiply, on_each. intros H3.
    eapply group_kept_trans; [apply group_kept_fmap, kept_say0|].
    eapply group_kept_mapM; [|exact H3].
    intros p p' Hp. simpl in Hp.
    destruct (multiply_matrices _ _ _ _ _ _) as [h|] eqn:Hm; simpl in Hp; [|done].
    injection Hp as <-. apply kept_set_heap.
    by apply multiply_matrices_dom in Hm. }
  assert (group_kept g3 g') as K4.
  { revert H. unfold phase_gather.
    destruct (int_mul local_rows n) as [cnt|]; simpl; [|done].
    destruct (MPI_Gather _ _ _ _ _ _) as [g4|] eqn:Hg; simpl; [|done].
    unfold MPI_Barrier. simpl. intros [= <-]. apply MPI_Gather_kept in Hg.
    eapply group_kept_trans; [apply group_kept_fmap, kept_say0|].
    eapply group_kept_trans; [exact Hg|].
    eapply group_kept_trans; apply group_kept_fmap; intros; apply kept_log. }
  eapply group_kept_trans; [exact K1|]. eapply group_kept_trans; [exact K2|].
  eapply group_kept_trans; [exact K3|exact K4].
Qed.

Lemma print_matrix_kept (q : ptr) (rows cols : Z) (name : string) (p p' : proc) :
  print_matrix q rows cols name p = Some p' → kept p p' ∧ heap p' = heap p.
Proof.
  unfold print_matrix.
  set (p0 := if bool_decide _ then say MsgTooLarge (say _ p) else say _ p).
  assert (kept p p0 ∧ heap p0 = heap p) as Hp0.
  { unfold p0. case_bool_decide; split; try done;
      repeat (eapply kept_trans; [|apply kept_log]); apply kept_refl. }
  apply (for_loop_partial (fun p1 => kept p p1 ∧ heap p1 = heap p)); [done|].
  intros i s1 s2 _ (K1 & Hh1) Hb.
  destruct (for_loop _ _ _ s1) as [s1'|] eqn:Hin; simpl in Hb; [|done].
  injection Hb as <-.
  assert (kept p s1' ∧ heap s1' = heap p) as (K & Hh).
  { revert Hin. apply (for_loop_partial (fun p1 => kept p p1 ∧ heap p1 = heap p)); [done|].
    intros j t1 t2 _ (Kt & Hht) Hb.
    destruct (idx _ _ _); simpl in Hb; [|done].
    destruct (load _ _ _); simpl in Hb; [|done]. injection Hb as <-.
    split; [eapply kept_trans; [exact Kt|apply kept_log]|done]. }
  split; [eapply kept_trans; [exact K|apply kept_log]|done].
Qed.

Lemma initialize_matrix_dom (vals : list D) (q : ptr) (rows cols : Z) (h h' : mem) :
  initialize_matrix vals q rows cols h = Some h' → dom h' = dom h.
Proof.
  unfold initialize_matrix. destruct (int_mul rows cols) as [rc|]; simpl; [|done].
  apply (for_loop_partial (fun h1 => dom h1 = dom h)); [done|].
  intros i s1 s2 _ Hs1 Hb. apply store_dom in Hb. congruence.
Qed.

(** [malloc] answers NULL and leaves the heap alone, or answers a new
    block numbered by the call. *)
Lemma malloc_spec (env : nat → option (nat → D)) (count : Z) (p p' : proc) (q : ptr) :
  malloc env count p = (q, p') →
  brk p' = Datatypes.S (brk p) ∧ same_locals p p' ∧
  ((q = NULL ∧ heap p' = heap p) ∨
   (q = Ptr (brk p) ∧ dom (heap p') = {[brk p]} ∪ dom (heap p))).
Proof.
  unfold malloc. destruct (env (brk p)) as [init|].
  - case_decide; intros [= <- <-]; simpl.
    + split; [done|]. split; [by repeat split|]. right. split; [done|].
      by rewrite dom_insert_L.
    + split; [done|]. split; [by repeat split|]. by left.
  - intros [= <- <-]. simpl. split; [done|]. split; [by repeat split|]. by left.
Qed.

(** Lines 128-149: rank 0 goes on holding the three full matrices on top of
    what it held, or aborts. *)
Lemma main_root_setup_progress (env : nat → option (nat → D)) (A0 B0 : list D)
    (n : Z) (p : proc) (s : progress) :
  main_root_setup env A0 B0 n p = Some s → brk p = 3%nat →
  match s with
  | Continue p' =>
      world_rank p' = world_rank p ∧
      A_local p' = A_local p ∧ B_local p' = B_local p ∧ C_local p' = C_local p ∧
      A p' = Ptr 3 ∧ B p' = Ptr 4 ∧ C p' = Ptr 5 ∧
      dom (heap p') = {[3; 4; 5]}%nat ∪ dom (heap p)
  | Stop o _ => o = Aborted 1
  end.
Proof.
  unfold main_root_setup. intros H Hbrk.
  destruct (int_mul n n) as [nn|]; simpl in H; [|done].
  destruct (malloc env nn (say MsgInitializing p)) as [a q1] eqn:M1.
  destruct (malloc env nn q1) as [b q2] eqn:M2.
  destruct (malloc env nn q2) as [c q3] eqn:M3.
  apply malloc_spec in M1 as (B1 & S1 & C1).
  apply malloc_spec in M2 as (B2 & S2 & C2).
  apply malloc_spec in M3 as (B3 & S3 & C3).
  simpl in B1, C1. rewrite Hbrk in B1, C1. rewrite B1 in B2, C2. rewrite B2 in C3.
  destruct (decide (a = NULL ∨ b = NULL ∨ c = NULL)) as [Hnull|Hnn].
  { by injection H as <-. }
  destruct C1 as [[-> _]|[-> D1]]; [tauto|].
  destruct C2 as [[-> _]|[-> D2]]; [tauto|].
  destruct C3 as [[-> _]|[-> D3]]; [tauto|].
  set (q4 := set_full_ptrs (Ptr 3) (Ptr 4) (Ptr 5) q3) in H.
  destruct (initialize_matrix A0 (Ptr 3) n n (heap q3)) as [h1|] eqn:I1; simpl in H; [|done].
  destruct (initialize_matrix B0 (Ptr 4) n n h1) as [h2|] eqn:I2; simpl in H; [|done].
  apply initialize_matrix_dom in I1, I2.
  assert (same_locals (say MsgInitializing p) q3) as K3.
  { destruct S1 as (X1 & X2 & X3 & X4 & X5 & X6 & X7),
             S2 as (Y1 & Y2 & Y3 & Y4 & Y5 & Y6 & Y7),
             S3 as (Z1 & Z2 & Z3 & Z4 & Z5 & Z6 & Z7).
    repeat split; congruence. }
  destruct K3 as (X1 & X2 & X3 & X4 & X5 & X6 & X7).
  assert (dom h2 = {[3; 4; 5]}%nat ∪ dom (heap p)) as Hdom.
  { rewrite I2, I1, D3, D2, D1. simpl.
    apply set_eq. intros x. rewrite !elem_of_union, !elem_of_singleton. tauto. }
  assert (∀ q, kept (set_heap h2 q4) q → heap q = h2 →
            world_rank q = world_rank p ∧
            A_local q = A_local p ∧ B_local q = B_local p ∧ C_local q = C_local p ∧
            A q = Ptr 3 ∧ B q = Ptr 4 ∧ C q = Ptr 5 ∧
            dom (heap q) = {[3; 4; 5]}%nat ∪ dom (heap p)) as Hfin.
  { intros q ((Y1 & Y2 & Y3 & Y4 & Y5 & Y6 & Y7) & _) Hq.
    rewrite Y1, Y2, Y3, Y4, Y5, Y6, Y7, Hq. simpl.
    rewrite X1, X5, X6, X7. done. }
  destruct (decide (n ≤ 10)) as [Hsmall|Hbig].
  - destruct (print_matrix (Ptr 3) n n "Matrix A" (set_heap h2 q4)) as [q5|] eqn:P1;
      simpl in H; [|done].
    destruct (print_matrix (Ptr 4) n n "Matrix B" q5) as [q6|] eqn:P2; simpl in H; [|done].
    injection H as <-.
    apply print_matrix_kept in P1 as (K5 & H5). apply print_matrix_kept in P2 as (K6 & H6).
    apply Hfin.
    + eapply kept_trans; [exact K5|]. eapply kept_trans; [exact K6|apply kept_log].
    + simpl. by rewrite H6, H5.
  - simpl in H. injection H as <-. apply Hfin; [apply kept_log|done].
Qed.

(** Lines 70-149 on rank [r], whatever the allocator answers: a rank that
    goes on holds exactly its blocks, a rank that returns holds none. *)
Lemma main_start_progress (env : nat → option (nat → D)) (A0 B0 : list D)
    (n N : Z) (r : nat) (s : progress) :
  main_start env A0 B0 n N (Z.of_nat r) = Some s →
  match s with
  | Continue p => locals_ok r p ∧ dom (heap p) = blocks_of r
  | Stop (Returned _) p => heap p = ∅
  | Stop _ _ => True
  end.
Proof.
  unfold main_start. intros H.
  destruct (decide (n < N)).
  { injection H as <-. unfold say0. by case_decide. }
  destruct (decide (Z.rem n N ≠ 0)).
  { injection H as <-. unfold say0. by case_decide. }
  destruct (if decide (Z.of_nat r = 0) then _ else _) as [p1|] eqn:E; simpl in H; [|done].
  assert (heap p1 = ∅ ∧ brk p1 = 0%nat ∧ world_rank p1 = Z.of_nat r) as (Hh1 & Hb1 & Hr1).
  { destruct (decide (Z.of_nat r = 0)).
    - destruct (int_mul n n); simpl in E; [|done]. by injection E as <-.
    - by injection E as <-. }
  destruct (int_mul (Z.quot n N) n) as [cnt|]; simpl in H; [|done].
  destruct (int_mul n n) as [nn|]; simpl in H; [|done].
  destruct (malloc env cnt p1) as [a q1] eqn:M1.
  destruct (malloc env nn q1) as [b q2] eqn:M2.
  destruct (malloc env cnt q2) as [c q3] eqn:M3.
  apply malloc_spec in M1 as (B1 & S1 & C1).
  apply malloc_spec in M2 as (B2 & S2 & C2).
  apply malloc_spec in M3 as (B3 & S3 & C3).
  rewrite Hb1 in B1, C1. rewrite B1 in B2, C2. rewrite B2 in B3, C3.
  destruct (decide (a = NULL ∨ b = NULL ∨ c = NULL)) as [Hnull|Hnn].
  { by injection H as <-. }
  destruct C1 as [[-> _]|[-> D1]]; [tauto|].
  destruct C2 as [[-> _]|[-> D2]]; [tauto|].
  destruct C3 as [[-> _]|[-> D3]]; [tauto|].
  destruct S1 as (X1 & X2 & X3 & X4 & X5 & X6 & X7),
           S2 as (Y1 & Y2 & Y3 & Y4 & Y5 & Y6 & Y7),
           S3 as (Z1 & Z2 & Z3 & Z4 & Z5 & Z6 & Z7).
  assert (dom (heap q3) = {[0; 1; 2]}%nat) as Hdom.
  { rewrite D3, D2, D1, Hh1, dom_empty_L. apply set_eq. intros x.
    rewrite !elem_of_union, !elem_of_singleton, elem_of_empty. tauto. }
  destruct (decide (Z.of_nat r = 0)) as [Hr0|Hr0].
  - assert (r = 0%nat) as -> by lia.
    apply main_root_setup_progress in H; [|done].
    destruct s as [o p|p]; [by rewrite H|].
    destruct H as (W & L1 & L2 & L3 & F1 & F2 & F3 & Hd). simpl in W, L1, L2, L3, Hd.
    split.
    + split; [congruence|]. by repeat split.
    + rewrite Hd, Hdom. unfold blocks_of. simpl. apply set_eq. intros x.
      rewrite !elem_of_union, !elem_of_singleton. tauto.
  - injection H as <-. split.
    + split; [simpl; congruence|]. split; [done|]. split; [done|]. split; [done|].
      intros ->. done.
    + simpl. rewrite Hdom. unfold blocks_of. rewrite decide_False by lia. done.
Qed.

Lemma main_finish_released (n : Z) (r : nat) (p p' : proc) :
  locals_ok r p → dom (heap p) = blocks_of r →
  main_finish n p = Some p' → heap p' = ∅.
Proof.
  intros Hloc Hdom. unfold main_finish. intros H.
  destruct (main_report n p) as [p1|] eqn:E; simpl in H; [|done].
  assert (kept p p1) as K.
  { revert E. unfold main_report. destruct (decide (world_rank p = 0)).
    - destruct (decide (n ≤ 10)).
      + destruct (print_matrix _ _ _ _ _) as [q|] eqn:P; simpl; [|done].
        intros [= <-]. apply print_matrix_kept in P as (K & _).
        eapply kept_trans; [exact K|]. eapply kept_trans; apply kept_log.
      + simpl. intros [= <-]. eapply kept_trans; apply kept_log.
    - intros [= <-]. apply kept_refl. }
  destruct (main_cleanup_ok r p1) as (p2 & Hrun & _ & Hh).
  - by eapply locals_ok_kept.
  - destruct K as (_ & ->). done.
  - congruence.
Qed.

(** Every process that returns from [main] holds no block. *)
Lemma main_returns_released (env : nat → nat → option (nat → D)) (A0 B0 : list D)
    (argv : list string) (N : nat) (res : list (outcome * proc)) :
  main env A0 B0 argv N = Some res →
  ∀ r s p, res !! r = Some (Returned s, p) → heap p = ∅.
Proof.
  unfold main. intros H r s p Hr.
  destruct (parse_n argv) as [n|]; simpl in H; [|done].
  destruct (start_group env A0 B0 n N) as [ss|] eqn:Hss; simpl in H; [|done].
  assert (∀ i x, ss !! i = Some x →
            main_start (env i) A0 B0 n (Z.of_nat N) (Z.of_nat i) = Some x) as Hstart.
  { intros i x Hi. unfold start_group in Hss. apply mapM_Some_1 in Hss.
    destruct (Forall2_lookup_r _ _ _ _ _ Hss Hi) as (i' & Hi' & Hx).
    apply lookup_seq in Hi' as [-> _]. done. }
  destruct (existsb is_abort ss).
  { injection H as <-. rewrite list_lookup_fmap in Hr.
    destruct (ss !! r) as [x|]; simpl in Hr; [|done].
    destruct x as [[?|?|] ?|?]; simpl in Hr; congruence. }
  destruct (mapM continuing ss) as [g|] eqn:Hg.
  - destruct (pipeline n _ g) as [g1|] eqn:Hp; simpl in H; [|done].
    destruct (on_each (main_finish n) g1) as [g2|] eqn:Hf; simpl in H; [|done].
    injection H as <-. rewrite list_lookup_fmap in Hr.
    destruct (g2 !! r) as [p2|] eqn:Hp2; simpl in Hr; [|done].
    injection Hr as _ <-.
    unfold on_each in Hf. apply mapM_Some_1 in Hf.
    destruct (Forall2_lookup_r _ _ _ _ _ Hf Hp2) as (p1 & Hp1 & Hfin).
    apply pipeline_kept in Hp as (_ & Hkept).
    destruct (Hkept r p1 Hp1) as (p0 & Hp0 & K).
    apply mapM_Some_1 in Hg.
    destruct (Forall2_lookup_r _ _ _ _ _ Hg Hp0) as (x & Hx & Hc).
    destruct x as [|q]; [done|]. injection Hc as ->.
    apply Hstart, main_start_progress in Hx as (Hloc & Hdom).
    apply (main_finish_released n r p1 p2); [by eapply locals_ok_kept| |done].
    destruct K as (_ & ->). done.
  - apply mapM_Some_1 in H.
    destruct (Forall2_lookup_r _ _ _ _ _ H Hr) as (x & Hx & Hst).
    destruct x as [o q|q]; [|done]. injection Hst as -> ->.
    by apply Hstart, main_start_progress in Hx.
Qed.

(** ** The product with the identity matrix *)

Lemma elt_identity (d1 : D) (n k j : Z) :
  0 ≤ k < n → 0 ≤ j < n →
  elt (identity d1 n) (k * n + j) = if decide (k = j) then d1 else d0.
Proof.
  intros Hk Hj. apply elt_lookup. unfold identity.
  by rewrite lookup_tabulate_seqZ.
Qed.

Lemma dot_prefix_identity (d1 : D) (A0 : list D) (n i j : Z) (m : nat) :
  identity_laws d1 A0 → length A0 = Z.to_nat (n * n) →
  0 ≤ i < n → 0 ≤ j < n → Z.of_nat m ≤ n →
  dot_prefix A0 (identity d1 n) n i j (Z.of_nat m)
  = if decide (Z.of_nat m ≤ j) then d0 else dadd d0 (elt A0 (i * n + j)).
Proof.
  intros Hreg HA Hi Hj. induction m as [|m IH]; intros Hm.
  - rewrite decide_True by lia. done.
  - replace (Z.of_nat (Datatypes.S m)) with (Z.of_nat m + 1) by lia.
    rewrite dot_prefix_succ by lia. rewrite IH by lia.
    rewrite elt_identity by lia.
    assert (∀ k, 0 ≤ k < n → elt A0 (i * n + k) ∈ A0) as Hin.
    { intros k Hk. apply list_elem_of_lookup. exists (Z.to_nat (i * n + k)).
      apply lookup_elt. nia. }
    destruct (Hreg (elt A0 (i * n + Z.of_nat m))) as (H1 & H0 & Hx); [apply Hin; lia|].
    destruct (decide (Z.of_nat m = j)) as [Heq|Hne].
    + rewrite decide_True by lia. rewrite decide_False by lia. by rewrite H1, <- Heq.
    + destruct (decide (Z.of_nat m ≤ j)) as [Hle|Hgt].
      * rewrite decide_True by lia. done.
      * rewrite decide_False by lia. apply Hx. apply Hin. lia.
Qed.

(** The kernel's product of A by the identity: every entry [a] comes out
    as [0.0 + a]. *)
Lemma matmul_identity (d1 : D) (A0 : list D) (n : Z) :
  0 ≤ n → identity_laws d1 A0 → length A0 = Z.to_nat (n * n) →
  matmul A0 (identity d1 n) n n = dadd d0 <$> A0.
Proof.
  intros Hn Hreg HA. symmetry. unfold matmul.
  apply tabulate_ext; [done|done|by rewrite length_fmap|].
  intros i j Hi Hj. unfold dot_naive.
  replace (dot_prefix A0 (identity d1 n) n i j n)
    with (dot_prefix A0 (identity d1 n) n i j (Z.of_nat (Z.to_nat n)))
    by (by rewrite Z2Nat.id).
  rewrite dot_prefix_identity by (done || lia).
  rewrite decide_False by lia. rewrite list_lookup_fmap.
  rewrite lookup_elt by nia. done.
Qed.

(** ** Rejected configurations *)

Lemma main_start_rejects (env : nat → option (nat → D)) (A0 B0 : list D)
    (n : Z) (N r : nat) :
  n < Z.of_nat N ∨ Z.rem n (Z.of_nat N) ≠ 0 →
  ∃ p, main_start env A0 B0 n (Z.of_nat N) (Z.of_nat r) = Some (Stop (Returned 1) p) ∧
       heap p = ∅ ∧ brk p = 0%nat ∧
       rev (out p) = rejected_trace n (Z.of_nat N) r.
Proof.
  intros Hbad. unfold main_start, rejected_trace, rejection, say0. simpl.
  assert (∀ m, ∃ p,
            log EvFinalize (if decide (Z.of_nat r = 0) then say m (proc_init (Z.of_nat r))
                            else proc_init (Z.of_nat r)) = p ∧
            heap p = ∅ ∧ brk p = 0%nat ∧
            rev (out p) = EvInit :: (if decide (r = 0%nat) then [EvPrint m] else [])
                                 ++ [EvFinalize]) as Hp.
  { intros m. eexists. split; [done|].
    destruct (decide (r = 0%nat)) as [->|Hr]; [done|].
    rewrite decide_False by lia. done. }
  destruct (decide (n < Z.of_nat N)) as [Hlt|Hge].
  - destruct (Hp (MsgSizeTooSmall n (Z.of_nat N))) as (p & -> & Hrest). by exists p.
  - destruct Hbad as [?|Hrem]; [lia|]. rewrite decide_True by done.
    destruct (Hp (MsgNotDivisible n (Z.of_nat N))) as (p & -> & Hrest). by exists p.
Qed.

Lemma main_rejects (env : nat → nat → option (nat → D)) (A0 B0 : list D)
    (argv : list string) (n : Z) (N : nat) :
  (0 < N)%nat → parse_n argv = Some n →
  n < Z.of_nat N ∨ Z.rem n (Z.of_nat N) ≠ 0 →
  ∃ res, main env A0 B0 argv N = Some res ∧ length res = N ∧
         ∀ r o p, res !! r = Some (o, p) →
           o = Returned 1 ∧ heap p = ∅ ∧ brk p = 0%nat ∧
           rev (out p) = rejected_trace n (Z.of_nat N) r.
Proof.
  intros HN Hparse Hbad. unfold main. rewrite Hparse. simpl. unfold start_group.
  destruct (mapM_indexed
    (fun r => main_start (env r) A0 B0 n (Z.of_nat N) (Z.of_nat r))
    (fun _ r s => ∃ p, s = Stop (Returned 1) p ∧ heap p = ∅ ∧ brk p = 0%nat ∧
                       rev (out p) = rejected_trace n (Z.of_nat N) r)
    (seq 0 N)) as (ss & -> & Hlen & Hall).
  { intros i r Hi. destruct (main_start_rejects (env r) A0 B0 n N r Hbad) as (p & Hp & Hrest).
    exists (Stop (Returned 1) p). split; [done|]. by exists p. }
  rewrite length_seq in Hlen. simpl.
  assert (∀ r s, ss !! r = Some s → ∃ p, s = Stop (Returned 1) p ∧ heap p = ∅ ∧
            brk p = 0%nat ∧ rev (out p) = rejected_trace n (Z.of_nat N) r) as Hs.
  { intros r s Hr. destruct (Hall r r) as (s' & Hs' & Hrest).
    { apply lookup_lt_Some in Hr. by rewrite lookup_seq_lt by lia. }
    assert (s = s') as -> by congruence. done. }
  assert (existsb is_abort ss = false) as ->.
  { apply not_true_is_false. intros Hex. apply existsb_exists in Hex as (s & Hin & Hab).
    apply list_elem_of_In, list_elem_of_lookup in Hin as (r & Hr).
    destruct (Hs r s Hr) as (p & -> & _). done. }
  assert (mapM continuing ss = None) as ->.
  { apply mapM_None. destruct (lookup_lt_is_Some_2 ss 0%nat) as [s Hs0]; [lia|].
    apply Exists_exists. exists s. split; [by eapply list_elem_of_lookup_2|].
    destruct (Hs _ _ Hs0) as (p & -> & _). done. }
  destruct (mapM_indexed stopped
    (fun r _ op => op.1 = Returned 1 ∧ heap op.2 = ∅ ∧ brk op.2 = 0%nat ∧
                   rev (out op.2) = rejected_trace n (Z.of_nat N) r) ss)
    as (res & -> & Hlen' & Hres).
  { intros r s Hr. destruct (Hs r s Hr) as (p & -> & Hrest). by exists (Returned 1, p). }
  exists res. split; [done|]. split; [lia|].
  intros r o p Hr. destruct (lookup_lt_is_Some_2 ss r) as [s Hsr].
  { apply lookup_lt_Some in Hr. lia. }
  destruct (Hres r s Hsr) as (op & Hop & Hrest). rewrite Hr in Hop.
  injection Hop as <-. done.
Qed.

Lemma rejected_trace_quiet (n N : Z) (r : nat) :
  Forall (fun e => is_collective e = false ∧ is_malloc e = false) (rejected_trace n N r).
Proof.
  unfold rejected_trace. case_decide; repeat constructor.
Qed.

(** ** Beyond [INT_MAX] elements *)

Lemma int_chk_out (z : Z) : INT_MAX < z → int_chk z = None.
Proof.
  intros H. unfold int_chk, in_int.
  replace (z <=? INT_MAX) with false by (symmetry; apply Z.leb_gt; lia).
  by rewrite andb_false_r.
Qed.

(** The embedding says nothing about a problem whose element count is not
    a C int: rank 0 computes [n * n] in [int] at line 112. *)
Lemma oversized_problem_undefined (env : nat → nat → option (nat → D))
    (A0 B0 : list D) (n : Z) (N : nat) :
  (0 < N)%nat → Z.of_nat N ≤ n → Z.rem n (Z.of_nat N) = 0 → INT_MAX < n * n →
  start_group env A0 B0 n N = None.
Proof.
  intros HN HnN Hdiv Hbig. unfold start_group. apply mapM_None.
  apply Exists_exists. exists 0%nat. split; [apply list_elem_of_In, in_seq; lia|].
  unfold main_start. rewrite decide_False by lia.
  rewrite decide_False by (intros ?; done).
  rewrite decide_True by done.
  assert (int_mul n n = None) as -> by (unfold int_mul; by apply int_chk_out).
  reflexivity.
Qed.

(** ** The properties of the specification *)

(** C1 (as the code has it): for a valid problem [(n, N)] ([N] divides
    [n], [n >= N]) whose element count [n * n] is a C int, and any
    matrices A and B, the run of [N] processes in which no allocation
    fails leaves on rank 0, when the gather has completed, exactly the
    standard product [A x B]; the result is the same for every other
    valid participant count [N']. *)
Theorem pipeline_computes_product (env env' : nat → nat → option (nat → D))
    (A0 B0 : list D) (n : Z) (N N' : nat) :
  (0 < N)%nat → Z.of_nat N ≤ n → Z.rem n (Z.of_nat N) = 0 →
  n * n ≤ INT_MAX →
  never_null env →
  length A0 = Z.to_nat (n * n) → length B0 = Z.to_nat (n * n) →
  gathered_C env A0 B0 n N = Some (matmul A0 B0 n n) ∧
  ((0 < N')%nat → Z.of_nat N' ≤ n → Z.rem n (Z.of_nat N') = 0 → never_null env' →
   gathered_C env' A0 B0 n N' = gathered_C env A0 B0 n N).
Proof.
  intros HN HnN Hdiv Hint Henv HA HB.
  assert (gathered_C env A0 B0 n N = Some (matmul A0 B0 n n)) as Hres
    by (by apply gathered_C_ok).
  split; [done|]. intros HN' HnN' Hdiv' Henv'. rewrite Hres.
  by apply gathered_C_ok.
Qed.

(** C3: when [n < N] or [n % N != 0], every rank returns 1 from [main];
    none has called [malloc] or holds a block, none has issued a scatter,
    broadcast, gather, barrier or reduce, and the whole of what a rank did
    is [MPI_Init], the diagnostic on rank 0 only, and [MPI_Finalize]. *)
Theorem invalid_configuration_rejected (env : nat → nat → option (nat → D))
    (A0 B0 : list D) (argv : list string) (n : Z) (N : nat) :
  (0 < N)%nat → parse_n argv = Some n →
  n < Z.of_nat N ∨ Z.rem n (Z.of_nat N) ≠ 0 →
  ∃ res, main env A0 B0 argv N = Some res ∧ length res = N ∧
         ∀ r o p, res !! r = Some (o, p) →
           o = Returned 1 ∧
           live p = ∅ ∧ brk p = 0%nat ∧
           Forall (fun e => is_collective e = false ∧ is_malloc e = false) (out p) ∧
           rev (out p) = rejected_trace n (Z.of_nat N) r.
Proof.
  intros HN Hparse Hbad.
  destruct (main_rejects env A0 B0 argv n N HN Hparse Hbad) as (res & Hres & Hlen & Hall).
  exists res. split; [done|]. split; [done|].
  intros r o p Hr. destruct (Hall r o p Hr) as (-> & Hheap & Hbrk & Hout).
  split; [done|]. split; [unfold live; by rewrite Hheap, dom_empty_L|].
  split; [done|]. split; [|done].
  rewrite <- (rev_involutive (out p)), Hout. apply Forall_rev, rejected_trace_quiet.
Qed.



(** C6: in a run on a valid problem with [n * n] a C int and no failed
    allocation, when the broadcast of line 173 has completed every rank
    holds in its [B_local] exactly the contents of the root's B, the root
    included. *)
Theorem bcast_replicates_B (env : nat → nat → option (nat → D)) (A0 B0 : list D)
    (n : Z) (N : nat) :
  (0 < N)%nat → Z.of_nat N ≤ n → Z.rem n (Z.of_nat N) = 0 →
  n * n ≤ INT_MAX →
  never_null env →
  length A0 = Z.to_nat (n * n) → length B0 = Z.to_nat (n * n) →
  ∃ g0 g1 g2,
    start_group env A0 B0 n N = Some (Continue <$> g0) ∧
    phase_scatter n (Z.quot n (Z.of_nat N)) g0 = Some g1 ∧
    phase_bcast n g1 = Some g2 ∧
    length g2 = N ∧
    (∃ p0, g2 !! 0%nat = Some p0 ∧ buffer (heap p0) (B p0) = Some B0) ∧
    ∀ r p, g2 !! r = Some p → buffer (heap p) (B_local p) = Some B0.
Proof.
  intros HN HnN Hdiv Hint Henv HA HB.
  destruct (start_group_ok n N HN HnN Hdiv Hint env A0 B0 Henv HA HB)
    as (g0 & H & Hstart & Hg0 & Hrd & H3 & H4 & H5).
  destruct (phase_scatter_ok n N HN HnN Hdiv Hint g0 H A0 Hg0 HA H3) as (g1 & Hrun1 & Hg1).
  { intros r Hr. destruct (Hrd r Hr) as (_ & la & _ & _ & Hla & Hlen & _). by exists la. }
  destruct (phase_bcast_ok n N HN HnN Hdiv Hint g1 _ B0 Hg1 HB) as (g2 & Hrun2 & Hg2).
  { by rewrite lookup_insert_ne. }
  { intros r Hr. destruct (Hrd r Hr) as (_ & _ & lb & _ & _ & _ & Hlb & Hlen & _).
    exists lb. by rewrite lookup_insert_ne. }
  exists g0, g1, g2. repeat (split; [done|]).
  split; [by destruct Hg2|]. split.
  - destruct (group_lookup g2 N _ 0 Hg2 HN) as (p0 & Hp0 & Hloc & Hh).
    exists p0. split; [done|].
    destruct Hloc as (_ & _ & _ & _ & Hroot). destruct (Hroot eq_refl) as (_ & -> & _).
    simpl. rewrite Hh. by rewrite !lookup_insert_ne.
  - intros r p Hp. destruct Hg2 as (_ & Hall).
    destruct (Hall r p Hp) as ((_ & _ & -> & _) & Hh). simpl.
    by rewrite Hh, lookup_insert_eq.
Qed.

(** C8 (as the code has it): in every run, whatever the allocator answers,
    a process that returns from [main], with status 0 or 1, holds no block
    when it does: every buffer it allocated has been freed.  (A process
    that ends in [MPI_Abort] has freed nothing: [abort_path_keeps_buffers].) *)
Theorem buffers_released_on_return (env : nat → nat → option (nat → D))
    (A0 B0 : list D) (argv : list string) (N : nat) (res : list (outcome * proc)) :
  main env A0 B0 argv N = Some res →
  ∀ r s p, res !! r = Some (Returned s, p) → live p = ∅.
Proof.
  intros Hmain r s p Hr. unfold live.
  rewrite (main_returns_released env A0 B0 argv N res Hmain r s p Hr).
  apply dom_empty_L.
Qed.

(** C10: when the command-line argument parses to an [n <= 0] (zero, a
    negative number, or a string with no leading number, which [atoi] reads
    as 0), any group of [N >= 1] processes is stopped by the check
    [n < world_size] of line 83: every rank returns 1, rank 0 alone prints
    that check's message, and no rank has called [malloc] or issued a
    scatter, broadcast, gather, barrier or reduce. *)
Theorem nonpositive_size_rejected (env : nat → nat → option (nat → D))
    (A0 B0 : list D) (prog arg : string) (rest : list string) (n : Z) (N : nat) :
  (0 < N)%nat → atoi arg = Some n → n ≤ 0 →
  ∃ res, main env A0 B0 (prog :: arg :: rest) N = Some res ∧ length res = N ∧
         ∀ r o p, res !! r = Some (o, p) →
           o = Returned 1 ∧
           live p = ∅ ∧ brk p = 0%nat ∧
           Forall (fun e => is_collective e = false ∧ is_malloc e = false) (out p) ∧
           rev (out p)
           = [EvInit] ++ (if decide (r = 0%nat)
                          then [EvPrint (MsgSizeTooSmall n (Z.of_nat N))] else [])
                      ++ [EvFinalize].
Proof.
  intros HN Hatoi Hn.
  destruct (main_rejects env A0 B0 (prog :: arg :: rest) n N HN Hatoi) as (res & Hres & Hlen & Hall);
    [left; lia|].
  exists res. split; [done|]. split; [done|].
  intros r o p Hr. destruct (Hall r o p Hr) as (-> & Hheap & Hbrk & Hout).
  split; [done|]. split; [unfold live; by rewrite Hheap, dom_empty_L|].
  split; [done|]. split.
  - rewrite <- (rev_involutive (out p)), Hout. apply Forall_rev, rejected_trace_quiet.
  - rewrite Hout. unfold rejected_trace, rejection.
    by rewrite (decide_True (P := n < Z.of_nat N)) by lia.
Qed.


(** * Beyond the specification: the rest of matrix-mult.c *)

(** ** More on loops *)

(** A loop that completes has run its body, successfully, at every index
    of its range, from a state the invariant [P] describes. *)
Lemma for_iter_reaches {S : Type} (P : S → Prop) (body : Z → S → option S)
    (k : nat) (i j : Z) (s s' : S) :
  P s →
  (∀ i' s1 s2, i ≤ i' < i + Z.of_nat k → P s1 → body i' s1 = Some s2 → P s2) →
  for_iter k i body s = Some s' → i ≤ j < i + Z.of_nat k →
  ∃ s1 s2, P s1 ∧ body j s1 = Some s2.
Proof.
  revert i s. induction k as [|k IH]; intros i s Hs Hstep; simpl; [lia|].
  destruct (body i s) as [s1|] eqn:Hb; simpl; [|done]. intros Hrun Hj.
  destruct (decide (i = j)) as [->|Hne]; [by exists s, s1|].
  apply (IH (i + 1) s1); [by apply (Hstep i s s1); [lia|done|done]| |done|lia].
  intros i' t1 t2 Hi'. apply Hstep. lia.
Qed.

Lemma for_loop_reaches {S : Type} (P : S → Prop) (body : Z → S → option S)
    (lo hi j : Z) (s s' : S) :
  P s →
  (∀ i s1 s2, lo ≤ i < hi → P s1 → body i s1 = Some s2 → P s2) →
  for_loop lo hi body s = Some s' → lo ≤ j < hi →
  ∃ s1 s2, P s1 ∧ body j s1 = Some s2.
Proof.
  intros Hs Hstep Hrun Hj. unfold for_loop in Hrun.
  apply (for_iter_reaches P body (Z.to_nat (hi - lo)) lo j s s'); [done| |done|lia].
  intros i s1 s2 Hi. apply Hstep. lia.
Qed.

Lemma for_loop_empty {S : Type} (body : Z → S → option S) (lo hi : Z) (s : S) :
  hi ≤ lo → for_loop lo hi body s = Some s.
Proof. intros H. unfold for_loop. by replace (Z.to_nat (hi - lo)) with 0%nat by lia. Qed.

(** ** [initialize_matrix], lines 26-31 *)

Lemma initialize_matrix_run (vals : list D) (b : nat) (l : list D)
    (rows cols : Z) (h : mem) :
  h !! b = Some l →
  INT_MIN ≤ rows * cols ≤ INT_MAX → rows * cols ≤ Z.of_nat (length l) →
  initialize_matrix vals (Ptr b) rows cols h
  = Some (<[b := (elt vals <$> seqZ 0 (rows * cols))
                 ++ drop (Z.to_nat (rows * cols)) l]> h).
Proof.
  intros Hl Hint Hlen. unfold initialize_matrix, int_mul.
  rewrite int_chk_in by done. simpl.
  destruct (decide (0 ≤ rows * cols)) as [Hpos|Hneg].
  - apply (fill_loop _ b l); [done|lia|done].
  - rewrite for_loop_empty by lia. f_equal.
    rewrite seqZ_nil by lia. replace (Z.to_nat (rows * cols)) with 0%nat by lia.
    simpl. by rewrite insert_id.
Qed.

(** X1: called on a block of at least [rows * cols] elements,
    [initialize_matrix] stores the values it draws, in the order drawn, in
    the first [rows * cols] elements of that block; the rest of the block
    and every other block keep their contents. *)
Theorem initialize_matrix_fills (vals : list D) (b : nat) (l : list D)
    (rows cols : Z) (h : mem) :
  h !! b = Some l →
  INT_MIN ≤ rows * cols ≤ INT_MAX → rows * cols ≤ Z.of_nat (length l) →
  ∃ h', initialize_matrix vals (Ptr b) rows cols h = Some h' ∧
        (∀ i, 0 ≤ i < rows * cols → load h' (Ptr b) i = Some (elt vals i)) ∧
        (∀ i, 0 ≤ i → rows * cols ≤ i → load h' (Ptr b) i = load h (Ptr b) i) ∧
        (∀ b', b' ≠ b → h' !! b' = h !! b') ∧
        dom h' = dom h.
Proof.
  intros Hl Hint Hlen. eexists. split; [by apply initialize_matrix_run|].
  assert (length (elt vals <$> seqZ 0 (rows * cols)) = Z.to_nat (rows * cols)) as Hlv
    by (by rewrite length_fmap, length_seqZ).
  split; [|split; [|split]].
  - intros i Hi. rewrite load_insert_eq by lia. rewrite lookup_app_l by lia.
    rewrite list_lookup_fmap, lookup_seqZ_lt by lia. simpl.
    by rewrite Z.add_0_l, Z2Nat.id by lia.
  - intros i Hi Hge. rewrite load_insert_eq by lia. rewrite (load_in h b l) by done.
    rewrite lookup_app_r by lia. rewrite lookup_drop. f_equal. lia.
  - intros b' Hb'. by rewrite lookup_insert_ne.
  - by eapply dom_insert_present.
Qed.

(** X2: [initialize_matrix] checks nothing: for a positive element count
    it is defined exactly when [matrix] points to a live block of at least
    [rows * cols] elements. *)
Theorem initialize_matrix_safe_iff (vals : list D) (q : ptr) (rows cols : Z) (h : mem) :
  0 < rows * cols ≤ INT_MAX →
  is_Some (initialize_matrix vals q rows cols h) ↔
  ∃ b l, q = Ptr b ∧ h !! b = Some l ∧ rows * cols ≤ Z.of_nat (length l).
Proof.
  intros Hrc. split.
  - intros [h' H]. unfold initialize_matrix, int_mul in H.
    rewrite int_chk_in in H by (unfold INT_MIN; lia). simpl in H.
    destruct (for_loop_reaches
                (fun s => ∀ b, length <$> s !! b = length <$> h !! b)
                (fun i h0 => store h0 q i (elt vals i)) 0 (rows * cols)
                (rows * cols - 1) h h') as (s1 & s2 & Hs1 & Hst); [done| |done|lia|].
    { intros i s1 s2 Hi Hs1 Hst b.
      apply (store_unchanged q (rows * cols)) in Hst as (_ & _ & Hc); [|done].
      by rewrite Hc. }
    apply store_Some in Hst as (b & l1 & -> & Hl1 & Hi & _).
    specialize (Hs1 b). rewrite Hl1 in Hs1.
    destruct (h !! b) as [l|] eqn:Hl; [|done]. simpl in Hs1.
    exists b, l. split; [done|]. split; [done|]. injection Hs1 as Hs1. lia.
  - intros (b & l & -> & Hl & Hlen). eexists.
    apply initialize_matrix_run; [done|unfold INT_MIN; lia|done].
Qed.

(** ** Traces *)

Lemma log_all_nil (p : proc) : log_all [] p = p.
Proof. by destruct p. Qed.

Lemma log_all_log (e : event) (tr : list event) (p : proc) :
  log e (log_all tr p) = log_all (tr ++ [e]) p.
Proof. unfold log, log_all. simpl. by rewrite rev_unit. Qed.

Lemma log_all_app (t1 t2 : list event) (p : proc) :
  log_all t2 (log_all t1 p) = log_all (t1 ++ t2) p.
Proof. unfold log_all. simpl. by rewrite rev_app_distr, app_assoc. Qed.

Lemma log_log_all (e : event) (p : proc) : log e p = log_all [e] p.
Proof. done. Qed.

(** ** [print_matrix], lines 34-47 *)

Lemma matrix_rows_succ (l : list D) (i cols : Z) :
  0 ≤ i →
  matrix_rows l (i + 1) cols
  = matrix_rows l i cols
    ++ ((fun j => EvPrint (MsgValue (elt l (i * cols + j)))) <$> seqZ 0 cols)
    ++ [EvPrint MsgNewline].
Proof.
  intros Hi. unfold matrix_rows. rewrite seqZ_app by lia.
  rewrite bind_app. simpl. by rewrite app_nil_r, Z.add_0_l.
Qed.

(** The two loops of lines 41-46 on [rows] lines of [cols] values. *)
Lemma print_rows (b : nat) (l : list D) (rows cols : Z) (p : proc) :
  heap p !! b = Some l → 0 ≤ rows → 0 ≤ cols →
  rows * cols ≤ Z.of_nat (length l) → rows * cols ≤ INT_MAX →
  for_loop 0 rows (fun i p =>
    p ← for_loop 0 cols (fun j p =>
          ij ← idx i cols j;
          v ← load (heap p) (Ptr b) ij;
          Some (say (MsgValue v) p)) p;
    Some (say MsgNewline p)) p
  = Some (log_all (matrix_rows l rows cols) p).
Proof.
  intros Hl Hrows Hcols Hlen Hint.
  match goal with |- for_loop 0 rows ?body p = _ =>
    destruct (for_loop_total (fun i q => q = log_all (matrix_rows l i cols) p)
                body 0 rows p) as (q & Hrun & ->); [done| | |done]
  end.
  { unfold matrix_rows. simpl. by rewrite log_all_nil. }
  intros i q Hi ->. eexists. split; [|reflexivity].
  match goal with |- context [for_loop 0 cols ?body ?q0] =>
    destruct (for_loop_total
      (fun j q => q = log_all (matrix_rows l i cols
                    ++ ((fun j => EvPrint (MsgValue (elt l (i * cols + j)))) <$> seqZ 0 j)) p)
      body 0 cols q0) as (q & Hrun & ->); [done| | |]
  end.
  { simpl. by rewrite app_nil_r. }
  { intros j q Hj ->. eexists. split; [|reflexivity].
    rewrite (idx_in i cols j) by nia. simpl.
    rewrite (load_in _ b l) by (done || nia).
    rewrite lookup_elt by nia. simpl. unfold say. rewrite log_all_log.
    rewrite seqZ_app by lia. simpl. rewrite fmap_app. simpl.
    by rewrite <- app_assoc, Z.add_0_l. }
  rewrite Hrun. simpl. unfold say. rewrite log_all_log.
  rewrite matrix_rows_succ by lia. by rewrite <- !app_assoc.
Qed.

Lemma shown_bounds (rows cols : Z) :
  0 ≤ rows → 0 ≤ cols →
  0 ≤ (shown rows cols).1 ≤ rows ∧ 0 ≤ (shown rows cols).2 ≤ cols ∧
  ((shown rows cols).1 ≤ 10 ∧ (shown rows cols).2 ≤ 10).
Proof. intros Hr Hc. unfold shown. case_bool_decide; simpl; lia. Qed.

Lemma print_matrix_run (b : nat) (l : list D) (rows cols : Z) (name : string)
    (p : proc) :
  heap p !! b = Some l → 0 ≤ rows → 0 ≤ cols →
  (shown rows cols).1 * (shown rows cols).2 ≤ Z.of_nat (length l) →
  print_matrix (Ptr b) rows cols name p
  = Some (log_all (matrix_text name rows cols l) p).
Proof.
  intros Hl Hrows Hcols Hlen. unfold print_matrix, matrix_text.
  assert (∀ z, (if decide (z < 5) then z else 5) = Z.min z 5) as clip.
  { intros z. case_decide; [rewrite Z.min_l|rewrite Z.min_r]; lia. }
  pose proof (shown_bounds rows cols Hrows Hcols) as (Hr & Hc & Hr10 & Hc10).
  revert Hlen Hr Hc Hr10 Hc10. unfold shown.
  destruct (bool_decide (10 < rows ∨ 10 < cols)) eqn:Hbig; simpl;
    intros Hlen Hr Hc Hr10 Hc10.
  - rewrite (clip rows), (clip cols).
    rewrite (print_rows b l); [|done|lia|lia|done|unfold INT_MAX; nia].
    unfold say. rewrite !log_log_all, !log_all_app. done.
  - rewrite (print_rows b l); [|done|lia|lia|done|unfold INT_MAX; nia].
    unfold say. rewrite !log_log_all, !log_all_app. done.
Qed.

(** X3: [print_matrix] on a block that holds the matrix prints the header,
    the notice of line 37 when a dimension exceeds ten, and then the
    entries, one line per row shown, reading the buffer with the number of
    columns it shows as the stride; it changes neither the heap nor the
    locals.  For a matrix of at most 10 x 10 that is every entry, in
    row-major order. *)
Theorem print_matrix_shows (b : nat) (l : list D) (rows cols : Z) (name : string)
    (p : proc) :
  heap p !! b = Some l → 0 ≤ rows → 0 ≤ cols →
  (shown rows cols).1 * (shown rows cols).2 ≤ Z.of_nat (length l) →
  ∃ p', print_matrix (Ptr b) rows cols name p = Some p' ∧
        rev (out p') = rev (out p) ++ matrix_text name rows cols l ∧
        heap p' = heap p ∧ brk p' = brk p ∧ same_locals p p'.
Proof.
  intros Hl Hrows Hcols Hlen. eexists. split; [by apply print_matrix_run|].
  split; [|by repeat split].
  unfold log_all. cbn [out]. by rewrite rev_app_distr, rev_involutive.
Qed.

Lemma printed_values_fmap (f : Z → D) (js : list Z) :
  printed_values ((fun j => EvPrint (MsgValue (f j))) <$> js) = f <$> js.
Proof.
  unfold printed_values. induction js as [|j js IH]; [done|].
  rewrite fmap_cons. simpl. by f_equal.
Qed.

Lemma printed_values_row (l : list D) (i cols : Z) :
  0 ≤ i → 0 ≤ cols → (i + 1) * cols ≤ Z.of_nat (length l) →
  printed_values (((fun j => EvPrint (MsgValue (elt l (i * cols + j)))) <$> seqZ 0 cols)
                    ++ [EvPrint MsgNewline])
  = take (Z.to_nat cols) (drop (Z.to_nat (i * cols)) l).
Proof.
  intros Hi Hcols Hlen. unfold printed_values. rewrite omap_app. simpl.
  rewrite app_nil_r. fold (printed_values
    ((fun j => EvPrint (MsgValue (elt l (i * cols + j)))) <$> seqZ 0 cols)).
  rewrite (printed_values_fmap (fun j => elt l (i * cols + j))).
  apply list_eq. intros t. rewrite list_lookup_fmap.
  destruct (decide (t < Z.to_nat cols)%nat) as [Hlt|Hge].
  - rewrite lookup_take_lt by done. rewrite lookup_drop.
    rewrite lookup_seqZ_lt by lia. simpl. rewrite Z.add_0_l.
    replace (Z.to_nat (i * cols) + t)%nat with (Z.to_nat (i * cols + Z.of_nat t)) by nia.
    symmetry. apply lookup_elt. nia.
  - rewrite lookup_take_ge by lia. rewrite lookup_seqZ_ge by lia. done.
Qed.

Lemma printed_values_rows (l : list D) (cols : Z) (k : nat) :
  0 ≤ cols → Z.of_nat k * cols ≤ Z.of_nat (length l) →
  printed_values (matrix_rows l (Z.of_nat k) cols) = take (Z.to_nat (Z.of_nat k * cols)) l.
Proof.
  intros Hcols. induction k as [|k IH]; intros Hlen; [done|].
  replace (Z.of_nat (Datatypes.S k)) with (Z.of_nat k + 1) by lia.
  rewrite matrix_rows_succ by lia. unfold printed_values at 1. rewrite omap_app.
  fold (printed_values (matrix_rows l (Z.of_nat k) cols)).
  fold (printed_values
    (((fun j => EvPrint (MsgValue (elt l (Z.of_nat k * cols + j)))) <$> seqZ 0 cols)
       ++ [EvPrint MsgNewline])).
  rewrite IH by nia. rewrite printed_values_row by nia.
  rewrite take_take_drop. f_equal. nia.
Qed.

Lemma printed_values_text (name : string) (rows cols : Z) (l : list D) :
  0 ≤ rows → 0 ≤ cols →
  (shown rows cols).1 * (shown rows cols).2 ≤ Z.of_nat (length l) →
  printed_values (matrix_text name rows cols l)
  = take (Z.to_nat ((shown rows cols).1 * (shown rows cols).2)) l.
Proof.
  intros Hrows Hcols Hlen.
  pose proof (shown_bounds rows cols Hrows Hcols) as (Hr & Hc & _).
  unfold matrix_text, printed_values. simpl. rewrite omap_app.
  assert (omap (fun e => match e with EvPrint (MsgValue v) => Some v | _ => None end)
               (if bool_decide (10 < rows ∨ 10 < cols) then [EvPrint MsgTooLarge] else [])
          = []) as -> by (by case_bool_decide).
  simpl. fold (printed_values (matrix_rows l (shown rows cols).1 (shown rows cols).2)).
  rewrite <- (Z2Nat.id (shown rows cols).1) at 1 by lia.
  rewrite printed_values_rows by (rewrite ?Z2Nat.id by lia; lia).
  by rewrite Z2Nat.id by lia.
Qed.

(** X4: the values [print_matrix] shows are the first [r * c] elements of
    the buffer in storage order, [c] to a line, where [r] and [c] are the
    numbers of lines and columns shown.  A matrix of at most 10 x 10 is
    thus shown in full.  For a larger one [cols] has been overwritten by
    the clipped value when line 43 computes [i * cols + j], so what is
    shown under "first 5x5" is the first 25 elements of the buffer: line
    [i], column [j] shows element [i * 5 + j], not the entry
    [i * cols + j] of the matrix. *)
Theorem print_matrix_values (b : nat) (l : list D) (rows cols : Z) (name : string)
    (p : proc) :
  heap p !! b = Some l → 0 ≤ rows → 0 ≤ cols →
  (shown rows cols).1 * (shown rows cols).2 ≤ Z.of_nat (length l) →
  ∃ tr, print_matrix (Ptr b) rows cols name p = Some (log_all tr p) ∧
        printed_values tr
        = take (Z.to_nat ((shown rows cols).1 * (shown rows cols).2)) l ∧
        ∀ i j, 0 ≤ i < (shown rows cols).1 → 0 ≤ j < (shown rows cols).2 →
          printed_values tr !! Z.to_nat (i * (shown rows cols).2 + j)
          = Some (elt l (i * (shown rows cols).2 + j)).
Proof.
  intros Hl Hrows Hcols Hlen. eexists. split; [by apply print_matrix_run|].
  pose proof (shown_bounds rows cols Hrows Hcols) as (Hr & Hc & _).
  rewrite printed_values_text by done.
  split; [done|]. intros i j Hi Hj.
  rewrite lookup_take_lt by nia. apply lookup_elt. nia.
Qed.

(** ** More on the kernel, lines 50-60 *)

Lemma load_Some (h : mem) (q : ptr) (i : Z) (v : D) :
  load h q i = Some v →
  ∃ b l, q = Ptr b ∧ h !! b = Some l ∧ 0 ≤ i < Z.of_nat (length l).
Proof.
  unfold load. case_decide; [|done]. destruct q as [|b]; [done|]. simpl.
  destruct (h !! b) as [l|] eqn:Hl; simpl; [|done]. intros Hv.
  exists b, l. split; [done|]. split; [done|].
  apply lookup_lt_Some in Hv. lia.
Qed.

(** X5: with a dimension that is zero or negative the kernel does nothing:
    it returns at once, whatever its three pointers are, and the heap is
    as before. *)
Theorem multiply_matrices_empty (pa pb pc : ptr) (local_rows n : Z) (h : mem) :
  local_rows ≤ 0 ∨ n ≤ 0 →
  multiply_matrices pa pb pc local_rows n h = Some h.
Proof.
  intros Hz. unfold multiply_matrices.
  destruct (decide (local_rows ≤ 0)) as [Hr|Hr]; [by apply for_loop_empty|].
  destruct Hz as [?|Hn]; [lia|].
  destruct (for_loop_total (fun _ s => s = h) (mm_i_body pa pb pc n) 0 local_rows h)
    as (h' & Hrun & ->); [lia|done| |done].
  intros i s1 _ ->. exists h. split; [|done].
  unfold mm_i_body. by apply for_loop_empty.
Qed.

(** X6: the kernel overwrites, it does not accumulate.  On buffers large
    enough and an output block apart from the inputs, what it leaves does
    not depend on what the first [local_rows * n] elements of [C_local]
    held (line 54 stores 0.0 before line 56 reads), and running it a
    second time changes nothing. *)
Theorem multiply_matrices_overwrites (a b c : nat) (local_rows n : Z)
    (h : mem) (la lb lc : list D) :
  0 ≤ local_rows → 0 ≤ n →
  local_rows * n ≤ INT_MAX → n * n ≤ INT_MAX →
  h !! a = Some la → local_rows * n ≤ Z.of_nat (length la) →
  h !! b = Some lb → n * n ≤ Z.of_nat (length lb) →
  h !! c = Some lc → local_rows * n ≤ Z.of_nat (length lc) →
  c ≠ a → c ≠ b →
  ∃ h1, multiply_matrices (Ptr a) (Ptr b) (Ptr c) local_rows n h = Some h1 ∧
        multiply_matrices (Ptr a) (Ptr b) (Ptr c) local_rows n h1 = Some h1 ∧
        ∀ garbage, length garbage = Z.to_nat (local_rows * n) →
          multiply_matrices (Ptr a) (Ptr b) (Ptr c) local_rows n
            (<[c := garbage ++ drop (Z.to_nat (local_rows * n)) lc]> h) = Some h1.
Proof.
  intros Hrows Hn Hir Hin Ha Hla Hb Hlb Hc Hlc Hca Hcb.
  set (out_ := matmul la lb local_rows n ++ drop (Z.to_nat (local_rows * n)) lc).
  exists (<[c := out_]> h).
  assert (length (matmul la lb local_rows n) = Z.to_nat (local_rows * n)) as Hlm
    by (unfold matmul; rewrite length_tabulate, length_seqZ; nia).
  assert (∀ l', length l' = Z.to_nat (local_rows * n) →
            multiply_matrices (Ptr a) (Ptr b) (Ptr c) local_rows n
              (<[c := l' ++ drop (Z.to_nat (local_rows * n)) lc]> h)
            = Some (<[c := out_]> h)) as Hany.
  { intros l' Hl'.
    rewrite (multiply_matrices_exact a b c la lb local_rows n Hca Hcb Hrows Hn Hir Hin
               Hla Hlb _ (l' ++ drop (Z.to_nat (local_rows * n)) lc));
      [|by rewrite lookup_insert_ne|by rewrite lookup_insert_ne|apply lookup_insert_eq|].
    - rewrite insert_insert_eq. rewrite drop_app_length' by done. done.
    - rewrite length_app, length_drop. lia. }
  split; [|split].
  - by apply (multiply_matrices_exact a b c la lb local_rows n).
  - unfold out_. by apply Hany.
  - done.
Qed.

Lemma mm_i_body_lengths (pa pb pc : ptr) (n i : Z) (h h' : mem) :
  0 ≤ i → mm_i_body pa pb pc n i h = Some h' →
  ∀ b, length <$> h' !! b = length <$> h !! b.
Proof.
  intros Hi. unfold mm_i_body.
  apply (for_loop_partial (fun s => ∀ b, length <$> s !! b = length <$> h !! b)); [done|].
  intros j s1 s2 Hj Hs1 Hb b0.
  apply (mm_j_body_unchanged pa pb pc (i + 1) n i j) in Hb as (_ & _ & Hc); [|lia|done].
  by rewrite Hc.
Qed.

(** X7: the kernel checks nothing.  For positive dimensions whose products
    are C ints and an output block apart from the inputs, it is defined
    exactly when its three pointers are live blocks of at least
    [local_rows * n], [n * n] and [local_rows * n] elements. *)
Theorem multiply_matrices_safe_iff (pa pb pc : ptr) (local_rows n : Z) (h : mem) :
  0 < local_rows → 0 < n →
  local_rows * n ≤ INT_MAX → n * n ≤ INT_MAX →
  pa ≠ pc → pb ≠ pc →
  is_Some (multiply_matrices pa pb pc local_rows n h) ↔
  ∃ la lb lc,
    buffer h pa = Some la ∧ local_rows * n ≤ Z.of_nat (length la) ∧
    buffer h pb = Some lb ∧ n * n ≤ Z.of_nat (length lb) ∧
    buffer h pc = Some lc ∧ local_rows * n ≤ Z.of_nat (length lc).
Proof.
  intros Hrows Hn Hir Hin Hac Hbc. split.
  - intros [h' H]. unfold multiply_matrices in H.
    pose (P := fun s : mem => ∀ b, length <$> s !! b = length <$> h !! b).
    destruct (for_loop_reaches P (mm_i_body pa pb pc n) 0 local_rows (local_rows - 1) h h')
      as (s1 & s2 & Hs1 & Hi); [done| |done|lia|].
    { intros i t1 t2 Hi Ht1 Hb b0. rewrite <- Ht1.
      by apply (mm_i_body_lengths pa pb pc n i); [lia|]. }
    unfold mm_i_body in Hi.
    destruct (for_loop_reaches (fun s => ∀ b, length <$> s !! b = length <$> s1 !! b)
                (mm_j_body pa pb pc n (local_rows - 1)) 0 n (n - 1) s1 s2)
      as (t1 & t2 & Ht1 & Hj); [done| |done|lia|].
    { intros j u1 u2 Hj Hu1 Hb b0. rewrite <- Hu1.
      apply (mm_j_body_unchanged pa pb pc local_rows n (local_rows - 1) j) in Hb
        as (_ & _ & Hc); [done|lia|done]. }
    unfold mm_j_body in Hj.
    destruct (idx (local_rows - 1) n (n - 1)) as [ij|] eqn:Hij; simpl in Hj; [|done].
    apply idx_Some in Hij as ->.
    destruct (store t1 pc _ d0) as [u0|] eqn:Hst; simpl in Hj; [|done].
    destruct (for_loop_reaches (fun s => ∀ b, length <$> s !! b = length <$> u0 !! b)
                (mm_k_body pa pb pc n (local_rows - 1) (n - 1)) 0 n (n - 1) u0 t2)
      as (v1 & v2 & Hv1 & Hk); [done| |done|lia|].
    { intros k w1 w2 Hk Hw1 Hb b0. rewrite <- Hw1.
      apply (mm_k_body_unchanged pa pb pc local_rows n (local_rows - 1) (n - 1) k) in Hb
        as (_ & _ & Hc); [done|lia|lia]. }
    apply (store_unchanged pc (local_rows * n)) in Hst as (_ & _ & Hu0); [|nia].
    assert (∀ b0, length <$> v1 !! b0 = length <$> h !! b0) as Hlen.
    { intros b0. rewrite Hv1, Hu0, Ht1. apply Hs1. }
    unfold mm_k_body in Hk.
    destruct (idx (local_rows - 1) n (n - 1)) as [ij|] eqn:Hij; simpl in Hk; [|done].
    apply idx_Some in Hij as ->.
    destruct (idx (n - 1) n (n - 1)) as [kj|] eqn:Hkj; simpl in Hk; [|done].
    apply idx_Some in Hkj as ->.
    destruct (load v1 pc _) as [x|] eqn:Lc; simpl in Hk; [|done].
    destruct (load v1 pa _) as [y|] eqn:La; simpl in Hk; [|done].
    destruct (load v1 pb _) as [z|] eqn:Lb; simpl in Hk; [|done].
    assert (∀ q i x, load v1 q i = Some x →
              ∃ l, buffer h q = Some l ∧ i < Z.of_nat (length l)) as Hback.
    { intros q i x0 Hld. apply load_Some in Hld as (b0 & l0 & -> & Hl0 & Hi0).
      specialize (Hlen b0). rewrite Hl0 in Hlen. simpl in *.
      destruct (h !! b0) as [l|]; [|done]. exists l. split; [done|].
      injection Hlen as Hlen. lia. }
    destruct (Hback _ _ _ La) as (la & Hla & Hla').
    destruct (Hback _ _ _ Lb) as (lb & Hlb & Hlb').
    destruct (Hback _ _ _ Lc) as (lc & Hlc & Hlc').
    exists la, lb, lc. repeat split; try done; nia.
  - intros (la & lb & lc & Ha & Hla & Hb & Hlb & Hc & Hlc).
    destruct pa as [|a]; [done|]. destruct pb as [|b]; [done|]. destruct pc as [|c]; [done|].
    simpl in *. eexists.
    apply (multiply_matrices_exact a b c la lb local_rows n); try done; try lia; congruence.
Qed.

(** ** The kernel's index arithmetic, in [int] *)

Lemma idx_Some_le (i n j r : Z) : idx i n j = Some r → i * n + j ≤ INT_MAX.
Proof.
  unfold idx, int_mul, int_add. intros H.
  destruct (int_chk (i * n)) as [x|] eqn:E; simpl in H; [|done].
  apply int_chk_Some in E as (-> & _). apply int_chk_Some in H as (_ & H). lia.
Qed.

(** The kernel computes the index of every cell of [C_local] it writes and
    of every entry of [B] it reads in [int]: when the last of them,
    [local_rows * n - 1] or [n * n - 1], is beyond [INT_MAX], the call is
    undefined, whatever the buffers are. *)
Lemma multiply_matrices_overflow (pa pb pc : ptr) (local_rows n : Z) (h : mem) :
  0 < local_rows → 0 < n →
  INT_MAX < local_rows * n - 1 ∨ INT_MAX < n * n - 1 →
  multiply_matrices pa pb pc local_rows n h = None.
Proof.
  intros Hrows Hn Hbig.
  destruct (multiply_matrices pa pb pc local_rows n h) as [h'|] eqn:H; [exfalso|done].
  unfold multiply_matrices in H.
  destruct (for_loop_reaches (fun _ => True) (mm_i_body pa pb pc n) 0 local_rows
              (local_rows - 1) h h') as (s1 & s2 & _ & Hi); [done|done|done|lia|].
  unfold mm_i_body in Hi.
  destruct (for_loop_reaches (fun _ => True) (mm_j_body pa pb pc n (local_rows - 1)) 0 n
              (n - 1) s1 s2) as (t1 & t2 & _ & Hj); [done|done|done|lia|].
  unfold mm_j_body in Hj.
  destruct (idx (local_rows - 1) n (n - 1)) as [ij|] eqn:Hij; simpl in Hj; [|done].
  apply idx_Some_le in Hij.
  destruct Hbig as [Hbig|Hbig]; [lia|].
  destruct (store t1 pc ij d0) as [u0|]; simpl in Hj; [|done].
  destruct (for_loop_reaches (fun _ => True) (mm_k_body pa pb pc n (local_rows - 1) (n - 1))
              0 n (n - 1) u0 t2) as (v1 & v2 & _ & Hk); [done|done|done|lia|].
  unfold mm_k_body in Hk.
  destruct (idx (local_rows - 1) n (n - 1)); simpl in Hk; [|done].
  destruct (idx (n - 1) n (n - 1)) as [kj|] eqn:Hkj; simpl in Hk; [|done].
  apply idx_Some_le in Hkj. lia.
Qed.

(** ** What a process does, event by event *)

Opaque matrix_text.

Ltac trace_norm :=
  simpl; rewrite ?rev_app_distr, ?rev_involutive; simpl; rewrite <- ?app_assoc; simpl.

Lemma emits_refl (p : proc) : emits [] p p.
Proof. by split. Qed.

Lemma emits_trans (e1 e2 : list event) (p1 p2 p3 : proc) :
  emits e1 p1 p2 → emits e2 p2 p3 → emits (e1 ++ e2) p1 p3.
Proof.
  intros (R1 & O1) (R2 & O2). split; [congruence|].
  by rewrite O2, O1, rev_app_distr, app_assoc.
Qed.

Lemma emits_log (e : event) (p : proc) : emits [e] p (log e p).
Proof. by split. Qed.

Lemma emits_say0 (m : message) (p : proc) :
  emits (on_root (world_rank p) [EvPrint m]) p (say0 m p).
Proof. unfold say0, on_root. case_decide; [apply emits_log|apply emits_refl]. Qed.

Lemma emits_set_heap (h : mem) (p : proc) : emits [] p (set_heap h p).
Proof. by split. Qed.

Lemma emits_log_all (tr : list event) (p : proc) : emits tr p (log_all tr p).
Proof. by split. Qed.

Lemma write_buf_emits (p p' : proc) (q : ptr) (vals : list D) :
  write_buf p q vals = Some p' → emits [] p p'.
Proof.
  unfold write_buf. destruct q as [|b]; [done|].
  destruct (heap p !! b) as [l|]; simpl; [|done].
  case_decide; [|done]. intros [= <-]. apply emits_set_heap.
Qed.

Lemma group_emits_trans (t1 t2 : Z → list event) (g1 g2 g3 : list proc) :
  group_emits t1 g1 g2 → group_emits t2 g2 g3 →
  group_emits (fun r => t1 r ++ t2 r) g1 g3.
Proof.
  intros (L1 & H1) (L2 & H2). split; [congruence|].
  intros r p3 Hp3. destruct (H2 r p3 Hp3) as (p2 & Hp2 & E2).
  destruct (H1 r p2 Hp2) as (p1 & Hp1 & E1).
  exists p1. split; [done|]. eapply emits_trans; [exact E1|].
  destruct E1 as (<- & _). exact E2.
Qed.

Lemma group_emits_fmap (tr : Z → list event) (f : proc → proc) (g : list proc) :
  (∀ p, emits (tr (world_rank p)) p (f p)) → group_emits tr g (f <$> g).
Proof.
  intros Hf. split; [by rewrite length_fmap|].
  intros r p'. rewrite list_lookup_fmap.
  destruct (g !! r) as [p|]; simpl; [|done]. intros [= <-]. by exists p.
Qed.

Lemma group_emits_mapM (tr : Z → list event) (f : proc → option proc)
    (g g' : list proc) :
  (∀ p p', f p = Some p' → emits (tr (world_rank p)) p p') →
  mapM f g = Some g' → group_emits tr g g'.
Proof.
  intros Hf Hm. apply mapM_Some_1 in Hm. split; [symmetry; by eapply Forall2_length|].
  intros r p' Hp'. destruct (Forall2_lookup_r _ _ _ _ _ Hm Hp') as (p & Hp & Hfp).
  exists p. split; [done|]. by apply Hf.
Qed.

Lemma group_emits_imapM (tr : Z → list event) (f : nat → proc → option proc)
    (g g' : list proc) :
  (∀ r p p', f r p = Some p' → emits (tr (world_rank p)) p p') →
  mapM (fun rq : nat * proc => f rq.1 rq.2) (imap pair g) = Some g' →
  group_emits tr g g'.
Proof.
  intros Hf Hm. apply mapM_Some_1 in Hm.
  split; [pose proof (Forall2_length _ _ _ Hm) as Hl; by rewrite length_imap in Hl|].
  intros r p' Hp'. destruct (Forall2_lookup_r _ _ _ _ _ Hm Hp') as ([r0 p] & Hp & Hfp).
  rewrite list_lookup_imap in Hp. destruct (g !! r) as [p0|]; simpl in Hp; [|done].
  inversion Hp; subst. exists p. split; [done|]. by eapply Hf.
Qed.

Lemma MPI_Scatter_emits (sb rb : proc → ptr) (sc rc : Z) (root : nat) (g g' : list proc) :
  MPI_Scatter sb sc rb rc root g = Some g' → group_emits (fun _ => [EvScatter]) g g'.
Proof.
  unfold MPI_Scatter. destruct (g !! root) as [rp|]; simpl; [|done].
  case_decide; [|done]. destruct (read_buf rp _ _) as [all|]; simpl; [|done].
  apply (group_emits_imapM (fun _ => [EvScatter])
           (fun r p => q ← write_buf p (rb p) (chunk sc r all); Some (log EvScatter q))).
  intros r p p' Hp. destruct (write_buf p _ _) as [q|] eqn:Hq; simpl in Hp; [|done].
  injection Hp as <-.
  apply (emits_trans [] [EvScatter] p q); [by eapply write_buf_emits|apply emits_log].
Qed.

Lemma MPI_Bcast_emits (buf : proc → ptr) (count : Z) (root : nat) (g g' : list proc) :
  MPI_Bcast buf count root g = Some g' → group_emits (fun _ => [EvBcast]) g g'.
Proof.
  unfold MPI_Bcast. destruct (g !! root) as [rp|]; simpl; [|done].
  destruct (read_buf rp _ _) as [data|]; simpl; [|done].
  apply (group_emits_mapM (fun _ => [EvBcast])). intros p p' Hp.
  destruct (write_buf p _ _) as [q|] eqn:Hq; simpl in Hp; [|done].
  injection Hp as <-.
  apply (emits_trans [] [EvBcast] p q); [by eapply write_buf_emits|apply emits_log].
Qed.

Lemma MPI_Gather_emits (sb rb : proc → ptr) (sc rc : Z) (root : nat) (g g' : list proc) :
  MPI_Gather sb sc rb rc root g = Some g' → group_emits (fun _ => [EvGather]) g g'.
Proof.
  unfold MPI_Gather. case_decide; [|done].
  destruct (mapM _ g) as [parts|]; simpl; [|done].
  destruct (g !! root) as [rp|] eqn:Hrp; simpl; [|done].
  destruct (write_buf rp _ _) as [rp'|] eqn:Hw; simpl; [|done].
  intros [= <-]. apply write_buf_emits in Hw.
  split; [by rewrite length_fmap, length_insert|].
  intros r p'. rewrite list_lookup_fmap. destruct (decide (r = root)) as [->|Hne].
  - rewrite list_lookup_insert_eq by (by eapply lookup_lt_Some). simpl.
    intros [= <-]. exists rp. split; [done|].
    apply (emits_trans [] [EvGather] rp rp'); [done|apply emits_log].
  - rewrite list_lookup_insert_ne by done.
    destruct (g !! r) as [p|]; simpl; [|done]. intros [= <-].
    exists p. split; [done|apply emits_log].
Qed.

Lemma group_emits_ext (t1 t2 : Z → list event) (g g' : list proc) :
  (∀ r, t1 r = t2 r) → group_emits t1 g g' → group_emits t2 g g'.
Proof.
  intros Heq (L & H). split; [done|]. intros r p' Hp'.
  destruct (H r p' Hp') as (p & Hp & E). exists p. split; [done|]. by rewrite <- Heq.
Qed.

(** Lines 151-191, whenever they complete: every rank goes through the
    same collectives in the same order, and only rank 0 prints. *)
Lemma pipeline_emits (n local_rows : Z) (g g' : list proc) :
  pipeline n local_rows g = Some g' → group_emits pipeline_trace g g'.
Proof.
  unfold pipeline. intros H.
  destruct (phase_scatter n local_rows g) as [g1|] eqn:H1; simpl in H; [|done].
  destruct (phase_bcast n g1) as [g2|] eqn:H2; simpl in H; [|done].
  destruct (phase_multiply n local_rows g2) as [g3|] eqn:H3; simpl in H; [|done].
  assert (group_emits (fun r => [EvBarrier; EvWtime]
                         ++ on_root r [EvPrint MsgDistributing] ++ [EvScatter]) g g1) as K1.
  { revert H1. unfold phase_scatter, MPI_Barrier. simpl.
    destruct (int_mul local_rows n) as [cnt|]; simpl; [|done]. intros H1.
    apply MPI_Scatter_emits in H1.
    eapply group_emits_ext; [|eapply group_emits_trans; [|exact H1]].
    2:{ eapply group_emits_trans; [eapply group_emits_trans|].
        - apply (group_emits_fmap (fun _ => [EvBarrier])). intros; apply emits_log.
        - apply (group_emits_fmap (fun _ => [EvWtime])). intros; apply emits_log.
        - apply (group_emits_fmap (fun r => on_root r [EvPrint MsgDistributing])).
          intros; apply emits_say0. }
    intros r. unfold on_root. by destruct (decide (r = 0)). }
  assert (group_emits (fun r => on_root r [EvPrint MsgBroadcasting] ++ [EvBcast]) g1 g2) as K2.
  { revert H2. unfold phase_bcast, on_each.
    destruct (mapM _ (say0 MsgBroadcasting <$> g1)) as [g1'|] eqn:Hc; simpl; [|done].
    destruct (int_mul n n) as [nn|]; simpl; [|done]. intros H2.
    apply MPI_Bcast_emits in H2.
    eapply group_emits_ext; [|eapply group_emits_trans; [|exact H2]].
    2:{ eapply group_emits_trans.
        - apply (group_emits_fmap (fun r => on_root r [EvPrint MsgBroadcasting])).
          intros; apply emits_say0.
        - apply (group_emits_mapM (fun _ => [])) in Hc; [exact Hc|].
          intros p p' Hp. simpl in Hp.
          destruct (decide (world_rank p = 0)); [|injection Hp as <-; apply emits_refl].
          revert Hp. unfold copy_B. destruct (int_mul n n); simpl; [|done].
          destruct (for_loop _ _ _ _); simpl; [|done]. intros [= <-].
          apply emits_set_heap. }
    intros r. unfold on_root. by destruct (decide (r = 0)). }
  assert (group_emits (fun r => on_root r [EvPrint MsgComputing]) g2 g3) as K3.
  { revert H3. unfold phase_multiply, on_each. intros H3.
    eapply group_emits_ext; [|eapply group_emits_trans].
    2:{ apply (group_emits_fmap (fun r => on_root r [EvPrint MsgComputing])).
        intros; apply emits_say0. }
    2:{ apply (group_emits_mapM (fun _ => [])) in H3; [exact H3|].
        intros p p' Hp. simpl in Hp.
        destruct (multiply_matrices _ _ _ _ _ _); simpl in Hp; [|done].
        injection Hp as <-. apply emits_set_heap. }
    intros r. unfold on_root. by destruct (decide (r = 0)). }
  assert (group_emits (fun r => on_root r [EvPrint MsgGathering]
                         ++ [EvGather; EvBarrier; EvWtime]) g3 g') as K4.
  { revert H. unfold phase_gather.
    destruct (int_mul local_rows n) as [cnt|]; simpl; [|done].
    destruct (MPI_Gather _ _ _ _ _ _) as [g4|] eqn:Hg; simpl; [|done].
    unfold MPI_Barrier. simpl. intros [= <-]. apply MPI_Gather_emits in Hg.
    eapply group_emits_ext; [|eapply group_emits_trans; [eapply group_emits_trans|]].
    2:{ apply (group_emits_fmap (fun r => on_root r [EvPrint MsgGathering])).
        intros; apply emits_say0. }
    2:{ exact Hg. }
    2:{ eapply group_emits_trans.
        - apply (group_emits_fmap (fun _ => [EvBarrier])). intros; apply emits_log.
        - apply (group_emits_fmap (fun _ => [EvWtime])). intros; apply emits_log. }
    intros r. unfold on_root. by destruct (decide (r = 0)). }
  eapply group_emits_ext;
    [|eapply group_emits_trans; [exact K1|eapply group_emits_trans;
        [exact K2|eapply group_emits_trans; [exact K3|exact K4]]]].
  intros r. unfold pipeline_trace, on_root. by destruct (decide (r = 0)).
Qed.

Lemma free_emits (q : ptr) (p p' : proc) :
  free q p = Some p' → emits [EvFree q] p p' ∧ same_locals p p'.
Proof.
  unfold free. destruct q as [|b].
  - intros [= <-]. split; [apply emits_log|by repeat split].
  - destruct (heap p !! b); [|done]. intros [= <-]. split; [by split|by repeat split].
Qed.

(** Lines 213-226, whenever they complete. *)
Lemma main_cleanup_emits (p p' : proc) :
  main_cleanup p = Some p' → emits (cleanup_trace p) p p'.
Proof.
  unfold main_cleanup, cleanup_trace. intros H.
  destruct (free (A_local p) p) as [p1|] eqn:F1; simpl in H; [|done].
  destruct (free (B_local p1) p1) as [p2|] eqn:F2; simpl in H; [|done].
  destruct (free (C_local p2) p2) as [p3|] eqn:F3; simpl in H; [|done].
  apply free_emits in F1 as (E1 & (R1 & A1 & B1 & C1 & Al1 & Bl1 & Cl1)).
  apply free_emits in F2 as (E2 & (R2 & A2 & B2 & C2 & Al2 & Bl2 & Cl2)).
  apply free_emits in F3 as (E3 & (R3 & A3 & B3 & C3 & Al3 & Bl3 & Cl3)).
  rewrite Bl1 in E2. rewrite Cl2, Cl1 in E3.
  pose proof (emits_trans _ _ _ _ _ (emits_trans _ _ _ _ _ E1 E2) E3) as E123.
  assert (world_rank p3 = world_rank p) as R by congruence.
  unfold on_root. rewrite <- R.
  destruct (decide (world_rank p3 = 0)) as [H0|H0].
  - destruct (free (A p3) p3) as [p4|] eqn:F4; simpl in H; [|done].
    destruct (free (B p4) p4) as [p5|] eqn:F5; simpl in H; [|done].
    destruct (free (C p5) p5) as [p6|] eqn:F6; simpl in H; [|done].
    injection H as <-.
    apply free_emits in F4 as (E4 & (R4 & A4 & B4 & C4 & _)).
    apply free_emits in F5 as (E5 & (R5 & A5 & B5 & C5 & _)).
    apply free_emits in F6 as (E6 & (R6 & A6 & B6 & C6 & _)).
    assert (A p3 = A p) as HA by congruence.
    assert (B p4 = B p) as HB by congruence.
    assert (C p5 = C p) as HC by congruence.
    rewrite HA in E4. rewrite HB in E5. rewrite HC in E6.
    pose proof (emits_trans _ _ _ _ _
                  (emits_trans _ _ _ _ _
                     (emits_trans _ _ _ _ _
                        (emits_trans _ _ _ _ _ E123 E4) E5) E6)
                  (emits_log EvFinalize p6)) as E.
    simpl in E. exact E.
  - simpl in H. injection H as <-.
    pose proof (emits_trans _ _ _ _ _ E123 (emits_log EvFinalize p3)) as E.
    simpl in E. exact E.
Qed.

Section Run.
Variables (n : Z) (N : nat).
Hypothesis HN : (0 < N)%nat.
Hypothesis HnN : Z.of_nat N ≤ n.
Hypothesis Hdiv : Z.rem n (Z.of_nat N) = 0.
Hypothesis Hint : n * n ≤ INT_MAX.

Lemma shown_small : n ≤ 10 → shown n n = (n, n).
Proof. intros H. unfold shown. by rewrite bool_decide_eq_false_2 by lia. Qed.

(** Lines 128-149 with a working allocator, event by event. *)
Lemma main_root_setup_trace (env : nat → option (nat → D)) (A0 B0 : list D) (p : proc) :
  (∀ k, (3 ≤ k < 6)%nat → is_Some (env k)) →
  length A0 = Z.to_nat (n * n) → length B0 = Z.to_nat (n * n) →
  brk p = 3%nat →
  ∃ p', main_root_setup env A0 B0 n p = Some (Continue p') ∧
        emits (setup_trace n A0 B0) p p'.
Proof.
  intros Henv HA HB Hbrk. unfold main_root_setup.
  rewrite (int_mul_nn n N HN Hint). simpl.
  assert (0 ≤ n * n) as Hnn by nia.
  destruct (Henv 3%nat) as [i3 E3]; [lia|]. destruct (Henv 4%nat) as [i4 E4]; [lia|].
  destruct (Henv 5%nat) as [i5 E5]; [lia|].
  unfold malloc. simpl. rewrite Hbrk, E3. rewrite decide_True by done. simpl.
  rewrite E4. rewrite decide_True by done. simpl.
  rewrite E5. rewrite decide_True by done. simpl.
  try rewrite decide_False by (intros [|[|]]; done).
  set (l3 := i3 <$> seq 0 (Z.to_nat (n * n))).
  set (l4 := i4 <$> seq 0 (Z.to_nat (n * n))).
  set (l5 := i5 <$> seq 0 (Z.to_nat (n * n))).
  set (h0 := <[5%nat := l5]> (<[4%nat := l4]> (<[3%nat := l3]> (heap p)))).
  assert (length l3 = Z.to_nat (n * n)) as Hl3 by (unfold l3; by rewrite length_fmap, length_seq).
  assert (length l4 = Z.to_nat (n * n)) as Hl4 by (unfold l4; by rewrite length_fmap, length_seq).
  rewrite (initialize_matrix_ok n N HN Hint A0 3 l3 h0);
    [|by unfold h0; simplify_map_eq|done|done].
  simpl.
  rewrite (initialize_matrix_ok n N HN Hint B0 4 l4);
    [|by unfold h0; simplify_map_eq|done|done].
  simpl.
  set (h1 := <[4%nat := B0]> (<[3%nat := A0]> h0)).
  assert (h1 !! 3%nat = Some A0) as H13 by (unfold h1; by simplify_map_eq).
  assert (h1 !! 4%nat = Some B0) as H14 by (unfold h1; by simplify_map_eq).
  unfold setup_trace.
  destruct (decide (n ≤ 10)) as [Hsmall|Hbig].
  - rewrite (print_matrix_run 3 A0); [|done|lia|lia|rewrite shown_small by done; simpl; lia].
    simpl.
    rewrite (print_matrix_run 4 B0); [|done|lia|lia|rewrite shown_small by done; simpl; lia].
    simpl. eexists. split; [done|]. split; [done|]. by trace_norm.
  - simpl. eexists. split; [done|]. by split.
Qed.

(** Lines 70-149 with a working allocator, event by event. *)
Lemma main_start_trace (env : nat → option (nat → D)) (A0 B0 : list D) (r : nat) :
  (∀ k, (k < 3)%nat → is_Some (env k)) →
  (r = 0%nat → ∀ k, (3 ≤ k < 6)%nat → is_Some (env k)) →
  length A0 = Z.to_nat (n * n) → length B0 = Z.to_nat (n * n) →
  ∃ p, main_start env A0 B0 n (Z.of_nat N) (Z.of_nat r) = Some (Continue p) ∧
       world_rank p = Z.of_nat r ∧
       rev (out p) = start_trace n (Z.of_nat N) A0 B0 (Z.of_nat r).
Proof.
  intros Henv Henv0 HA HB. unfold main_start, start_trace, on_root.
  rewrite decide_False by lia. rewrite decide_False by (intros ?; done).
  rewrite (int_mul_cnt n N HN HnN Hdiv Hint), (int_mul_nn n N HN Hint).
  pose proof (cnt_bounds n N HN HnN Hdiv) as Hcb. assert (0 ≤ n * n) as Hnn by nia.
  destruct (Henv 0%nat) as [i0 E0]; [lia|]. destruct (Henv 1%nat) as [i1 E1]; [lia|].
  destruct (Henv 2%nat) as [i2 E2]; [lia|].
  destruct (decide (Z.of_nat r = 0)) as [Hr0|Hr0].
  - simpl. unfold malloc. simpl. rewrite E0. rewrite decide_True by lia. simpl.
    rewrite E1. rewrite decide_True by done. simpl.
    rewrite E2. rewrite decide_True by lia. simpl.
    try rewrite decide_False by (intros [|[|]]; done).
    match goal with |- context [main_root_setup env A0 B0 n ?q] =>
      destruct (main_root_setup_trace env A0 B0 q (Henv0 ltac:(lia)) HA HB eq_refl)
        as (p' & -> & Hrank & Hout)
    end.
    exists p'. split; [done|]. split; [done|].
    rewrite Hout. by trace_norm.
  - simpl. unfold malloc. simpl. rewrite E0. rewrite decide_True by lia. simpl.
    rewrite E1. rewrite decide_True by done. simpl.
    rewrite E2. rewrite decide_True by lia. simpl.
    try rewrite decide_False by (intros [|[|]]; done).
    eexists. split; [done|]. by split.
Qed.

(** Lines 193-211 when rank 0 holds the matrix [Cmat] in C. *)
Lemma main_report_trace (r : nat) (p : proc) (Cmat : list D) :
  locals_ok r p →
  (r = 0%nat → heap p !! 5%nat = Some Cmat ∧ length Cmat = Z.to_nat (n * n)) →
  main_report n p = Some (log_all (report_trace n Cmat (Z.of_nat r)) p).
Proof.
  intros (Hrank & _ & _ & _ & Hroot) HC. unfold main_report, report_trace, on_root.
  rewrite Hrank. destruct (decide (Z.of_nat r = 0)) as [Hr0|Hr0].
  - assert (r = 0%nat) as -> by lia.
    destruct (Hroot eq_refl) as (_ & _ & ->). destruct (HC eq_refl) as (HlC & Hlen).
    destruct (decide (n ≤ 10)) as [Hsmall|Hbig].
    + rewrite (print_matrix_run 5 Cmat);
        [|done|lia|lia|rewrite shown_small by done; simpl; nia].
      simpl. unfold say. by rewrite !log_log_all, !log_all_app.
    + simpl. unfold say. by rewrite !log_log_all, !log_all_app.
  - by rewrite log_all_nil.
Qed.

(** A run on a valid problem in which no allocation fails, event by event
    on every rank. *)
Lemma main_run_trace (env : nat → nat → option (nat → D)) (A0 B0 : list D)
    (argv : list string) :
  parse_n argv = Some n → never_null env →
  length A0 = Z.to_nat (n * n) → length B0 = Z.to_nat (n * n) →
  ∃ res, main env A0 B0 argv N = Some res ∧ length res = N ∧
         ∀ r, (r < N)%nat →
           ∃ p, res !! r = Some (Returned 0, p) ∧
                rev (out p) = run_trace n N A0 B0 r.
Proof.
  intros Hparse Henv HA HB. unfold main. rewrite Hparse. simpl.
  destruct (start_group_ok n N HN HnN Hdiv Hint env A0 B0 Henv HA HB)
    as (g0 & H & Hstart & Hg0 & Hready).
  rewrite Hstart. simpl. rewrite existsb_is_abort_continue, mapM_continuing.
  destruct (pipeline_ok n N HN HnN Hdiv Hint g0 H A0 B0 Hg0 Hready HA HB)
    as (g1 & Hrun & Hg1).
  rewrite Hrun. simpl.
  destruct (main_ok n N HN HnN Hdiv Hint env A0 B0 argv Hparse Henv HA HB)
    as (res & Hmain & Hlen & Hall).
  unfold main in Hmain. rewrite Hparse in Hmain. simpl in Hmain.
  rewrite Hstart in Hmain. simpl in Hmain.
  rewrite existsb_is_abort_continue, mapM_continuing in Hmain.
  rewrite Hrun in Hmain. simpl in Hmain.
  destruct (on_each (main_finish n) g1) as [g2|] eqn:Hfin; simpl in Hmain; [|done].
  injection Hmain as <-. simpl. eexists. split; [done|]. split; [done|].
  rewrite length_fmap in Hlen. intros r Hr.
  destruct (lookup_lt_is_Some_2 g2 r) as [p2 Hp2]; [lia|].
  exists p2. split; [by rewrite list_lookup_fmap, Hp2|].
  unfold on_each in Hfin. apply mapM_Some_1 in Hfin.
  destruct (Forall2_lookup_r _ _ _ _ _ Hfin Hp2) as (p1 & Hp1 & Hf).
  destruct (pipeline_emits _ _ _ _ Hrun) as (_ & Hem).
  destruct (Hem r p1 Hp1) as (p0 & Hp0 & Hrank1 & Hout1).
  (* the start-up of rank r *)
  assert (main_start (env r) A0 B0 n (Z.of_nat N) (Z.of_nat r) = Some (Continue p0))
    as Hs0.
  { unfold start_group in Hstart. apply mapM_Some_1 in Hstart.
    assert ((Continue <$> g0) !! r = Some (Continue p0)) as Hc
      by (by rewrite list_lookup_fmap, Hp0).
    destruct (Forall2_lookup_r _ _ _ _ _ Hstart Hc) as (r' & Hr' & Hx).
    apply lookup_seq in Hr' as [-> _]. done. }
  destruct (main_start_trace (env r) A0 B0 r) as (p0' & Hs0' & Hrank0 & Hout0);
    [intros k _; apply Henv|intros _ k _; apply Henv|done|done|].
  assert (p0' = p0) as -> by congruence.
  (* the end of rank r *)
  destruct Hg1 as (_ & Hg1). destruct (Hg1 r p1 Hp1) as (Hloc1 & Hheap1).
  unfold main_finish in Hf.
  rewrite (main_report_trace r p1 (matmul A0 B0 n n) Hloc1) in Hf.
  2:{ intros ->. rewrite Hheap1. unfold after_pipeline. simpl.
      split; [apply lookup_insert_eq|]. unfold matmul.
      rewrite length_tabulate, length_seqZ. nia. }
  simpl in Hf. apply main_cleanup_emits in Hf as (_ & Hout2).
  rewrite Hout2. simpl. unfold cleanup_trace. simpl.
  destruct Hloc1 as (Hr1 & -> & -> & -> & Hroot1).
  rewrite Hout1, Hrank0. unfold run_trace.
  rewrite !rev_app_distr, !rev_involutive, Hout0, Hr1.
  unfold start_trace, pipeline_trace, report_trace, on_root.
  destruct (decide (Z.of_nat r = 0)) as [Hz|Hz].
  - assert (r = 0%nat) as -> by lia. destruct (Hroot1 eq_refl) as (-> & -> & ->).
    by trace_norm.
  - by trace_norm.
Qed.

End Run.

Transparent matrix_text.

(** ** The allocator calls a run depends on *)

Lemma malloc_ext (env env' : nat → option (nat → D)) (count : Z) (p : proc) :
  env (brk p) = env' (brk p) → malloc env count p = malloc env' count p.
Proof. intros H. unfold malloc. by rewrite H. Qed.

Lemma malloc_brk (env : nat → option (nat → D)) (count : Z) (p p' : proc) (q : ptr) :
  malloc env count p = (q, p') → brk p' = Datatypes.S (brk p).
Proof. intros H. by apply malloc_spec in H as (? & _). Qed.

(** Lines 128-149 ask the allocator for its calls 3, 4 and 5 only. *)
Lemma main_root_setup_ext (env env' : nat → option (nat → D)) (A0 B0 : list D)
    (n : Z) (p : proc) :
  brk p = 3%nat → (∀ k, (3 ≤ k < 6)%nat → env k = env' k) →
  main_root_setup env A0 B0 n p = main_root_setup env' A0 B0 n p.
Proof.
  intros Hbrk Hagree. unfold main_root_setup.
  destruct (int_mul n n) as [nn|]; simpl; [|done].
  rewrite (malloc_ext env env') by (simpl; rewrite Hbrk; apply Hagree; lia).
  destruct (malloc env' nn (say MsgInitializing p)) as [a q1] eqn:M1.
  apply malloc_brk in M1. simpl in M1. rewrite Hbrk in M1.
  rewrite (malloc_ext env env' nn q1) by (rewrite M1; apply Hagree; lia).
  destruct (malloc env' nn q1) as [b q2] eqn:M2.
  apply malloc_brk in M2. rewrite M1 in M2.
  rewrite (malloc_ext env env' nn q2) by (rewrite M2; apply Hagree; lia).
  done.
Qed.

(** Lines 70-149 ask the allocator for its calls 0, 1 and 2, and on rank 0
    for 3, 4 and 5. *)
Lemma main_start_ext (env env' : nat → option (nat → D)) (A0 B0 : list D)
    (n N rank : Z) :
  (∀ k, (k < 3)%nat → env k = env' k) →
  (rank = 0 → ∀ k, (3 ≤ k < 6)%nat → env k = env' k) →
  main_start env A0 B0 n N rank = main_start env' A0 B0 n N rank.
Proof.
  intros Hagree Hroot. unfold main_start.
  destruct (decide (n < N)); [done|]. destruct (decide (Z.rem n N ≠ 0)); [done|].
  destruct (if decide (rank = 0) then _ else _) as [p1|] eqn:E; simpl; [|done].
  assert (brk p1 = 0%nat) as Hb1.
  { destruct (decide (rank = 0)).
    - destruct (int_mul n n); simpl in E; [|done]. by injection E as <-.
    - by injection E as <-. }
  destruct (int_mul (Z.quot n N) n) as [cnt|]; simpl; [|done].
  destruct (int_mul n n) as [nn|]; simpl; [|done].
  rewrite (malloc_ext env env' cnt p1) by (rewrite Hb1; apply Hagree; lia).
  destruct (malloc env' cnt p1) as [a q1] eqn:M1.
  apply malloc_brk in M1. rewrite Hb1 in M1.
  rewrite (malloc_ext env env' nn q1) by (rewrite M1; apply Hagree; lia).
  destruct (malloc env' nn q1) as [b q2] eqn:M2.
  apply malloc_brk in M2. rewrite M1 in M2.
  rewrite (malloc_ext env env' cnt q2) by (rewrite M2; apply Hagree; lia).
  destruct (malloc env' cnt q2) as [c q3] eqn:M3.
  apply malloc_brk in M3. rewrite M2 in M3.
  destruct (decide (a = NULL ∨ b = NULL ∨ c = NULL)); [done|].
  destruct (decide (rank = 0)); [|done].
  apply main_root_setup_ext; [done|by apply Hroot].
Qed.

Lemma mapM_ext_in {X Y : Type} (f f' : X → option Y) (l : list X) :
  (∀ x, x ∈ l → f x = f' x) → mapM f l = mapM f' l.
Proof.
  induction l as [|x l IH]; intros Hf; [done|]. simpl.
  rewrite Hf by (by left). rewrite IH; [done|]. intros y Hy. apply Hf. by right.
Qed.

(** A run depends on the allocators through the calls it needs only. *)
Lemma main_ext (env env' : nat → nat → option (nat → D)) (A0 B0 : list D)
    (argv : list string) (N : nat) :
  (∀ r k, needed N r k → env r k = env' r k) →
  main env A0 B0 argv N = main env' A0 B0 argv N.
Proof.
  intros Hagree. unfold main. destruct (parse_n argv) as [n|]; simpl; [|done].
  assert (start_group env A0 B0 n N = start_group env' A0 B0 n N) as ->; [|done].
  unfold start_group. apply mapM_ext_in. intros r Hr.
  apply list_elem_of_In, in_seq in Hr. apply main_start_ext.
  - intros k Hk. apply Hagree. split; [lia|by left].
  - intros Hr0 k Hk. apply Hagree. split; [lia|right; split; lia].
Qed.

(** ** Runs that end in [MPI_Abort] *)

Lemma allocated_cons (e : event) (tr : list event) :
  allocated (e :: tr)
  = match e with EvMalloc _ (Ptr b) => {[b]} | _ => ∅ end ∪ allocated tr.
Proof.
  unfold allocated.
  destruct e as [| | | |c [|b]| | | | | | |]; simpl; by rewrite ?union_empty_l_L.
Qed.

Lemma malloc_out (env : nat → option (nat → D)) (count : Z) (p p' : proc) (q : ptr) :
  malloc env count p = (q, p') → out p' = EvMalloc count q :: out p.
Proof.
  unfold malloc. destruct (env (brk p)); [case_decide|]; by intros [= <- <-].
Qed.

Lemma at_startup_eq (p p' : proc) :
  dom (heap p') = dom (heap p) → out p' = out p → at_startup p → at_startup p'.
Proof. unfold at_startup, live. intros -> ->. done. Qed.

Lemma at_startup_log (e : event) (p : proc) :
  is_startup e = true → is_malloc e = false → at_startup p → at_startup (log e p).
Proof.
  intros He Hm (Hl & Hs). split.
  - unfold live in *. simpl. rewrite allocated_cons, Hl.
    destruct e as [| | | |c q| | | | | | |]; try done; by rewrite union_empty_l_L.
  - simpl. by constructor.
Qed.

Lemma at_startup_say (m : message) (p : proc) :
  m ≠ MsgTooLarge → at_startup p → at_startup (say m p).
Proof. intros Hm. apply at_startup_log; [by destruct m|done]. Qed.

Lemma at_startup_malloc (env : nat → option (nat → D)) (count : Z) (p p' : proc)
    (q : ptr) :
  malloc env count p = (q, p') → at_startup p → at_startup p'.
Proof.
  intros Hm (Hl & Hs). pose proof (malloc_out _ _ _ _ _ Hm) as Ho.
  apply malloc_spec in Hm as (_ & _ & Hq). split.
  - unfold live in *. rewrite Ho, allocated_cons, <- Hl.
    destruct Hq as [[-> ->]|[-> ->]]; [by rewrite union_empty_l_L|done].
  - rewrite Ho. by constructor.
Qed.

(** A matrix shown in full: no notice. *)
Lemma print_matrix_at_startup (q : ptr) (rows cols : Z) (name : string) (p p' : proc) :
  rows ≤ 10 → cols ≤ 10 →
  print_matrix q rows cols name p = Some p' → at_startup p → at_startup p'.
Proof.
  unfold print_matrix. intros Hrows Hcols H Hp.
  rewrite bool_decide_eq_false_2 in H by lia.
  revert H. apply (for_loop_partial at_startup); [by apply at_startup_say|].
  intros i s1 s2 _ Hs1 Hb.
  destruct (for_loop _ _ _ s1) as [s1'|] eqn:Hin; simpl in Hb; [|done].
  injection Hb as <-. apply at_startup_say; [done|].
  revert Hin. apply (for_loop_partial at_startup); [done|].
  intros j t1 t2 _ Ht1 Hb.
  destruct (idx _ _ _); simpl in Hb; [|done].
  destruct (load _ _ _); simpl in Hb; [|done]. injection Hb as <-.
  by apply at_startup_say.
Qed.

(** Lines 128-149, whatever the allocator answers. *)
Lemma main_root_setup_startup (env : nat → option (nat → D)) (A0 B0 : list D)
    (n : Z) (p : proc) (s : progress) :
  main_root_setup env A0 B0 n p = Some s → at_startup p →
  at_startup (proc_of s) ∧ ∀ o p', s = Stop o p' → o = Aborted 1.
Proof.
  unfold main_root_setup. intros H Hp.
  destruct (int_mul n n) as [nn|]; simpl in H; [|done].
  destruct (malloc env nn (say MsgInitializing p)) as [a q1] eqn:M1.
  destruct (malloc env nn q1) as [b q2] eqn:M2.
  destruct (malloc env nn q2) as [c q3] eqn:M3.
  assert (at_startup q3) as H3.
  { eapply at_startup_malloc; [exact M3|]. eapply at_startup_malloc; [exact M2|].
    eapply at_startup_malloc; [exact M1|]. by apply at_startup_say. }
  destruct (decide (a = NULL ∨ b = NULL ∨ c = NULL)).
  { injection H as <-. simpl. split; [|intros ? ? [= <- _]; done].
    apply at_startup_log; [done|done|]. apply at_startup_say; [done|].
    by apply (at_startup_eq q3). }
  destruct (initialize_matrix A0 a n n (heap q3)) as [h1|] eqn:I1; simpl in H; [|done].
  destruct (initialize_matrix B0 b n n h1) as [h2|] eqn:I2; simpl in H; [|done].
  apply initialize_matrix_dom in I1, I2.
  assert (at_startup (set_heap h2 (set_full_ptrs a b c q3))) as H4.
  { apply (at_startup_eq q3); [simpl; congruence|done|done]. }
  destruct (decide (n ≤ 10)).
  - destruct (print_matrix a n n "Matrix A" _) as [q5|] eqn:P1; simpl in H; [|done].
    destruct (print_matrix b n n "Matrix B" q5) as [q6|] eqn:P2; simpl in H; [|done].
    injection H as <-. simpl. split; [|done]. apply at_startup_say; [done|].
    eapply print_matrix_at_startup; [done|done|exact P2|].
    eapply print_matrix_at_startup; [done|done|exact P1|done].
  - simpl in H. injection H as <-. simpl. split; [|done]. by apply at_startup_say.
Qed.

(** Lines 70-149, whatever the allocator answers: a rank returns 1 when
    the configuration is invalid, and otherwise goes on or aborts with
    code 1, in both cases from a start-up state. *)
Lemma main_start_startup (env : nat → option (nat → D)) (A0 B0 : list D)
    (n N rank : Z) (s : progress) :
  main_start env A0 B0 n N rank = Some s →
  ((n < N ∨ Z.rem n N ≠ 0) ∧ ∃ p, s = Stop (Returned 1) p) ∨
  (¬ (n < N ∨ Z.rem n N ≠ 0) ∧ at_startup (proc_of s) ∧
   ∀ o p, s = Stop o p → o = Aborted 1).
Proof.
  unfold main_start. intros H.
  destruct (decide (n < N)); [left; split; [by left|]; injection H as <-; by eexists|].
  destruct (decide (Z.rem n N ≠ 0));
    [left; split; [by right|]; injection H as <-; by eexists|].
  right. split; [tauto|].
  assert (at_startup (proc_init rank)) as Hinit.
  { split; [unfold live; simpl; by rewrite dom_empty_L|repeat constructor]. }
  destruct (if decide (rank = 0) then _ else _) as [p1|] eqn:E; simpl in H; [|done].
  assert (at_startup p1) as H1.
  { destruct (decide (rank = 0)).
    - destruct (int_mul n n); simpl in E; [|done]. injection E as <-.
      by apply at_startup_say.
    - by injection E as <-. }
  destruct (int_mul (Z.quot n N) n) as [cnt|]; simpl in H; [|done].
  destruct (int_mul n n) as [nn|]; simpl in H; [|done].
  destruct (malloc env cnt p1) as [a q1] eqn:M1.
  destruct (malloc env nn q1) as [b q2] eqn:M2.
  destruct (malloc env cnt q2) as [c q3] eqn:M3.
  assert (at_startup (set_local_ptrs a b c q3)) as H3.
  { apply (at_startup_eq q3); [done|done|].
    eapply at_startup_malloc; [exact M3|]. eapply at_startup_malloc; [exact M2|].
    eapply at_startup_malloc; [exact M1|]. done. }
  destruct (decide (a = NULL ∨ b = NULL ∨ c = NULL)).
  { injection H as <-. simpl. split; [|intros ? ? [= <- _]; done].
    apply at_startup_log; [done|done|]. by apply at_startup_say. }
  destruct (decide (rank = 0)).
  - by apply main_root_setup_startup in H.
  - injection H as <-. done.
Qed.

(** A run in which some rank called [MPI_Abort]: every process stopped in
    its start-up state, aborted with code 1 or killed. *)
Lemma main_aborted (env : nat → nat → option (nat → D)) (A0 B0 : list D)
    (argv : list string) (N : nat) (res : list (outcome * proc)) :
  main env A0 B0 argv N = Some res →
  (∃ r c p, res !! r = Some (Aborted c, p)) →
  ∃ n ss, parse_n argv = Some n ∧ start_group env A0 B0 n N = Some ss ∧
          res = after_abort <$> ss ∧
          ¬ (n < Z.of_nat N ∨ Z.rem n (Z.of_nat N) ≠ 0) ∧
          ∀ r o p, res !! r = Some (o, p) →
            (o = Aborted 1 ∨ o = Killed) ∧ at_startup p.
Proof.
  unfold main. intros H (r0 & c0 & p0 & Hr0).
  destruct (parse_n argv) as [n|]; simpl in H; [|done].
  destruct (start_group env A0 B0 n N) as [ss|] eqn:Hss; simpl in H; [|done].
  assert (∀ i x, ss !! i = Some x →
            main_start (env i) A0 B0 n (Z.of_nat N) (Z.of_nat i) = Some x) as Hstart.
  { intros i x Hi. unfold start_group in Hss. apply mapM_Some_1 in Hss.
    destruct (Forall2_lookup_r _ _ _ _ _ Hss Hi) as (i' & Hi' & Hx).
    apply lookup_seq in Hi' as [-> _]. done. }
  exists n, ss. split; [done|]. split; [done|].
  destruct (existsb is_abort ss) eqn:Hex.
  - injection H as <-. split; [done|].
    apply existsb_exists in Hex as (s & Hin & Hab).
    apply list_elem_of_In, list_elem_of_lookup in Hin as (i & Hi).
    assert (¬ (n < Z.of_nat N ∨ Z.rem n (Z.of_nat N) ≠ 0)) as Hvalid.
    { apply Hstart, main_start_startup in Hi as [(_ & p & ->)|(Hv & _)]; done. }
    split; [done|]. intros r o p. rewrite list_lookup_fmap.
    destruct (ss !! r) as [x|] eqn:Hx; simpl; [|done]. intros [= Ho].
    apply Hstart, main_start_startup in Hx as [(Hbad & _)|(_ & Hst & Hab1)]; [done|].
    destruct x as [o' p'|p']; simpl in *.
    + rewrite (Hab1 o' p' eq_refl) in Ho. simpl in Ho. injection Ho as <- <-. by split; [left|].
    + injection Ho as <- <-. by split; [right|].
  - exfalso. destruct (mapM continuing ss) as [g|] eqn:Hg.
    + destruct (pipeline n _ g) as [g1|]; simpl in H; [|done].
      destruct (on_each (main_finish n) g1) as [g2|]; simpl in H; [|done].
      injection H as <-. rewrite list_lookup_fmap in Hr0.
      destruct (g2 !! r0); simpl in Hr0; done.
    + apply mapM_Some_1 in H.
      destruct (Forall2_lookup_r _ _ _ _ _ H Hr0) as (x & Hx & Hst).
      destruct x as [o q|q]; [|done]. injection Hst as -> ->.
      assert (existsb is_abort ss = true) as Habs; [|congruence].
      apply existsb_exists. exists (Stop (Aborted c0) p0).
      split; [|done]. apply list_elem_of_In. by eapply list_elem_of_lookup_2.
Qed.

(** Either every call in a range succeeds or one of them fails. *)
Lemma calls_dec (env : nat → option (nat → D)) (lo hi : nat) :
  (∀ k, (lo ≤ k < hi)%nat → is_Some (env k)) ∨
  ∃ k, (lo ≤ k < hi)%nat ∧ env k = None.
Proof.
  induction hi as [|hi IH]; [left; intros; lia|].
  destruct IH as [IH|(k & Hk & E)]; [|right; exists k; split; [lia|done]].
  destruct (decide (lo ≤ hi)%nat) as [Hle|Hgt]; [|left; intros; lia].
  destruct (env hi) as [f|] eqn:E; [|right; exists hi; split; [lia|done]].
  left. intros k Hk. destruct (decide (k = hi)) as [->|]; [by rewrite E|].
  apply IH. lia.
Qed.

(** One call of [malloc], by cases on the allocator's answer. *)
Ltac malloc_step env k :=
  destruct (env k) as [?|] eqn:?; simpl; rewrite ?decide_True by lia; simpl.

Section Failures.
Variables (n : Z) (N : nat).
Hypothesis HN : (0 < N)%nat.
Hypothesis HnN : Z.of_nat N ≤ n.
Hypothesis Hdiv : Z.rem n (Z.of_nat N) = 0.
Hypothesis Hint : n * n ≤ INT_MAX.

(** Lines 119-126: a rank one of whose three slices cannot be allocated
    prints the message of line 124 and aborts. *)
Lemma main_start_local_failure (env : nat → option (nat → D)) (A0 B0 : list D)
    (r k : nat) :
  (k < 3)%nat → env k = None →
  ∃ p tr, main_start env A0 B0 n (Z.of_nat N) (Z.of_nat r) = Some (Stop (Aborted 1) p) ∧
          out p = EvAbort 1 :: EvPrint (MsgLocalAllocFailed (Z.of_nat r)) :: tr.
Proof.
  intros Hk Hnone. unfold main_start.
  rewrite decide_False by lia. rewrite decide_False by (intros ?; done).
  rewrite (int_mul_cnt n N HN HnN Hdiv Hint), (int_mul_nn n N HN Hint).
  pose proof (cnt_bounds n N HN HnN Hdiv) as Hcb. assert (0 ≤ n * n) as Hnn by nia.
  assert (env 0%nat = None ∨ env 1%nat = None ∨ env 2%nat = None) as Hsome.
  { destruct k as [|[|[|]]]; [tauto|tauto|tauto|lia]. }
  destruct (decide (Z.of_nat r = 0)); simpl; unfold malloc; simpl;
    malloc_step env 0%nat; malloc_step env 1%nat; malloc_step env 2%nat;
    try (exfalso; destruct Hsome as [?|[?|?]]; congruence);
    try (case_decide as Hn; [|exfalso; apply Hn; auto]);
    by eexists _, _.
Qed.

(** Lines 131-138: rank 0, its slices allocated, one of whose three full
    matrices cannot be allocated prints the message of line 136 and
    aborts. *)
Lemma main_start_full_failure (env : nat → option (nat → D)) (A0 B0 : list D)
    (k : nat) :
  (∀ j, (j < 3)%nat → is_Some (env j)) → (3 ≤ k < 6)%nat → env k = None →
  ∃ p tr, main_start env A0 B0 n (Z.of_nat N) 0 = Some (Stop (Aborted 1) p) ∧
          out p = EvAbort 1 :: EvPrint MsgFullAllocFailed :: tr.
Proof.
  intros Henv Hk Hnone. unfold main_start.
  rewrite decide_False by lia. rewrite decide_False by (intros ?; done).
  rewrite (int_mul_cnt n N HN HnN Hdiv Hint), (int_mul_nn n N HN Hint).
  pose proof (cnt_bounds n N HN HnN Hdiv) as Hcb. assert (0 ≤ n * n) as Hnn by nia.
  destruct (Henv 0%nat) as [i0 E0]; [lia|]. destruct (Henv 1%nat) as [i1 E1]; [lia|].
  destruct (Henv 2%nat) as [i2 E2]; [lia|].
  assert (env 3%nat = None ∨ env 4%nat = None ∨ env 5%nat = None) as Hsome.
  { destruct k as [|[|[|[|[|[|]]]]]]; try lia; tauto. }
  simpl. unfold malloc. simpl. rewrite E0. rewrite decide_True by lia. simpl.
  rewrite E1. rewrite decide_True by done. simpl.
  rewrite E2. rewrite decide_True by lia. simpl.
  try rewrite decide_False by (intros [|[|]]; done).
  unfold main_root_setup. rewrite (int_mul_nn n N HN Hint). simpl. unfold malloc. simpl.
  malloc_step env 3%nat; malloc_step env 4%nat; malloc_step env 5%nat;
    try (exfalso; destruct Hsome as [?|[?|?]]; congruence);
    try (case_decide as Hn; [|exfalso; apply Hn; auto]);
    by eexists _, _.
Qed.

(** Lines 70-149 are defined whatever the allocator answers. *)
Lemma main_start_total (env : nat → option (nat → D)) (A0 B0 : list D) (r : nat) :
  length A0 = Z.to_nat (n * n) → length B0 = Z.to_nat (n * n) →
  ∃ s, main_start env A0 B0 n (Z.of_nat N) (Z.of_nat r) = Some s.
Proof.
  intros HA HB. pose proof (calls_dec env) as Hdec.
  destruct (Hdec 0%nat 3%nat) as [H3|(k & Hk & E)].
  2:{ destruct (main_start_local_failure env A0 B0 r k) as (p & tr & Hp & _);
        [lia|done|]. eexists. exact Hp. }
  destruct (decide (r = 0%nat)) as [->|Hr].
  - destruct (Hdec 3%nat 6%nat) as [H6|(k & Hk & E)].
    + destruct (main_start_trace n N HN HnN Hdiv Hint env A0 B0 0) as (p & Hp & _);
        [intros; apply H3; lia|intros _ k Hk; by apply H6|done|done|].
      eexists. exact Hp.
    + destruct (main_start_full_failure env A0 B0 k) as (p & tr & Hp & _);
        [intros; apply H3; lia|done|done|]. eexists. exact Hp.
  - destruct (main_start_trace n N HN HnN Hdiv Hint env A0 B0 r) as (p & Hp & _);
      [intros; apply H3; lia|done|done|done|]. eexists. exact Hp.
Qed.

(** On a valid problem the start-up of the whole group is defined,
    whatever the allocators answer. *)
Lemma start_group_total (env : nat → nat → option (nat → D)) (A0 B0 : list D) :
  length A0 = Z.to_nat (n * n) → length B0 = Z.to_nat (n * n) →
  ∃ ss, start_group env A0 B0 n N = Some ss ∧ length ss = N ∧
        ∀ r, (r < N)%nat →
          ∃ s, ss !! r = Some s ∧
               main_start (env r) A0 B0 n (Z.of_nat N) (Z.of_nat r) = Some s.
Proof.
  intros HA HB. unfold start_group.
  destruct (mapM_indexed
    (fun r => main_start (env r) A0 B0 n (Z.of_nat N) (Z.of_nat r))
    (fun _ r s => main_start (env r) A0 B0 n (Z.of_nat N) (Z.of_nat r) = Some s)
    (seq 0 N)) as (ss & Hss & Hlen & Hall).
  { intros i r _. destruct (main_start_total (env r) A0 B0 r HA HB) as (s & Hs).
    by exists s. }
  exists ss. split; [done|]. rewrite length_seq in Hlen. split; [done|].
  intros r Hr. apply (Hall r r). by rewrite lookup_seq_lt.
Qed.

(** A run on a valid problem in which rank [r] aborts during start-up. *)
Lemma main_abort_at (env : nat → nat → option (nat → D)) (A0 B0 : list D)
    (argv : list string) (r : nat) (p : proc) :
  parse_n argv = Some n →
  length A0 = Z.to_nat (n * n) → length B0 = Z.to_nat (n * n) →
  (r < N)%nat →
  main_start (env r) A0 B0 n (Z.of_nat N) (Z.of_nat r) = Some (Stop (Aborted 1) p) →
  ∃ ss, start_group env A0 B0 n N = Some ss ∧ length ss = N ∧
        main env A0 B0 argv N = Some (after_abort <$> ss) ∧
        (after_abort <$> ss) !! r = Some (Aborted 1, p).
Proof.
  intros Hparse HA HB Hr Hs.
  destruct (start_group_total env A0 B0 HA HB) as (ss & Hss & Hlen & Hall).
  exists ss. split; [done|]. split; [done|].
  destruct (Hall r Hr) as (s & Hsr & Hs'). assert (s = Stop (Aborted 1) p) as -> by congruence.
  unfold main. rewrite Hparse. simpl. rewrite Hss. simpl.
  assert (existsb is_abort ss = true) as ->.
  { apply existsb_exists. exists (Stop (Aborted 1) p).
    split; [|done]. apply list_elem_of_In. by eapply list_elem_of_lookup_2. }
  split; [done|]. by rewrite list_lookup_fmap, Hsr.
Qed.

End Failures.

Section Outcomes.
Variables (n : Z) (N : nat).
Hypothesis HN : (0 < N)%nat.
Hypothesis HnN : Z.of_nat N ≤ n.
Hypothesis Hdiv : Z.rem n (Z.of_nat N) = 0.
Hypothesis Hint : n * n ≤ INT_MAX.

(** When every allocation the run needs succeeds, every rank returns 0,
    holding nothing. *)
Lemma main_succeeds (env : nat → nat → option (nat → D)) (A0 B0 : list D)
    (argv : list string) :
  parse_n argv = Some n →
  length A0 = Z.to_nat (n * n) → length B0 = Z.to_nat (n * n) →
  (∀ r k, needed N r k → is_Some (env r k)) →
  ∃ res, main env A0 B0 argv N = Some res ∧ length res = N ∧
         ∀ r o p, res !! r = Some (o, p) → o = Returned 0 ∧ heap p = ∅.
Proof.
  intros Hparse HA HB Hneeded.
  pose (env' := fun r k => match env r k with
                           | Some f => Some f
                           | None => Some (fun _ : nat => d0)
                           end).
  assert (never_null env') as Hnn.
  { intros r k. unfold env'. destruct (env r k); by eexists. }
  rewrite (main_ext env env').
  - by apply (main_ok n N HN HnN Hdiv Hint).
  - intros r k Hrk. unfold env'. destruct (Hneeded r k Hrk) as [f ->]. done.
Qed.

(** When one of them fails, some rank aborts. *)
Lemma main_start_needs (env : nat → option (nat → D)) (A0 B0 : list D) (r : nat)
    (p : proc) :
  main_start env A0 B0 n (Z.of_nat N) (Z.of_nat r) = Some (Continue p) →
  ∀ k, (k < 3)%nat ∨ (r = 0%nat ∧ (k < 6)%nat) → is_Some (env k).
Proof.
  intros Hs.
  assert (∀ k, (k < 3)%nat → is_Some (env k)) as H3.
  { intros k Hk. destruct (env k) as [f|] eqn:E; [by eexists|].
    destruct (main_start_local_failure n N HN HnN Hdiv Hint env A0 B0 r k Hk E)
      as (q & tr & Hq & _). congruence. }
  intros k [Hk|[-> Hk]]; [by apply H3|].
  destruct (decide (k < 3)%nat); [by apply H3|].
  destruct (env k) as [f|] eqn:E; [by eexists|].
  destruct (main_start_full_failure n N HN HnN Hdiv Hint env A0 B0 k H3) as (q & tr & Hq & _);
    [lia|done|]. change (Z.of_nat 0) with 0 in Hs. congruence.
Qed.

(** When every allocation the run needs succeeds, the run is the one of
    [main_run_trace]. *)
Lemma main_succeeds_trace (env : nat → nat → option (nat → D)) (A0 B0 : list D)
    (argv : list string) :
  parse_n argv = Some n →
  length A0 = Z.to_nat (n * n) → length B0 = Z.to_nat (n * n) →
  (∀ r k, needed N r k → is_Some (env r k)) →
  ∃ res, main env A0 B0 argv N = Some res ∧ length res = N ∧
         ∀ r, (r < N)%nat →
           ∃ p, res !! r = Some (Returned 0, p) ∧
                rev (out p) = run_trace n N A0 B0 r ∧ heap p = ∅.
Proof.
  intros Hparse HA HB Hneeded.
  pose (env' := fun r k => match env r k with
                           | Some f => Some f
                           | None => Some (fun _ : nat => d0)
                           end).
  assert (never_null env') as Hnn.
  { intros r k. unfold env'. destruct (env r k); by eexists. }
  rewrite (main_ext env env').
  2:{ intros r k Hrk. unfold env'. destruct (Hneeded r k Hrk) as [f ->]. done. }
  destruct (main_run_trace n N HN HnN Hdiv Hint env' A0 B0 argv Hparse Hnn HA HB)
    as (res & Hres & Hlen & Hall).
  destruct (main_ok n N HN HnN Hdiv Hint env' A0 B0 argv Hparse Hnn HA HB)
    as (res' & Hres' & _ & Hret).
  assert (res' = res) as -> by congruence.
  exists res. split; [done|]. split; [done|].
  intros r Hr. destruct (Hall r Hr) as (p & Hp & Hout).
  exists p. split; [done|]. split; [done|]. by destruct (Hret r _ _ Hp).
Qed.

(** The two ways a run on a valid problem can go. *)
Lemma main_outcomes (env : nat → nat → option (nat → D)) (A0 B0 : list D)
    (argv : list string) :
  parse_n argv = Some n →
  length A0 = Z.to_nat (n * n) → length B0 = Z.to_nat (n * n) →
  ∃ res, main env A0 B0 argv N = Some res ∧ length res = N ∧
         (((∀ r k, needed N r k → is_Some (env r k)) ∧
           ∀ r, (r < N)%nat →
             ∃ p, res !! r = Some (Returned 0, p) ∧
                  rev (out p) = run_trace n N A0 B0 r ∧ heap p = ∅) ∨
          ((∃ r k, needed N r k ∧ env r k = None) ∧
           ∀ r o p, res !! r = Some (o, p) →
             (o = Aborted 1 ∨ o = Killed) ∧ at_startup p)).
Proof.
  intros Hparse HA HB.
  destruct (start_group_total n N HN HnN Hdiv Hint env A0 B0 HA HB)
    as (ss & Hss & Hlen & Hall).
  destruct (existsb is_abort ss) eqn:Hex.
  - assert (main env A0 B0 argv N = Some (after_abort <$> ss)) as Hmain.
    { unfold main. rewrite Hparse. simpl. rewrite Hss. simpl. by rewrite Hex. }
    apply existsb_exists in Hex as (s & Hin & Hs).
    apply list_elem_of_In, list_elem_of_lookup in Hin as (i & Hi).
    destruct s as [[?|c|] q|q]; try done.
    assert (i < N)%nat as HiN by (apply lookup_lt_Some in Hi; lia).
    destruct (Hall i HiN) as (s' & Hs' & Hstart).
    assert (s' = Stop (Aborted c) q) as -> by congruence.
    exists (after_abort <$> ss). split; [done|]. split; [by rewrite length_fmap|].
    right. split.
    + destruct (calls_dec (env i) 0 3) as [H3|(k & Hk & E)].
      2:{ exists i, k. split; [split; [done|left; lia]|done]. }
      destruct (decide (i = 0%nat)) as [->|Hi0].
      * destruct (calls_dec (env 0%nat) 3 6) as [H6|(k & Hk & E)].
        2:{ exists 0%nat, k. split; [split; [done|right; split; [done|lia]]|done]. }
        destruct (main_start_trace n N HN HnN Hdiv Hint (env 0%nat) A0 B0 0)
          as (p & Hp & _); [intros; apply H3; lia|intros _ k Hk; by apply H6|done|done|].
        congruence.
      * destruct (main_start_trace n N HN HnN Hdiv Hint (env i) A0 B0 i)
          as (p & Hp & _); [intros; apply H3; lia|done|done|done|].
        congruence.
    + intros r o p Hr.
      destruct (main_aborted env A0 B0 argv N _ Hmain) as (_ & _ & _ & _ & _ & _ & Hst).
      { exists i, c, q. by rewrite list_lookup_fmap, Hi. }
      exact (Hst r o p Hr).
  - assert (∀ r k, needed N r k → is_Some (env r k)) as Hneeded.
    { intros r k (Hr & Hk). destruct (Hall r Hr) as (s & Hsr & Hs).
      destruct s as [o q|q].
      - exfalso. pose proof Hs as Hs'.
        apply main_start_startup in Hs' as [(Hbad & _)|(_ & _ & Hab)]; [lia|].
        rewrite (Hab o q eq_refl) in Hsr.
        assert (existsb is_abort ss = true) as Habs; [|congruence].
        apply existsb_exists. exists (Stop (Aborted 1) q).
        split; [|done]. apply list_elem_of_In. by eapply list_elem_of_lookup_2.
      - by apply (main_start_needs (env r) A0 B0 r q). }
    destruct (main_succeeds_trace env A0 B0 argv Hparse HA HB Hneeded)
      as (res & Hres & Hlen' & Hret).
    exists res. split; [done|]. split; [done|]. left. done.
Qed.

End Outcomes.

(** ** Whole runs *)

Lemma filter_collective_prints (tr : list event) :
  Forall (fun e => is_print e = true) tr →
  filter (fun e => is_collective e = true) tr = [].
Proof.
  induction 1 as [|e tr He _ IH]; [done|].
  rewrite filter_cons_False; [done|]. by destruct e.
Qed.

Lemma matrix_text_prints (name : string) (rows cols : Z) (l : list D) :
  Forall (fun e => is_print e = true) (matrix_text name rows cols l).
Proof.
  unfold matrix_text. constructor; [done|]. apply Forall_app. split.
  - case_bool_decide; repeat constructor.
  - unfold matrix_rows. apply Forall_forall. intros e He.
    apply list_elem_of_bind in He as (i & He & _).
    apply elem_of_app in He as [He|He].
    + apply list_elem_of_fmap in He as (j & -> & _). done.
    + apply list_elem_of_singleton in He as ->. done.
Qed.

(** X8: everything a run on a valid problem does when every allocation
    it makes succeeds.  Every rank returns 0, and what rank [r] has done, in order, is
    [run_trace n N A0 B0 r]: every rank allocates its three slices, passes
    the same five collectives in the same order (barrier, scatter,
    broadcast, gather, barrier) with the clock read after each barrier,
    frees what it allocated and finalizes; only rank 0 prints, allocates
    and frees the full matrices, and it prints A, B and the product when
    [n <= 10]. *)
Theorem successful_run_trace (env : nat → nat → option (nat → D)) (A0 B0 : list D)
    (argv : list string) (n : Z) (N : nat) :
  (0 < N)%nat → Z.of_nat N ≤ n → Z.rem n (Z.of_nat N) = 0 →
  n * n ≤ INT_MAX →
  parse_n argv = Some n →
  (∀ r k, needed N r k → is_Some (env r k)) →
  length A0 = Z.to_nat (n * n) → length B0 = Z.to_nat (n * n) →
  ∃ res, main env A0 B0 argv N = Some res ∧ length res = N ∧
         ∀ r, (r < N)%nat →
           ∃ p, res !! r = Some (Returned 0, p) ∧
                rev (out p) = run_trace n N A0 B0 r ∧
                filter (fun e => is_collective e = true) (rev (out p))
                = [EvBarrier; EvScatter; EvBcast; EvGather; EvBarrier].
Proof.
  intros HN HnN Hdiv Hint Hparse Henv HA HB.
  destruct (main_succeeds_trace n N HN HnN Hdiv Hint env A0 B0 argv Hparse HA HB Henv)
    as (res & Hres & Hlen & Hall).
  exists res. split; [done|]. split; [done|].
  intros r Hr. destruct (Hall r Hr) as (p & Hp & Hout & _).
  exists p. split; [done|]. split; [done|]. rewrite Hout.
  unfold run_trace, start_trace, pipeline_trace, report_trace, setup_trace, on_root.
  destruct (decide (Z.of_nat r = 0)); [|reflexivity].
  destruct (decide (n ≤ 10)); [|reflexivity].
  rewrite !filter_app.
  rewrite !(filter_collective_prints (matrix_text _ _ _ _)) by apply matrix_text_prints.
  reflexivity.
Qed.

Lemma printed_values_app (t1 t2 : list event) :
  printed_values (t1 ++ t2) = printed_values t1 ++ printed_values t2.
Proof. apply omap_app. Qed.

Lemma printed_values_full (name : string) (n : Z) (l : list D) :
  0 ≤ n ≤ 10 → length l = Z.to_nat (n * n) →
  printed_values (matrix_text name n n l) = l.
Proof.
  intros Hn Hl. assert (shown n n = (n, n)) as Hs.
  { unfold shown. by rewrite bool_decide_eq_false_2 by lia. }
  rewrite printed_values_text by (rewrite ?Hs; simpl; lia).
  rewrite Hs. simpl. apply take_ge. lia.
Qed.

Opaque matrix_text.

(** X9: what such a run shows of the matrices.  For [n <= 10] the entries
    rank 0 prints are, in order, those of A, of B and of the product
    [A x B], each matrix in full; for [n > 10] no entry of any matrix is
    printed: the product is computed, gathered and freed unseen.  The
    other ranks print nothing at all. *)
Theorem run_shows_product (env : nat → nat → option (nat → D)) (A0 B0 : list D)
    (argv : list string) (n : Z) (N : nat) :
  (0 < N)%nat → Z.of_nat N ≤ n → Z.rem n (Z.of_nat N) = 0 →
  n * n ≤ INT_MAX →
  parse_n argv = Some n →
  (∀ r k, needed N r k → is_Some (env r k)) →
  length A0 = Z.to_nat (n * n) → length B0 = Z.to_nat (n * n) →
  ∃ res, main env A0 B0 argv N = Some res ∧
         (∃ p0, res !! 0%nat = Some (Returned 0, p0) ∧
                printed_values (rev (out p0))
                = if decide (n ≤ 10) then A0 ++ B0 ++ matmul A0 B0 n n else []) ∧
         ∀ r p, (0 < r)%nat → res !! r = Some (Returned 0, p) →
           filter (fun e => is_print e = true) (out p) = [].
Proof.
  intros HN HnN Hdiv Hint Hparse Henv HA HB.
  destruct (main_succeeds_trace n N HN HnN Hdiv Hint env A0 B0 argv Hparse HA HB Henv)
    as (res & Hres & Hlen & Hall).
  exists res. split; [done|]. split.
  - destruct (Hall 0%nat HN) as (p0 & Hp0 & Hout & _). exists p0. split; [done|].
    rewrite Hout. unfold run_trace, start_trace, pipeline_trace, report_trace,
      setup_trace, on_root. simpl.
    destruct (decide (n ≤ 10)) as [Hsmall|Hbig]; [|done].
    rewrite !printed_values_app. simpl.
    rewrite !printed_values_app.
    rewrite !printed_values_full
      by first [lia | done | unfold matmul; rewrite length_tabulate, length_seqZ; nia].
    simpl. by rewrite !app_nil_r, <- app_assoc.
  - intros r p Hr0 Hr. assert (r < N)%nat as HrN.
    { apply lookup_lt_Some in Hr. lia. }
    destruct (Hall r HrN) as (p' & Hp' & Hout & _).
    assert (p' = p) as -> by congruence.
    rewrite <- (rev_involutive (out p)), Hout.
    unfold run_trace, start_trace, pipeline_trace, report_trace, on_root.
    destruct (decide (Z.of_nat r = 0)) as [?|_]; [lia|]. reflexivity.
Qed.

Transparent matrix_text.

(** X10: the state of every rank when lines 151-191 have run.  The slice
    [A_local] of rank [r] holds its rows of A, [B_local] holds B, and
    [C_local] holds the same rows of the product [A x B]; on rank 0, A and
    B still hold the inputs and C holds the whole product. *)
Theorem pipeline_leaves (env : nat → nat → option (nat → D)) (A0 B0 : list D)
    (n : Z) (N : nat) :
  (0 < N)%nat → Z.of_nat N ≤ n → Z.rem n (Z.of_nat N) = 0 →
  n * n ≤ INT_MAX →
  never_null env →
  length A0 = Z.to_nat (n * n) → length B0 = Z.to_nat (n * n) →
  ∃ g0 g1,
    start_group env A0 B0 n N = Some (Continue <$> g0) ∧
    pipeline n (Z.quot n (Z.of_nat N)) g0 = Some g1 ∧
    length g1 = N ∧
    ∀ r p, g1 !! r = Some p →
      buffer (heap p) (A_local p)
      = Some (rows_of A0 n (row_block n (Z.of_nat N) (Z.of_nat r))) ∧
      buffer (heap p) (B_local p) = Some B0 ∧
      buffer (heap p) (C_local p)
      = Some (rows_of (matmul A0 B0 n n) n (row_block n (Z.of_nat N) (Z.of_nat r))) ∧
      (r = 0%nat →
         buffer (heap p) (A p) = Some A0 ∧ buffer (heap p) (B p) = Some B0 ∧
         buffer (heap p) (C p) = Some (matmul A0 B0 n n)).
Proof.
  intros HN HnN Hdiv Hint Henv HA HB.
  destruct (start_group_ok n N HN HnN Hdiv Hint env A0 B0 Henv HA HB)
    as (g0 & H & Hstart & Hg0 & Hready).
  destruct (pipeline_ok n N HN HnN Hdiv Hint g0 H A0 B0 Hg0 Hready HA HB)
    as (g1 & Hrun & Hlen & Hg1).
  exists g0, g1. split; [done|]. split; [done|]. split; [done|].
  intros r p Hp. destruct (Hg1 r p Hp) as ((Hrank & -> & -> & -> & Hroot) & Hh).
  assert (r < N)%nat as Hr by (apply lookup_lt_Some in Hp; lia).
  pose proof (local_rows_pos n N HN HnN Hdiv) as Hlr.
  pose proof (rows_split n N HN HnN Hdiv) as Hsplit.
  destruct Hready as (_ & H3 & H4 & _).
  assert (matmul (chunk (Z.quot n (Z.of_nat N) * n) r A0) B0 (Z.quot n (Z.of_nat N)) n
          = rows_of (matmul A0 B0 n n) n (row_block n (Z.of_nat N) (Z.of_nat r))) as Hc.
  { rewrite (matmul_chunk n N HN HnN). unfold rows_of, row_block. symmetry.
    apply (tabulate_ext_in n N HN). intros i j Hi Hj. apply elem_of_seqZ in Hi.
    apply elt_lookup. unfold matmul. apply lookup_tabulate_seqZ; nia. }
  assert (heap p !! 0%nat = Some (chunk (Z.quot n (Z.of_nat N) * n) r A0) ∧
          heap p !! 1%nat = Some B0 ∧
          heap p !! 2%nat
          = Some (matmul (chunk (Z.quot n (Z.of_nat N) * n) r A0) B0
                         (Z.quot n (Z.of_nat N)) n)) as (L0 & L1 & L2).
  { rewrite Hh. unfold after_pipeline. case_decide; by simplify_map_eq. }
  simpl. rewrite L0, L1, L2, Hc.
  split; [f_equal; by apply (chunk_rows n N)|]. split; [done|]. split; [done|].
  intros ->. destruct (Hroot eq_refl) as (-> & -> & ->). simpl.
  rewrite Hh. unfold after_pipeline. simpl. by simplify_map_eq.
Qed.

(** ** Allocation failures *)

(** X11: a run in which some rank calls [MPI_Abort].  Every rank ends
    aborted with code 1 or killed; none has got past a collective, freed a
    block or finalized; and each still holds exactly the blocks its calls
    of [malloc] returned: nothing is released on the way out. *)
Theorem abort_leaves_startup_state (env : nat → nat → option (nat → D))
    (A0 B0 : list D) (argv : list string) (N : nat) (res : list (outcome * proc)) :
  main env A0 B0 argv N = Some res →
  (∃ r c p, res !! r = Some (Aborted c, p)) →
  ∀ r o p, res !! r = Some (o, p) →
    (o = Aborted 1 ∨ o = Killed) ∧
    live p = allocated (out p) ∧
    Forall (fun e => is_startup e = true) (out p).
Proof.
  intros Hmain Hab r o p Hr.
  destruct (main_aborted env A0 B0 argv N res Hmain Hab) as (n & ss & _ & _ & _ & _ & Hall).
  destruct (Hall r o p Hr) as (Ho & Hl & Hs). done.
Qed.

(** X12: lines 119-126.  On a valid problem, when one of the three local
    allocations of some rank [r] fails, the run is defined and ends in an
    abort: rank [r] prints "Rank r: Memory allocation failed" and calls
    [MPI_Abort] with code 1 as its last two actions, and no rank returns
    from [main]. *)
Theorem local_allocation_failure_aborts (env : nat → nat → option (nat → D))
    (A0 B0 : list D) (argv : list string) (n : Z) (N r k : nat) :
  (0 < N)%nat → Z.of_nat N ≤ n → Z.rem n (Z.of_nat N) = 0 →
  n * n ≤ INT_MAX →
  parse_n argv = Some n →
  length A0 = Z.to_nat (n * n) → length B0 = Z.to_nat (n * n) →
  (r < N)%nat → (k < 3)%nat → env r k = None →
  ∃ res, main env A0 B0 argv N = Some res ∧ length res = N ∧
         (∃ p tr, res !! r = Some (Aborted 1, p) ∧
                  out p = EvAbort 1 :: EvPrint (MsgLocalAllocFailed (Z.of_nat r)) :: tr) ∧
         ∀ r' o p, res !! r' = Some (o, p) → o = Aborted 1 ∨ o = Killed.
Proof.
  intros HN HnN Hdiv Hint Hparse HA HB Hr Hk Hnone.
  destruct (main_start_local_failure n N HN HnN Hdiv Hint (env r) A0 B0 r k Hk Hnone)
    as (p & tr & Hs & Hout).
  destruct (main_abort_at n N HN HnN Hdiv Hint env A0 B0 argv r p Hparse HA HB Hr Hs)
    as (ss & Hss & Hlen & Hmain & Hres).
  eexists. split; [exact Hmain|]. split; [by rewrite length_fmap|].
  split; [by exists p, tr|].
  intros r' o q Hq.
  destruct (main_aborted env A0 B0 argv N _ Hmain) as (_ & _ & _ & _ & _ & _ & Hall);
    [by exists r, 1, p|].
  by destruct (Hall r' o q Hq).
Qed.

(** X13: lines 131-138.  On a valid problem, when every rank gets its
    three slices but one of the three full matrices of rank 0 cannot be
    allocated, rank 0 prints "Memory allocation failed for full matrices"
    and calls [MPI_Abort] with code 1; every other rank is killed having
    done nothing but [MPI_Init] and its three allocations, which it still
    holds. *)
Theorem full_allocation_failure_aborts (env : nat → nat → option (nat → D))
    (A0 B0 : list D) (argv : list string) (n : Z) (N k : nat) :
  (0 < N)%nat → Z.of_nat N ≤ n → Z.rem n (Z.of_nat N) = 0 →
  n * n ≤ INT_MAX →
  parse_n argv = Some n →
  length A0 = Z.to_nat (n * n) → length B0 = Z.to_nat (n * n) →
  (∀ r j, (r < N)%nat → (j < 3)%nat → is_Some (env r j)) →
  (3 ≤ k < 6)%nat → env 0%nat k = None →
  ∃ res, main env A0 B0 argv N = Some res ∧ length res = N ∧
         (∃ p tr, res !! 0%nat = Some (Aborted 1, p) ∧
                  out p = EvAbort 1 :: EvPrint MsgFullAllocFailed :: tr) ∧
         ∀ r, (0 < r < N)%nat →
           ∃ p, res !! r = Some (Killed, p) ∧
                rev (out p) = [EvInit;
                               EvMalloc (Z.quot n (Z.of_nat N) * n) (Ptr 0);
                               EvMalloc (n * n) (Ptr 1);
                               EvMalloc (Z.quot n (Z.of_nat N) * n) (Ptr 2)] ∧
                live p = allocated (out p).
Proof.
  intros HN HnN Hdiv Hint Hparse HA HB Henv Hk Hnone.
  destruct (main_start_full_failure n N HN HnN Hdiv Hint (env 0%nat) A0 B0 k)
    as (p & tr & Hs & Hout); [intros j Hj; by apply Henv|done|done|].
  destruct (main_abort_at n N HN HnN Hdiv Hint env A0 B0 argv 0 p Hparse HA HB HN Hs)
    as (ss & Hss & Hlen & Hmain & Hres).
  eexists. split; [exact Hmain|]. split; [by rewrite length_fmap|].
  split; [by exists p, tr|].
  intros r Hr.
  destruct (main_start_trace n N HN HnN Hdiv Hint (env r) A0 B0 r)
    as (q & Hq & _ & Htr); [intros j Hj; apply Henv; lia|intros ->; lia|done|done|].
  assert (ss !! r = Some (Continue q)) as Hsr.
  { unfold start_group in Hss. apply mapM_Some_1 in Hss.
    destruct (lookup_lt_is_Some_2 ss r) as [x Hx]; [lia|].
    destruct (Forall2_lookup_r _ _ _ _ _ Hss Hx) as (r' & Hr' & Hx').
    apply lookup_seq in Hr' as [-> _]. simpl in Hx'. congruence. }
  exists q. split; [by rewrite list_lookup_fmap, Hsr|].
  split.
  - rewrite Htr. unfold start_trace, on_root.
    destruct (decide (Z.of_nat r = 0)) as [?|_]; [lia|]. reflexivity.
  - destruct (main_aborted env A0 B0 argv N _ Hmain) as (_ & _ & _ & _ & _ & _ & Hall);
      [by exists 0%nat, 1, p|].
    destruct (Hall r Killed q) as (_ & Hl & _); [by rewrite list_lookup_fmap, Hsr|done].
Qed.

(** X14: the two checks of lines 123 and 135 catch every failed
    allocation.  On a valid problem whose element count is a C int, the
    run is defined whatever the allocators answer: when every allocation
    it needs succeeds every rank returns 0 holding nothing, and when one
    of them fails every rank ends aborted or killed; no rank ever uses a
    NULL buffer. *)
Theorem allocation_failures_are_caught (env : nat → nat → option (nat → D))
    (A0 B0 : list D) (argv : list string) (n : Z) (N : nat) :
  (0 < N)%nat → Z.of_nat N ≤ n → Z.rem n (Z.of_nat N) = 0 →
  n * n ≤ INT_MAX →
  parse_n argv = Some n →
  length A0 = Z.to_nat (n * n) → length B0 = Z.to_nat (n * n) →
  ∃ res, main env A0 B0 argv N = Some res ∧ length res = N ∧
         ((∀ r k, needed N r k → is_Some (env r k)) →
          ∀ r o p, res !! r = Some (o, p) → o = Returned 0 ∧ live p = ∅) ∧
         ((∃ r k, needed N r k ∧ env r k = None) →
          ∀ r o p, res !! r = Some (o, p) → o = Aborted 1 ∨ o = Killed).
Proof.
  intros HN HnN Hdiv Hint Hparse HA HB.
  destruct (main_outcomes n N HN HnN Hdiv Hint env A0 B0 argv Hparse HA HB)
    as (res & Hmain & Hlen & [(Hneeded & Hall)|((r0 & k0 & Hrk & Hnone) & Hall)]);
    exists res; (split; [done|]); (split; [done|]); split.
  - intros _ r o p Hr. assert (r < N)%nat as HrN.
    { apply lookup_lt_Some in Hr. lia. }
    destruct (Hall r HrN) as (p' & Hp' & _ & Hh).
    assert (o = Returned 0 ∧ p = p') as (-> & ->) by (split; congruence).
    split; [done|]. unfold live. by rewrite Hh, dom_empty_L.
  - intros (r & k & Hrk & Hnone). destruct (Hneeded r k Hrk) as [f Hf]. congruence.
  - intros Hneeded. destruct (Hneeded r0 k0 Hrk) as [f Hf]. congruence.
  - intros _ r o p Hr. by destruct (Hall r o p Hr).
Qed.

(** X15: the element count is computed in [int].  On a valid problem with
    more than [INT_MAX] elements, that is [n > 46340], the product [n * n]
    of lines 112 and 120 overflows, which C leaves undefined: the run has
    no defined behaviour. *)
Theorem oversized_problem_overflows (env : nat → nat → option (nat → D))
    (A0 B0 : list D) (argv : list string) (n : Z) (N : nat) :
  (0 < N)%nat → Z.of_nat N ≤ n → Z.rem n (Z.of_nat N) = 0 →
  INT_MAX < n * n →
  parse_n argv = Some n →
  main env A0 B0 argv N = None.
Proof.
  intros HN HnN Hdiv Hbig Hparse. unfold main. rewrite Hparse. simpl.
  by rewrite (oversized_problem_undefined env A0 B0 n N HN HnN Hdiv Hbig).
Qed.

Lemma matrix_text_quiet (name : string) (rows cols : Z) (l : list D) :
  rows ≤ 10 → cols ≤ 10 →
  Forall (fun e => is_notice e = false) (matrix_text name rows cols l).
Proof.
  intros Hrows Hcols. unfold matrix_text.
  rewrite bool_decide_eq_false_2 by lia. constructor; [done|]. simpl.
  unfold matrix_rows. apply Forall_forall. intros e He.
  apply list_elem_of_bind in He as (i & He & _).
  apply elem_of_app in He as [He|He].
  - apply list_elem_of_fmap in He as (j & -> & _). done.
  - apply list_elem_of_singleton in He as ->. done.
Qed.

Lemma run_trace_quiet (n : Z) (N : nat) (A0 B0 : list D) (r : nat) :
  Forall (fun e => is_notice e = false) (run_trace n N A0 B0 r).
Proof.
  unfold run_trace, start_trace, pipeline_trace, report_trace, setup_trace, on_root.
  destruct (decide (Z.of_nat r = 0)); [|repeat constructor].
  destruct (decide (n ≤ 10)); [|repeat constructor].
  repeat first [apply Forall_app; split | by apply matrix_text_quiet
               | apply Forall_cons; split; [done|] | apply Forall_nil_2].
Qed.

(** X16: the truncated display of [print_matrix] is dead code in this
    program.  [main] calls [print_matrix] under [n <= 10] only (lines 144
    and 195), so in no defined run, whether the configuration is rejected,
    an allocation fails or the run completes, does any rank print the
    notice of line 37: the display of the first 25 elements of X4 never
    shows. *)
Theorem truncated_display_unreachable (env : nat → nat → option (nat → D))
    (A0 B0 : list D) (argv : list string) (n : Z) (N : nat)
    (res : list (outcome * proc)) :
  (0 < N)%nat → parse_n argv = Some n →
  length A0 = Z.to_nat (n * n) → length B0 = Z.to_nat (n * n) →
  main env A0 B0 argv N = Some res →
  ∀ r o p, res !! r = Some (o, p) →
    Forall (fun e => is_notice e = false) (out p).
Proof.
  intros HN Hparse HA HB Hrun r o p Hr.
  destruct (decide (n < Z.of_nat N ∨ Z.rem n (Z.of_nat N) ≠ 0)) as [Hbad|Hok].
  - destruct (main_rejects env A0 B0 argv n N HN Hparse Hbad) as (res' & Hres & Hlen & Hall).
    assert (res' = res) as -> by congruence.
    destruct (Hall r o p Hr) as (_ & _ & _ & Hout).
    rewrite <- (rev_involutive (out p)), Hout. apply Forall_rev.
    unfold rejected_trace, rejection. repeat case_decide; repeat constructor.
  - assert (Z.of_nat N ≤ n) as HnN by lia.
    assert (Z.rem n (Z.of_nat N) = 0) as Hdiv.
    { destruct (decide (Z.rem n (Z.of_nat N) = 0)); [done|]. exfalso. apply Hok. by right. }
    destruct (decide (n * n ≤ INT_MAX)) as [Hint|Hbig].
    2:{ exfalso. unfold main in Hrun. rewrite Hparse in Hrun. simpl in Hrun.
        rewrite (oversized_problem_undefined env A0 B0 n N HN HnN Hdiv) in Hrun by lia.
        done. }
    destruct (main_outcomes n N HN HnN Hdiv Hint env A0 B0 argv Hparse HA HB)
      as (res' & Hmain & Hlen & Hcases).
    assert (res' = res) as -> by congruence.
    destruct Hcases as [(_ & Hall)|(_ & Hall)].
    + assert (r < N)%nat as HrN by (apply lookup_lt_Some in Hr; lia).
      destruct (Hall r HrN) as (p' & Hp' & Hout & _).
      assert (p = p') as -> by congruence.
      rewrite <- (rev_involutive (out p')), Hout. apply Forall_rev, run_trace_quiet.
    + destruct (Hall r o p Hr) as (_ & _ & Hst).
      eapply Forall_impl; [exact Hst|]. intros e He. simpl in He.
      by destruct e as [| | |[]| | | | | | | |].
Qed.
End Engine.


(** * The program on IEEE-754 doubles *)

Import Binary64.

(** ** Exact operations on finite doubles *)

Lemma digits2_pos_shift (m : positive) (k : nat) :
  Z.pos (digits2_pos (Nat.iter k xO m)) = Z.pos (digits2_pos m) + Z.of_nat k.
Proof.
  induction k as [|k IH]; [simpl; lia|].
  simpl Nat.iter. simpl digits2_pos. rewrite Pos2Z.inj_succ, IH. lia.
Qed.

(** Multiplying a finite double by 1.0 is exact: the product of the
    mantissas is the mantissa shifted by 52 bits, and rounding shifts it
    back without losing a bit. *)
Lemma mul_one_finite (s : bool) (m : positive) (e : Z) :
  bounded prec emax m e = true →
  mul (S754_finite s m e) one = S754_finite s m e.
Proof.
  intros Hb. unfold bounded in Hb. apply andb_prop in Hb as [Hc He].
  unfold canonical_mantissa in Hc. apply Z.eqb_eq in Hc.
  unfold mul, SFmul, one, prec, emax in *.
  rewrite Pos.mul_comm.
  change (4503599627370496 * m)%positive with (Nat.iter 52 xO m).
  unfold binary_round_aux, shr_fexp, Zdigits2.
  rewrite digits2_pos_shift.
  replace (Z.pos (digits2_pos m) + Z.of_nat 52 + (e + -52))
    with (Z.pos (digits2_pos m) + e) by lia.
  rewrite Hc. replace (e - (e + -52)) with 52 by lia.
  unfold shr.
  replace (SpecFloat.iter_pos shr_1 52
             (shr_record_of_loc (Z.pos (Nat.iter 52 xO m)) loc_Exact))
    with (Build_shr_record (Z.pos m) false false) by reflexivity.
  cbn [shr_m loc_of_shr_record round_nearest_even shr_record_of_loc].
  replace (e + -52 + 52) with e by lia. rewrite Hc, Z.sub_diag.
  cbn [shr_m]. rewrite He. by destruct s.
Qed.

Lemma mul_one (a : double) : finite_double a = true → mul a one = a.
Proof.
  destruct a as [s| | |s m e]; try done.
  - by destruct s.
  - intros H. by apply mul_one_finite.
Qed.

(** [a * 0.0] is a zero with the sign of [a]. *)
Lemma mul_zero (a : double) :
  finite_double a = true → ∃ s, mul a zero = S754_zero s.
Proof. destruct a as [s| | |s m e]; try done; intros _; by eexists. Qed.

(** [0.0 + a] is [a], except that [0.0 + -0.0] is [0.0]. *)
Lemma add_zero_l (a : double) :
  finite_double a = true →
  add zero a = (if decide (a = neg_zero) then zero else a).
Proof.
  destruct a as [[|]| | |s m e]; try done; intros _; by case_decide.
Qed.

Lemma add_signed_zero (x : double) (s : bool) :
  finite_double x = true → add (add zero x) (S754_zero s) = add zero x.
Proof. destruct x as [[|]| | |sx m e]; try done; intros _; by destruct s. Qed.

Lemma finite_identity_laws (A0 : list double) :
  Forall (fun a => finite_double a = true) A0 →
  identity_laws zero add mul one A0.
Proof.
  intros Hfin a Ha. rewrite Forall_forall in Hfin.
  pose proof (Hfin a Ha) as Hfa. destruct (mul_zero a Hfa) as [s Hs].
  split; [by apply mul_one|]. rewrite Hs. split; [by destruct s|].
  intros x Hx. apply add_signed_zero. by apply Hfin.
Qed.

(** A finite double compares equal to itself, and the two zeros compare
    equal. *)
Lemma eqb_add_zero (a : double) :
  finite_double a = true → eqb (add zero a) a = true.
Proof.
  intros Hfa. rewrite add_zero_l by done. case_decide as Hz; [by rewrite Hz|].
  destruct a as [s| | |s m e]; try done.
  unfold eqb, SFeqb, SFcompare. rewrite Z.compare_refl.
  assert (Pos.compare_cont Eq m m = Eq) as -> by apply Pos.compare_cont_refl.
  by destruct s.
Qed.

(** C9 (as the code has it): for a valid [(n, N)] with [n * n] a C int, in
    a run in which no allocation fails, and for a matrix A of finite
    doubles, the run with the identity matrix as right operand leaves on
    rank 0 a matrix whose every entry compares equal ([==]) to the entry
    of A, and is that entry bit for bit unless it is -0.0, which comes
    back as 0.0; with no -0.0 in A the result is A exactly.  This holds for
    every valid participant count. *)
Theorem identity_is_right_identity (env : nat → nat → option (nat → double))
    (A0 : list double) (n : Z) (N : nat) :
  (0 < N)%nat → Z.of_nat N ≤ n → Z.rem n (Z.of_nat N) = 0 →
  n * n ≤ INT_MAX →
  never_null env →
  length A0 = Z.to_nat (n * n) →
  Forall (fun a => finite_double a = true) A0 →
  ∃ C0, gathered_C zero add mul env A0 (identity zero one n) n N = Some C0 ∧
        Forall2 (fun c a => eqb c a = true ∧
                            (a ≠ neg_zero → c = a) ∧
                            (a = neg_zero → c = zero)) C0 A0 ∧
        (neg_zero ∉ A0 → C0 = A0).
Proof.
  intros HN HnN Hdiv Hint Henv HA Hfin.
  exists (add zero <$> A0). split; [|split].
  - rewrite (gathered_C_ok zero add mul n N HN HnN Hdiv Hint env A0 (identity zero one n)
               Henv HA).
    + f_equal. apply matmul_identity; [lia|by apply finite_identity_laws|done].
    + unfold identity. rewrite length_tabulate, length_seqZ. nia.
  - apply Forall2_fmap_l, Forall_Forall2_diag.
    eapply Forall_impl; [exact Hfin|]. intros a Hfa. cbn beta.
    split; [by apply eqb_add_zero|]. rewrite add_zero_l by done.
    split; intros Hz; [by rewrite decide_False|by rewrite decide_True].
  - intros Hnz. rewrite <- (list_fmap_id A0) at 2. apply list_fmap_ext.
    intros i a Hia. rewrite Forall_forall in Hfin.
    rewrite add_zero_l by (apply Hfin; by eapply list_elem_of_lookup_2).
    rewrite decide_False; [done|]. intros ->. apply Hnz.
    by eapply list_elem_of_lookup_2.
Qed.
(** ** Examples *)

(** The example of the specification: the product of [[1,2],[3,4]] and
    [[5,6],[7,8]] is [[19,22],[43,50]] on one process and on two. *)
Lemma spec_example_product :
  gathered_C zero add mul alloc_ok A2 B2 2 1 = Some C2 ∧
  gathered_C zero add mul alloc_ok A2 B2 2 2 = Some C2.
Proof. split; vm_compute; reflexivity. Qed.

(** [n = 5], [N = 3] is rejected on every rank. *)
Lemma spec_example_rejected :
  option_map (map (fun op : outcome * @proc double => (op.1, rev (out op.2))))
             (main zero add mul alloc_ok [] [] ["matrix-mult"; "5"]%string 3)
  = Some [(Returned 1, [EvInit; EvPrint (MsgNotDivisible 5 3); EvFinalize]);
          (Returned 1, [EvInit; EvFinalize]);
          (Returned 1, [EvInit; EvFinalize])].
Proof. vm_compute. reflexivity. Qed.

Lemma atoi_examples :
  atoi "abc" = Some 0 ∧ atoi "" = Some 0 ∧ atoi "0" = Some 0 ∧
  atoi "-5" = Some (-5) ∧ atoi "  42x" = Some 42 ∧ atoi "+7" = Some 7 ∧
  atoi "99999999999" = None.
Proof. repeat split; reflexivity. Qed.

(** Every value [initialize_matrix] can store is a finite double. *)
Lemma rand_values_finite : Forall (fun a => finite_double a = true) rand_values.
Proof.
  apply Forall_forall. intros a Ha. apply list_elem_of_In in Ha. revert a Ha.
  apply forallb_forall. vm_compute. reflexivity.
Qed.

Lemma never_null_alloc_ok : never_null alloc_ok.
Proof. intros r k. by eexists. Defined.

(** ** Instances of the theorems *)

Lemma pipeline_computes_product_witness :
  gathered_C zero add mul alloc_ok A2 B2 2 2 = Some (matmul zero add mul A2 B2 2 2) ∧
  gathered_C zero add mul alloc_ok A2 B2 2 1 = gathered_C zero add mul alloc_ok A2 B2 2 2.
Proof.
  destruct (pipeline_computes_product zero add mul alloc_ok alloc_ok A2 B2 2 2 1)
    as [H1 H2].
  - lia.
  - lia.
  - reflexivity.
  - unfold INT_MAX. lia.
  - exact never_null_alloc_ok.
  - reflexivity.
  - reflexivity.
  - split; [exact H1|]. apply H2; [lia|lia|reflexivity|exact never_null_alloc_ok].
Defined.

(** C1, as stated, fails.  [n = 46341] with [N = 1] is a valid problem
    ([N] divides [n], [n >= N]), but [n * n] is not a C int: the run is
    undefined from line 112 on, whatever the allocator and the matrices
    are, and no product is produced.  Nor is there a product when an
    allocation fails: on the valid problem [n = 2], [N = 1] with the
    [malloc] of [B_local] returning NULL the only rank aborts at line 125,
    before the pipeline. *)
Lemma run_without_product :
  (Z.rem 46341 1 = 0 ∧ 1 ≤ 46341 ∧ INT_MAX < 46341 * 46341 ∧
   ∀ (env : nat → nat → option (nat → double)) (A0 B0 : list double),
     gathered_C zero add mul env A0 B0 46341 1 = None ∧
     main zero add mul env A0 B0 ["matrix-mult"; "46341"]%string 1 = None) ∧
  (gathered_C zero add mul alloc_fail_second A2 B2 2 1 = None ∧
   ∃ p, main zero add mul alloc_fail_second A2 B2 ["matrix-mult"; "2"]%string 1
        = Some [(Aborted 1, p)] ∧
        Forall (fun e => is_collective e = false) (out p)).
Proof.
  split.
  - split; [reflexivity|]. split; [lia|]. split; [unfold INT_MAX; lia|].
    intros env A0 B0.
    assert (start_group zero env A0 B0 46341 1 = None) as Hstart.
    { apply oversized_problem_undefined; [lia|lia|reflexivity|unfold INT_MAX; lia]. }
    split.
    + unfold gathered_C. by rewrite Hstart.
    + unfold main.
      change (parse_n ["matrix-mult"; "46341"]%string) with (Some 46341).
      cbn [mbind option_bind]. by rewrite Hstart.
  - split; [vm_compute; reflexivity|]. eexists. split; [vm_compute; reflexivity|].
    repeat constructor.
Qed.

Lemma multiply_matrices_correct_witness :
  ∃ h', multiply_matrices zero add mul (Ptr 0) (Ptr 1) (Ptr 2) 1 2 heap_in2 = Some h' ∧
        load h' (Ptr 2) 0 = Some (of_Z 19) ∧ load h' (Ptr 2) 1 = Some (of_Z 22).
Proof.
  destruct (multiply_matrices_correct zero add mul (Ptr 0) (Ptr 1) (Ptr 2) 1 2 heap_in2
              (of_Z <$> [1; 2]) B2 [S754_nan; S754_nan]) as (h' & Hrun & Hcells).
  - lia.
  - lia.
  - unfold INT_MAX. lia.
  - unfold INT_MAX. lia.
  - reflexivity.
  - reflexivity.
  - reflexivity.
  - reflexivity.
  - reflexivity.
  - reflexivity.
  - discriminate.
  - discriminate.
  - exists h'. split; [exact Hrun|]. split.
    + change (load h' (Ptr 2) 0) with (load h' (Ptr 2) (0 * 2 + 0)).
      rewrite (Hcells 0 0) by lia. vm_compute. reflexivity.
    + change (load h' (Ptr 2) 1) with (load h' (Ptr 2) (0 * 2 + 1)).
      rewrite (Hcells 0 1) by lia. vm_compute. reflexivity.
Defined.

(** C2, as stated, fails.  Called in place, with [C_local] the buffer of
    [A_local], on [[1,2],[3,4]] and [[5,6],[7,8]], the kernel leaves
    [[14,756],[28,1512]] where the sums of the entry values are
    [[19,22],[43,50]]: line 54 has cleared an entry of A before line 56
    reads it.  And for sizes in the claim's range whose index arithmetic
    leaves [int], the call is undefined whatever the buffers are: with
    [n = 46341] the index [k * n + j] of B at line 56 (46340 * 46341 +
    41708 is [INT_MAX + 1]), with [local_rows = 524289] and [n = 4096] the
    index [i * n + j] of [C_local]. *)
Lemma kernel_in_place_or_beyond_int :
  (∃ h', multiply_matrices zero add mul (Ptr 0) (Ptr 1) (Ptr 0) 2 2 heap_AB = Some h' ∧
         buffer h' (Ptr 0) = Some (of_Z <$> [14; 756; 28; 1512]) ∧
         matmul zero add mul A2 B2 2 2 = of_Z <$> [19; 22; 43; 50]) ∧
  idx 46340 46341 41708 = None ∧
  (∀ (pa pb pc : ptr) (h : gmap nat (list double)),
     multiply_matrices zero add mul pa pb pc 1 46341 h = None) ∧
  (∀ (pa pb pc : ptr) (h : gmap nat (list double)),
     multiply_matrices zero add mul pa pb pc 524289 4096 h = None).
Proof.
  split; [|split; [|split]].
  - eexists. split; [vm_compute; reflexivity|]. split; vm_compute; reflexivity.
  - reflexivity.
  - intros pa pb pc h. apply multiply_matrices_overflow; [lia|lia|unfold INT_MAX; lia].
  - intros pa pb pc h. apply multiply_matrices_overflow; [lia|lia|unfold INT_MAX; lia].
Qed.

Lemma invalid_configuration_rejected_witness :
  ∃ res, main zero add mul alloc_ok [] [] ["matrix-mult"; "5"]%string 3 = Some res ∧
         length res = 3%nat ∧
         ∀ r o p, res !! r = Some (o, p) →
           o = Returned 1 ∧ live p = ∅ ∧ brk p = 0%nat ∧
           Forall (fun e => is_collective e = false ∧ is_malloc e = false) (out p) ∧
           rev (out p) = rejected_trace 5 3 r.
Proof.
  apply (invalid_configuration_rejected zero add mul alloc_ok [] []
           ["matrix-mult"; "5"]%string 5 3).
  - lia.
  - reflexivity.
  - right. discriminate.
Defined.



Lemma bcast_replicates_B_witness :
  ∃ g0 g1 g2,
    start_group zero alloc_ok A2 B2 2 2 = Some (Continue <$> g0) ∧
    phase_scatter 2 (Z.quot 2 2) g0 = Some g1 ∧
    phase_bcast 2 g1 = Some g2 ∧
    length g2 = 2%nat ∧
    (∃ p0, g2 !! 0%nat = Some p0 ∧ buffer (heap p0) (B p0) = Some B2) ∧
    ∀ r p, g2 !! r = Some p → buffer (heap p) (B_local p) = Some B2.
Proof.
  apply (bcast_replicates_B zero add mul alloc_ok A2 B2 2 2).
  - lia.
  - lia.
  - reflexivity.
  - unfold INT_MAX. lia.
  - exact never_null_alloc_ok.
  - reflexivity.
  - reflexivity.
Defined.

Lemma multiply_matrices_frame_witness :
  buffer heap_out (Ptr 0) = buffer heap_in (Ptr 0) ∧
  buffer heap_out (Ptr 1) = buffer heap_in (Ptr 1) ∧
  load heap_out (Ptr 2) 2 = Some one ∧
  dom heap_out = dom heap_in.
Proof.
  destruct (multiply_matrices_frame zero add mul (Ptr 0) (Ptr 1) (Ptr 2) 1 2 heap_in heap_out)
    as (Ha & Hb & Hother & Hrest & Hlen & Hdom).
  - vm_compute. reflexivity.
  - split; [apply Ha; discriminate|]. split; [apply Hb; discriminate|].
    split; [|exact Hdom]. rewrite Hrest by lia. reflexivity.
Defined.

(** C7, as stated, fails: the kernel may be called with its output buffer
    one of its inputs, and then it overwrites that input.  On
    [[1,2],[3,4]] and [[5,6],[7,8]], with [C_local] the buffer of
    [A_local] it returns with [[14,756],[28,1512]] in [A_local]; with
    [C_local] the buffer of [B] it returns with [[14,16],[210,240]] in
    [B]. *)
Lemma in_place_call_changes_input :
  (∃ h', multiply_matrices zero add mul (Ptr 0) (Ptr 1) (Ptr 0) 2 2 heap_AB = Some h' ∧
         buffer heap_AB (Ptr 0) = Some (of_Z <$> [1; 2; 3; 4]) ∧
         buffer h' (Ptr 0) = Some (of_Z <$> [14; 756; 28; 1512])) ∧
  (∃ h', multiply_matrices zero add mul (Ptr 0) (Ptr 1) (Ptr 1) 2 2 heap_AB = Some h' ∧
         buffer heap_AB (Ptr 1) = Some (of_Z <$> [5; 6; 7; 8]) ∧
         buffer h' (Ptr 1) = Some (of_Z <$> [14; 16; 210; 240])).
Proof.
  split; eexists; (split; [vm_compute; reflexivity|]); split; vm_compute; reflexivity.
Qed.

(** C8, as stated, fails: when the allocation of [B_local] fails on the
    single rank of a 1 x 1 problem, the process calls [MPI_Abort] while it
    still holds the blocks of [A_local] and [C_local]. *)
Lemma abort_path_keeps_buffers :
  ∃ p, main zero add mul alloc_fail_second [of_Z 1] [of_Z 1]
            ["matrix-mult"; "1"]%string 1 = Some [(Aborted 1, p)] ∧
       elements (live p) ≡ₚ [0%nat; 2%nat] ∧
       rev (out p) = [EvInit; EvPrint (MsgConfig 1 1 1 1);
                      EvMalloc 1 (Ptr 0); EvMalloc 1 NULL; EvMalloc 1 (Ptr 2);
                      EvPrint (MsgLocalAllocFailed 0); EvAbort 1].
Proof.
  eexists. split; [vm_compute; reflexivity|]. split; [|reflexivity].
  vm_compute. apply perm_swap.
Qed.

Lemma buffers_released_on_return_witness :
  ∃ res p, main zero add mul alloc_ok A2 B2 ["matrix-mult"; "2"]%string 2 = Some res ∧
           res !! 1%nat = Some (Returned 0, p) ∧ live p = ∅.
Proof.
  destruct (main_ok zero add mul 2 2 ltac:(lia) ltac:(lia) eq_refl
              ltac:(unfold INT_MAX; lia) alloc_ok A2 B2 ["matrix-mult"; "2"]%string
              eq_refl never_null_alloc_ok eq_refl eq_refl) as (res & Hmain & Hlen & Hall).
  destruct (lookup_lt_is_Some_2 res 1%nat) as [[o p] Hp]; [lia|].
  destruct (Hall 1%nat o p Hp) as [-> _].
  exists res, p. split; [exact Hmain|]. split; [exact Hp|].
  exact (buffers_released_on_return zero add mul alloc_ok A2 B2
           ["matrix-mult"; "2"]%string 2 res Hmain 1%nat 0 p Hp).
Defined.

(** C9, as stated, fails.  With an infinite entry in A the product with
    the identity has a NaN where A has 0.0, since [inf * 0.0] is NaN; with
    a NaN in A the whole row is NaN; and a NaN compares equal to nothing,
    itself included.  For the valid problem [n = 46341], [N = 1], whose
    [n * n] is not a C int, and when an allocation fails, there is no
    result at all. *)
Lemma identity_fails_on_infinity :
  (gathered_C zero add mul alloc_ok A_inf (identity zero one 2) 2 1
   = Some [inf; S754_nan; zero; zero] ∧
   A_inf = [inf; zero; zero; zero] ∧
   eqb S754_nan zero = false) ∧
  (gathered_C zero add mul alloc_ok A_nan (identity zero one 2) 2 1
   = Some [S754_nan; S754_nan; zero; zero] ∧
   A_nan = [S754_nan; zero; zero; zero] ∧
   eqb S754_nan S754_nan = false) ∧
  (∀ (env : nat → nat → option (nat → double)) (A0 : list double),
     gathered_C zero add mul env A0 (identity zero one 46341) 46341 1 = None) ∧
  gathered_C zero add mul alloc_fail_second A2 (identity zero one 2) 2 1 = None.
Proof.
  split; [|split; [|split]].
  - split; [vm_compute; reflexivity|]. split; reflexivity.
  - split; [vm_compute; reflexivity|]. split; reflexivity.
  - intros env A0. unfold gathered_C.
    rewrite oversized_problem_undefined;
      [done|lia|lia|reflexivity|unfold INT_MAX; lia].
  - vm_compute. reflexivity.
Qed.

Lemma identity_is_right_identity_witness :
  ∃ C0, gathered_C zero add mul alloc_ok A_zeros (identity zero one 2) 2 2 = Some C0 ∧
        Forall2 (fun c a => eqb c a = true ∧
                            (a ≠ neg_zero → c = a) ∧
                            (a = neg_zero → c = zero)) C0 A_zeros ∧
        (neg_zero ∉ A_zeros → C0 = A_zeros).
Proof.
  apply (identity_is_right_identity alloc_ok A_zeros 2 2).
  - lia.
  - lia.
  - reflexivity.
  - unfold INT_MAX. lia.
  - exact never_null_alloc_ok.
  - reflexivity.
  - repeat constructor.
Defined.

Lemma nonpositive_size_rejected_witness :
  ∃ res, main zero add mul alloc_ok [] [] ["matrix-mult"; "abc"]%string 2 = Some res ∧
         length res = 2%nat ∧
         ∀ r o p, res !! r = Some (o, p) →
           o = Returned 1 ∧ live p = ∅ ∧ brk p = 0%nat ∧
           Forall (fun e => is_collective e = false ∧ is_malloc e = false) (out p) ∧
           rev (out p)
           = [EvInit] ++ (if decide (r = 0%nat) then [EvPrint (MsgSizeTooSmall 0 2)] else [])
                      ++ [EvFinalize].
Proof.
  apply (nonpositive_size_rejected zero add mul alloc_ok [] [] "matrix-mult" "abc" [] 0 2).
  - lia.
  - reflexivity.
  - lia.
Defined.

(** * The values of the program's own matrices *)

Lemma rand_values_in_range : forallb in_range rand_values = true.
Proof. vm_compute. reflexivity. Qed.

(** Line 29 against the decimal constants: for each remainder [k] the
    quotient computed in binary64 is the double written [k / 10]. *)
Lemma rand_values_table :
  forallb (fun k => bool_decide (rand_values !! k = Some (rand_value (Z.of_nat k))))
          (seq 0 100) = true.
Proof. vm_compute. reflexivity. Qed.

Lemma rand_value_lookup (r : Z) :
  0 ≤ r → rand_values !! Z.to_nat (Z.rem r 100) = Some (rand_value r).
Proof.
  intros Hr. pose proof (Z.rem_bound_pos r 100 Hr ltac:(lia)) as Hk.
  pose proof rand_values_table as Htab. rewrite forallb_forall in Htab.
  specialize (Htab (Z.to_nat (Z.rem r 100))).
  rewrite bool_decide_eq_true in Htab. rewrite Htab by (apply in_seq; lia).
  f_equal. unfold rand_value. rewrite Z2Nat.id by lia. by rewrite Z.rem_rem by lia.
Qed.

Lemma rand_value_range_aux (r : Z) : 0 ≤ r → in_range (rand_value r) = true.
Proof.
  intros Hr. pose proof rand_values_in_range as Hall. rewrite forallb_forall in Hall.
  apply Hall, list_elem_of_In. eapply list_elem_of_lookup_2. by apply rand_value_lookup.
Qed.

(** X17: line 29.  Whatever non-negative number [rand()] returns, the
    value stored for the remainder [k = rand() % 100] is the double
    written [k / 10] in decimal, one of 0.0, 0.1, ..., 9.9: it is finite,
    at least 0.0 and at most 9.9, as the comment of that line says. *)
Theorem rand_value_range (r : Z) :
  0 ≤ r →
  rand_values !! Z.to_nat (Z.rem r 100) = Some (rand_value r) ∧
  rand_value r ∈ rand_values ∧
  in_range (rand_value r) = true.
Proof.
  intros Hr. pose proof (rand_value_lookup r Hr) as Hk.
  split; [done|]. split; [by eapply list_elem_of_lookup_2|].
  by apply rand_value_range_aux.
Qed.

(** X18: a matrix filled by [initialize_matrix] from any sequence of
    results of [rand()] holds, in each of its [rows * cols] elements, one
    of the doubles written 0.0, 0.1, ..., 9.9: a finite value between 0.0
    and 9.9. *)
Theorem initialize_matrix_range (draws : list Z) (b : nat) (l : list double)
    (rows cols : Z) (h : gmap nat (list double)) :
  Forall (fun r => 0 ≤ r) draws →
  h !! b = Some l →
  INT_MIN ≤ rows * cols ≤ INT_MAX → rows * cols ≤ Z.of_nat (length l) →
  ∃ h', initialize_matrix zero (rand_value <$> draws) (Ptr b) rows cols h = Some h' ∧
        ∀ i, 0 ≤ i < rows * cols →
          ∃ v, load h' (Ptr b) i = Some v ∧ v ∈ rand_values ∧ in_range v = true.
Proof.
  intros Hdraws Hl Hint Hlen. eexists. split; [by apply initialize_matrix_run|].
  intros i Hi. exists (elt zero (rand_value <$> draws) i). split.
  - rewrite load_insert_eq by lia. rewrite lookup_app_l by (rewrite length_fmap, length_seqZ; lia).
    rewrite list_lookup_fmap, lookup_seqZ_lt by lia. simpl.
    by rewrite Z.add_0_l, Z2Nat.id by lia.
  - unfold elt. destruct (nth_lookup_or_length (rand_value <$> draws) (Z.to_nat i) zero)
      as [Hv|Hlong].
    + rewrite list_lookup_fmap in Hv.
      destruct (draws !! Z.to_nat i) as [r|] eqn:Hr; simpl in Hv; [|done].
      injection Hv as <-.
      assert (0 ≤ r) as Hr0.
      { rewrite Forall_forall in Hdraws. apply Hdraws. by eapply list_elem_of_lookup_2. }
      split; [|by apply rand_value_range_aux].
      eapply list_elem_of_lookup_2. by apply rand_value_lookup.
    + rewrite nth_overflow by lia. split; [|reflexivity].
      apply (list_elem_of_lookup_2 _ 0%nat). reflexivity.
Qed.

(** * The cost of the kernel *)

Lemma flops_dot_prefix (la lb : list Flops.count) (n i j : Z) (k : nat) :
  (∀ t, elt Flops.none la t = Flops.none) → (∀ t, elt Flops.none lb t = Flops.none) →
  dot_prefix Flops.none Flops.add Flops.mul la lb n i j (Z.of_nat k)
  = (Z.of_nat k, Z.of_nat k).
Proof.
  intros Ha Hb. induction k as [|k IH]; [done|].
  replace (Z.of_nat (S k)) with (Z.of_nat k + 1) by lia.
  rewrite dot_prefix_succ by lia. rewrite IH, Ha, Hb.
  unfold Flops.add, Flops.mul, Flops.none. simpl. f_equal; lia.
Qed.

Lemma flops_none (l : list Flops.count) :
  Forall (fun x => x = Flops.none) l → ∀ t, elt Flops.none l t = Flops.none.
Proof.
  intros Hl t. unfold elt.
  destruct (nth_lookup_or_length l (Z.to_nat t) Flops.none) as [Hv|Hlong].
  - rewrite Forall_forall in Hl. apply Hl. by eapply list_elem_of_lookup_2.
  - apply nth_overflow. lia.
Qed.

(** The product of two matrices of inputs: every cell has cost [n]
    additions and [n] multiplications. *)
Lemma flops_matmul (la lb : list Flops.count) (rows n : Z) :
  0 ≤ rows → 0 ≤ n →
  Forall (fun x => x = Flops.none) la → Forall (fun x => x = Flops.none) lb →
  matmul Flops.none Flops.add Flops.mul la lb rows n
  = replicate (Z.to_nat (rows * n)) (n, n).
Proof.
  intros Hrows Hn Hza Hzb. unfold matmul. symmetry.
  apply tabulate_ext; [done|done|by rewrite length_replicate|].
  intros i j Hi Hj. rewrite lookup_replicate_2 by nia. f_equal.
  unfold dot_naive.
  replace (dot_prefix Flops.none Flops.add Flops.mul la lb n i j n)
    with (dot_prefix Flops.none Flops.add Flops.mul la lb n i j (Z.of_nat (Z.to_nat n)))
    by (by rewrite Z2Nat.id by lia).
  rewrite flops_dot_prefix by (by apply flops_none). by rewrite Z2Nat.id by lia.
Qed.

Lemma flops_total_replicate (m : nat) (x : Flops.count) :
  Flops.total (replicate m x) = (Z.of_nat m * x.1, Z.of_nat m * x.2).
Proof.
  induction m as [|m IH]; [done|]. simpl. rewrite IH. simpl. f_equal; lia.
Qed.

(** X19: the cost of the kernel, additions and multiplications counted
    apart.  Every cell of the output is produced by exactly [n]
    additions and [n] multiplications, so the [local_rows * n] cells of a
    slice cost [local_rows * n * n] additions and as many
    multiplications. *)
Theorem multiply_matrices_flops (a b c : nat) (local_rows n : Z)
    (h : gmap nat (list Flops.count)) (la lb lc : list Flops.count) :
  0 ≤ local_rows → 0 ≤ n →
  local_rows * n ≤ INT_MAX → n * n ≤ INT_MAX →
  h !! a = Some la → local_rows * n ≤ Z.of_nat (length la) →
  h !! b = Some lb → n * n ≤ Z.of_nat (length lb) →
  h !! c = Some lc → local_rows * n ≤ Z.of_nat (length lc) →
  c ≠ a → c ≠ b →
  Forall (fun x => x = Flops.none) la → Forall (fun x => x = Flops.none) lb →
  ∃ h' lc',
    multiply_matrices Flops.none Flops.add Flops.mul (Ptr a) (Ptr b) (Ptr c)
                      local_rows n h = Some h' ∧
    h' !! c = Some lc' ∧
    (∀ i j, 0 ≤ i < local_rows → 0 ≤ j < n →
       lc' !! Z.to_nat (i * n + j) = Some (n, n)) ∧
    Flops.total (take (Z.to_nat (local_rows * n)) lc')
    = (local_rows * n * n, local_rows * n * n).
Proof.
  intros Hrows Hn Hir Hin Ha Hla Hb Hlb Hc Hlc Hca Hcb Hza Hzb.
  eexists _, _. split.
  { by apply (multiply_matrices_exact Flops.none Flops.add Flops.mul a b c la lb
                local_rows n). }
  split; [apply lookup_insert_eq|].
  rewrite flops_matmul by done. split.
  - intros i j Hi Hj. rewrite lookup_app_l by (rewrite length_replicate; nia).
    apply lookup_replicate_2. nia.
  - rewrite take_app_length' by (by rewrite length_replicate).
    rewrite flops_total_replicate. simpl. f_equal; nia.
Qed.

(** X20: the cost of a run.  The product gathered on rank 0 has cost [n]
    additions and [n] multiplications in each of its [n * n] cells,
    [n * n * n] of each in all, whatever the number of ranks that shared
    the work: [2 * n * n * n] floating-point operations, the figure the
    comment of line 205 gives. *)
Theorem run_flops (env : nat → nat → option (nat → Flops.count)) (n : Z) (N : nat) :
  (0 < N)%nat → Z.of_nat N ≤ n → Z.rem n (Z.of_nat N) = 0 →
  n * n ≤ INT_MAX →
  never_null env →
  ∃ C0, gathered_C Flops.none Flops.add Flops.mul env
                   (replicate (Z.to_nat (n * n)) Flops.none)
                   (replicate (Z.to_nat (n * n)) Flops.none) n N = Some C0 ∧
        length C0 = Z.to_nat (n * n) ∧
        Forall (fun x => x = (n, n)) C0 ∧
        Flops.total C0 = (n * n * n, n * n * n) ∧
        (Flops.total C0).1 + (Flops.total C0).2 = 2 * n * n * n.
Proof.
  intros HN HnN Hdiv Hint Henv.
  assert (Forall (fun x => x = Flops.none) (replicate (Z.to_nat (n * n)) Flops.none))
    as Hz by (apply Forall_replicate; done).
  exists (replicate (Z.to_nat (n * n)) (n, n)).
  split; [|split; [|split]].
  - rewrite (gathered_C_ok Flops.none Flops.add Flops.mul n N HN HnN Hdiv Hint env)
      by (done || by rewrite length_replicate).
    f_equal. apply flops_matmul; [lia|lia|done|done].
  - by rewrite length_replicate.
  - by apply Forall_replicate.
  - rewrite flops_total_replicate. simpl. split; [f_equal; nia|nia].
Qed.

(** * Instances of the further theorems *)

Lemma initialize_matrix_fills_witness :
  ∃ h', initialize_matrix zero (of_Z <$> [1; 2]) (Ptr 2) 1 2 heap_in = Some h' ∧
        (∀ i, 0 ≤ i < 1 * 2 → load h' (Ptr 2) i = Some (elt zero (of_Z <$> [1; 2]) i)) ∧
        (∀ i, 0 ≤ i → 1 * 2 ≤ i → load h' (Ptr 2) i = load heap_in (Ptr 2) i) ∧
        (∀ b', b' ≠ 2%nat → h' !! b' = heap_in !! b') ∧
        dom h' = dom heap_in.
Proof.
  apply (initialize_matrix_fills zero (of_Z <$> [1; 2]) 2 [S754_nan; S754_nan; one] 1 2
           heap_in).
  - reflexivity.
  - unfold INT_MIN, INT_MAX. lia.
  - simpl. lia.
Defined.

Lemma initialize_matrix_safe_iff_witness :
  is_Some (initialize_matrix zero [] (Ptr 2) 2 2 heap_in) ↔
  ∃ b l, Ptr 2 = Ptr b ∧ heap_in !! b = Some l ∧ 2 * 2 ≤ Z.of_nat (length l).
Proof.
  apply (initialize_matrix_safe_iff zero [] (Ptr 2) 2 2 heap_in).
  unfold INT_MAX. lia.
Defined.

Lemma print_matrix_shows_witness :
  ∃ p', print_matrix (Ptr 1) 2 2 "Matrix B" (set_heap heap_in (proc_init 0)) = Some p' ∧
        rev (out p')
        = rev (out (set_heap heap_in (proc_init 0))) ++ matrix_text zero "Matrix B" 2 2 B2 ∧
        heap p' = heap (set_heap heap_in (proc_init 0)) ∧
        brk p' = brk (set_heap heap_in (proc_init 0)) ∧
        same_locals (set_heap heap_in (proc_init 0)) p'.
Proof.
  apply (print_matrix_shows zero 1 B2 2 2 "Matrix B" (set_heap heap_in (proc_init 0))).
  - reflexivity.
  - lia.
  - lia.
  - unfold shown. simpl. lia.
Defined.

(** A 2 x 11 matrix with entries 0 .. 21: the two lines shown hold the
    entries 0 .. 9, all of row 0, not 0 .. 4 and 11 .. 15. *)
Lemma print_matrix_values_witness :
  ∃ tr, print_matrix (Ptr 0) 2 11 "M" (set_heap heap_matrix (proc_init 0))
        = Some (log_all tr (set_heap heap_matrix (proc_init 0))) ∧
        printed_values tr = of_Z <$> [0; 1; 2; 3; 4; 5; 6; 7; 8; 9].
Proof.
  destruct (print_matrix_values zero 0 (of_Z <$> seqZ 0 22) 2 11 "M"
              (set_heap heap_matrix (proc_init 0))) as (tr & Hrun & Hvals & _).
  - reflexivity.
  - lia.
  - lia.
  - vm_compute. discriminate.
  - exists tr. split; [exact Hrun|]. rewrite Hvals. vm_compute. reflexivity.
Defined.

Lemma multiply_matrices_empty_witness :
  multiply_matrices zero add mul NULL NULL NULL 0 5 heap_in = Some heap_in.
Proof. apply (multiply_matrices_empty zero add mul NULL NULL NULL 0 5 heap_in). left. lia. Defined.

Lemma multiply_matrices_overwrites_witness :
  ∃ h1, multiply_matrices zero add mul (Ptr 0) (Ptr 1) (Ptr 2) 1 2 heap_in = Some h1 ∧
        multiply_matrices zero add mul (Ptr 0) (Ptr 1) (Ptr 2) 1 2 h1 = Some h1 ∧
        ∀ garbage, length garbage = Z.to_nat (1 * 2) →
          multiply_matrices zero add mul (Ptr 0) (Ptr 1) (Ptr 2) 1 2
            (<[2%nat := garbage ++ drop (Z.to_nat (1 * 2)) [S754_nan; S754_nan; one]]> heap_in)
          = Some h1.
Proof.
  apply (multiply_matrices_overwrites zero add mul 0 1 2 1 2 heap_in
           (of_Z <$> [1; 2]) B2 [S754_nan; S754_nan; one]).
  - lia.
  - lia.
  - unfold INT_MAX. lia.
  - unfold INT_MAX. lia.
  - reflexivity.
  - simpl. lia.
  - reflexivity.
  - simpl. lia.
  - reflexivity.
  - simpl. lia.
  - discriminate.
  - discriminate.
Defined.

Lemma multiply_matrices_safe_iff_witness :
  is_Some (multiply_matrices zero add mul (Ptr 0) (Ptr 1) (Ptr 2) 1 2 heap_in) ↔
  ∃ la lb lc,
    buffer heap_in (Ptr 0) = Some la ∧ 1 * 2 ≤ Z.of_nat (length la) ∧
    buffer heap_in (Ptr 1) = Some lb ∧ 2 * 2 ≤ Z.of_nat (length lb) ∧
    buffer heap_in (Ptr 2) = Some lc ∧ 1 * 2 ≤ Z.of_nat (length lc).
Proof.
  apply (multiply_matrices_safe_iff zero add mul (Ptr 0) (Ptr 1) (Ptr 2) 1 2 heap_in).
  - lia.
  - lia.
  - unfold INT_MAX. lia.
  - unfold INT_MAX. lia.
  - discriminate.
  - discriminate.
Defined.

Lemma successful_run_trace_witness :
  ∃ res, main zero add mul alloc_ok A2 B2 ["matrix-mult"; "2"]%string 2 = Some res ∧
         length res = 2%nat ∧
         ∀ r, (r < 2)%nat →
           ∃ p, res !! r = Some (Returned 0, p) ∧
                rev (out p) = run_trace zero add mul 2 2 A2 B2 r ∧
                filter (fun e => is_collective e = true) (rev (out p))
                = [EvBarrier; EvScatter; EvBcast; EvGather; EvBarrier].
Proof.
  apply (successful_run_trace zero add mul alloc_ok A2 B2 ["matrix-mult"; "2"]%string 2 2).
  - lia.
  - lia.
  - reflexivity.
  - unfold INT_MAX. lia.
  - reflexivity.
  - intros r k _. by eexists.
  - reflexivity.
  - reflexivity.
Defined.

(** The example of the specification as the program shows it. *)
Lemma run_shows_product_witness :
  ∃ res, main zero add mul alloc_ok A2 B2 ["matrix-mult"; "2"]%string 2 = Some res ∧
         (∃ p0, res !! 0%nat = Some (Returned 0, p0) ∧
                printed_values (rev (out p0)) = A2 ++ B2 ++ C2) ∧
         ∀ r p, (0 < r)%nat → res !! r = Some (Returned 0, p) →
           filter (fun e => is_print e = true) (out p) = [].
Proof.
  destruct (run_shows_product zero add mul alloc_ok A2 B2 ["matrix-mult"; "2"]%string 2 2)
    as (res & Hres & (p0 & Hp0 & Hvals) & Hquiet).
  - lia.
  - lia.
  - reflexivity.
  - unfold INT_MAX. lia.
  - reflexivity.
  - intros r k _. by eexists.
  - reflexivity.
  - reflexivity.
  - exists res. split; [exact Hres|]. split; [|exact Hquiet].
    exists p0. split; [exact Hp0|]. rewrite Hvals. vm_compute. reflexivity.
Defined.

Lemma pipeline_leaves_witness :
  ∃ g0 g1,
    start_group zero alloc_ok A2 B2 2 2 = Some (Continue <$> g0) ∧
    pipeline zero add mul 2 (Z.quot 2 (Z.of_nat 2)) g0 = Some g1 ∧
    length g1 = 2%nat ∧
    ∀ r p, g1 !! r = Some p →
      buffer (heap p) (A_local p)
      = Some (rows_of zero A2 2 (row_block 2 (Z.of_nat 2) (Z.of_nat r))) ∧
      buffer (heap p) (B_local p) = Some B2 ∧
      buffer (heap p) (C_local p)
      = Some (rows_of zero (matmul zero add mul A2 B2 2 2) 2
                (row_block 2 (Z.of_nat 2) (Z.of_nat r))) ∧
      (r = 0%nat →
         buffer (heap p) (A p) = Some A2 ∧ buffer (heap p) (B p) = Some B2 ∧
         buffer (heap p) (C p) = Some (matmul zero add mul A2 B2 2 2)).
Proof.
  apply (pipeline_leaves zero add mul alloc_ok A2 B2 2 2).
  - lia.
  - lia.
  - reflexivity.
  - unfold INT_MAX. lia.
  - exact never_null_alloc_ok.
  - reflexivity.
  - reflexivity.
Defined.

(** Two ranks whose second allocation fails: both abort, each holding the
    two slices it did get. *)
Lemma abort_leaves_startup_state_witness :
  ∃ res, main zero add mul alloc_fail_second A2 B2 ["matrix-mult"; "2"]%string 2 = Some res ∧
         ∀ r o p, res !! r = Some (o, p) →
           (o = Aborted 1 ∨ o = Killed) ∧
           live p = allocated (out p) ∧
           Forall (fun e => is_startup e = true) (out p).
Proof.
  destruct (main zero add mul alloc_fail_second A2 B2 ["matrix-mult"; "2"]%string 2)
    as [res|] eqn:Hmain; [|vm_compute in Hmain; discriminate].
  exists res. split; [reflexivity|].
  apply (abort_leaves_startup_state zero add mul alloc_fail_second A2 B2
           ["matrix-mult"; "2"]%string 2 res Hmain).
  vm_compute in Hmain. injection Hmain as <-. by eexists 0%nat, _, _.
Defined.

Lemma local_allocation_failure_aborts_witness :
  ∃ res, main zero add mul alloc_fail_second A2 B2 ["matrix-mult"; "2"]%string 2 = Some res ∧
         length res = 2%nat ∧
         (∃ p tr, res !! 1%nat = Some (Aborted 1, p) ∧
                  out p = EvAbort 1 :: EvPrint (MsgLocalAllocFailed (Z.of_nat 1)) :: tr) ∧
         ∀ r' o p, res !! r' = Some (o, p) → o = Aborted 1 ∨ o = Killed.
Proof.
  apply (local_allocation_failure_aborts zero add mul alloc_fail_second A2 B2
           ["matrix-mult"; "2"]%string 2 2 1 1).
  - lia.
  - lia.
  - reflexivity.
  - unfold INT_MAX. lia.
  - reflexivity.
  - reflexivity.
  - reflexivity.
  - lia.
  - lia.
  - reflexivity.
Defined.

Lemma full_allocation_failure_aborts_witness :
  ∃ res, main zero add mul alloc_fail_fifth A2 B2 ["matrix-mult"; "2"]%string 2 = Some res ∧
         length res = 2%nat ∧
         (∃ p tr, res !! 0%nat = Some (Aborted 1, p) ∧
                  out p = EvAbort 1 :: EvPrint MsgFullAllocFailed :: tr) ∧
         ∀ r, (0 < r < 2)%nat →
           ∃ p, res !! r = Some (Killed, p) ∧
                rev (out p) = [EvInit;
                               EvMalloc (Z.quot 2 (Z.of_nat 2) * 2) (Ptr 0);
                               EvMalloc (2 * 2) (Ptr 1);
                               EvMalloc (Z.quot 2 (Z.of_nat 2) * 2) (Ptr 2)] ∧
                live p = allocated (out p).
Proof.
  apply (full_allocation_failure_aborts zero add mul alloc_fail_fifth A2 B2
           ["matrix-mult"; "2"]%string 2 2 4).
  - lia.
  - lia.
  - reflexivity.
  - unfold INT_MAX. lia.
  - reflexivity.
  - reflexivity.
  - reflexivity.
  - intros r j _ Hj. unfold alloc_fail_fifth.
    destruct j as [|[|[|j]]]; [by eexists|by eexists|by eexists|lia].
  - lia.
  - reflexivity.
Defined.

Lemma rand_value_range_witness :
  rand_values !! Z.to_nat (Z.rem 12345 100) = Some (rand_value 12345) ∧
  rand_value 12345 ∈ rand_values ∧
  in_range (rand_value 12345) = true.
Proof. apply (rand_value_range 12345). lia. Defined.

Lemma initialize_matrix_range_witness :
  ∃ h', initialize_matrix zero (rand_value <$> [12345; 7]) (Ptr 2) 1 2 heap_in = Some h' ∧
        ∀ i, 0 ≤ i < 1 * 2 →
          ∃ v, load h' (Ptr 2) i = Some v ∧ v ∈ rand_values ∧ in_range v = true.
Proof.
  apply (initialize_matrix_range [12345; 7] 2 [S754_nan; S754_nan; one] 1 2 heap_in).
  - repeat (constructor; [lia|]). constructor.
  - reflexivity.
  - unfold INT_MIN, INT_MAX. lia.
  - simpl. lia.
Defined.

Lemma multiply_matrices_flops_witness :
  ∃ h' lc',
    multiply_matrices Flops.none Flops.add Flops.mul (Ptr 0) (Ptr 1) (Ptr 2) 1 2
      (<[2%nat := [(5, 5); (5, 5)]]>
         (<[1%nat := replicate 4 Flops.none]> (<[0%nat := replicate 2 Flops.none]> ∅)))
    = Some h' ∧
    h' !! 2%nat = Some lc' ∧
    (∀ i j, 0 ≤ i < 1 → 0 ≤ j < 2 → lc' !! Z.to_nat (i * 2 + j) = Some (2, 2)) ∧
    Flops.total (take (Z.to_nat (1 * 2)) lc') = (1 * 2 * 2, 1 * 2 * 2).
Proof.
  apply (multiply_matrices_flops 0 1 2 1 2
           (<[2%nat := [(5, 5); (5, 5)]]>
              (<[1%nat := replicate 4 Flops.none]> (<[0%nat := replicate 2 Flops.none]> ∅)))
           (replicate 2 Flops.none) (replicate 4 Flops.none) [(5, 5); (5, 5)]).
  - lia.
  - lia.
  - unfold INT_MAX. lia.
  - unfold INT_MAX. lia.
  - reflexivity.
  - simpl. lia.
  - reflexivity.
  - simpl. lia.
  - reflexivity.
  - simpl. lia.
  - discriminate.
  - discriminate.
  - repeat constructor.
  - repeat constructor.
Defined.

Lemma run_flops_witness :
  ∃ C0, gathered_C Flops.none Flops.add Flops.mul (fun _ _ => Some (fun _ => (7, 7)))
                   (replicate (Z.to_nat (4 * 4)) Flops.none)
                   (replicate (Z.to_nat (4 * 4)) Flops.none) 4 2 = Some C0 ∧
        length C0 = Z.to_nat (4 * 4) ∧
        Forall (fun x => x = (4, 4)) C0 ∧
        Flops.total C0 = (4 * 4 * 4, 4 * 4 * 4) ∧
        (Flops.total C0).1 + (Flops.total C0).2 = 2 * 4 * 4 * 4.
Proof.
  apply (run_flops (fun _ _ => Some (fun _ => (7, 7))) 4 2).
  - lia.
  - lia.
  - reflexivity.
  - unfold INT_MAX. lia.
  - intros r k. by eexists.
Defined.

Lemma allocation_failures_are_caught_witness :
  ∃ res, main zero add mul alloc_fail_second A2 B2 ["matrix-mult"; "2"]%string 2 = Some res ∧
         length res = 2%nat ∧
         ((∀ r k, needed 2 r k → is_Some (alloc_fail_second r k)) →
          ∀ r o p, res !! r = Some (o, p) → o = Returned 0 ∧ live p = ∅) ∧
         ((∃ r k, needed 2 r k ∧ alloc_fail_second r k = None) →
          ∀ r o p, res !! r = Some (o, p) → o = Aborted 1 ∨ o = Killed).
Proof.
  apply (allocation_failures_are_caught zero add mul alloc_fail_second A2 B2
           ["matrix-mult"; "2"]%string 2 2).
  - lia.
  - lia.
  - reflexivity.
  - unfold INT_MAX. lia.
  - reflexivity.
  - reflexivity.
  - reflexivity.
Defined.

(** The smallest size beyond the limit. *)
Lemma oversized_problem_overflows_witness :
  main zero add mul alloc_ok [] [] ["matrix-mult"; "46341"]%string 1 = None.
Proof.
  apply (oversized_problem_overflows zero add mul alloc_ok [] []
           ["matrix-mult"; "46341"]%string 46341 1).
  - lia.
  - lia.
  - reflexivity.
  - unfold INT_MAX. lia.
  - reflexivity.
Defined.

Lemma truncated_display_unreachable_witness :
  ∃ res, main zero add mul alloc_ok A2 B2 ["matrix-mult"; "2"]%string 2 = Some res ∧
         ∀ r o p, res !! r = Some (o, p) →
           Forall (fun e => is_notice e = false) (out p).
Proof.
  destruct (main zero add mul alloc_ok A2 B2 ["matrix-mult"; "2"]%string 2)
    as [res|] eqn:Hmain; [|vm_compute in Hmain; discriminate].
  exists res. split; [reflexivity|].
  apply (truncated_display_unreachable zero add mul alloc_ok A2 B2
           ["matrix-mult"; "2"]%string 2 2 res).
  - lia.
  - reflexivity.
  - reflexivity.
  - reflexivity.
  - exact Hmain.
Defined.
